(** * UPGMA tree construction (distancematrixtree/upgma.h)

    A shallow embedding of [StartTree::UPGMA_Matrix] and of
    [StartTree::VectorizedUPGMA_Matrix], instantiated at the default
    template argument [T = NJFloat = float], together with the properties
    of the candidate-join scanner, the join operation, the
    duplicate-coalescing pass and the agglomeration driver.

    Every subscript on a [std::vector] or on a raw row pointer is unchecked
    in the source; here each one is a lookup that either yields the element
    or stops the computation with [OutOfBounds], so that "the access is in
    bounds" is the statement that the function returns [Ok]. *)

From Stdlib Require Import ZArith Bool String Floats.SpecFloat Lia.
From stdpp Require Import base tactics option list.

Set Default Proof Using "Type".

(** ** Single-precision values *)

Module NJ.

(** [typedef float NJFloat]: IEEE-754 binary32, each operation rounded to
    nearest-even.  Comparisons with a NaN operand are false. *)
Definition prec : Z := 24.
Definition emax : Z := 128.

Abbreviation T := spec_float (only parsing).

Definition flt (x y : T) : bool := SFltb x y.
Definition feq (x y : T) : bool := SFeqb x y.
Definition fadd (x y : T) : T := SFadd prec emax x y.
Definition fsub (x y : T) : T := SFsub prec emax x y.
Definition fmul (x y : T) : T := SFmul prec emax x y.
Definition fdiv (x y : T) : T := SFdiv prec emax x y.

(** [(T)n] for an unsigned count [n]. *)
Definition of_count (n : nat) : T := binary_normalize prec emax (Z.of_nat n) 0 false.

(** [(size_t)x] for a lane value [x]: truncation toward zero.  The
    conversion of a negative or non-finite value is undefined in C++; it is
    mapped to 0 here and never reached with such a value. *)
Definition to_size_t (x : T) : nat :=
  match x with
  | S754_finite false m e =>
      Z.to_nat (match e with
                | Z0 => Zpos m
                | Zpos p => Z.shiftl (Zpos m) (Zpos p)
                | Zneg p => Z.shiftr (Zpos m) (Zpos p)
                end)
  | _ => 0
  end.

Definition zero : T := S754_zero false.                 (* (T)0.0 *)
Definition half : T := S754_finite false 8388608 (-24). (* (T)0.5 *)
Definition one  : T := S754_finite false 8388608 (-23). (* (T)1.0 *)
Definition two  : T := S754_finite false 8388608 (-22). (* (T)2.0 *)
Definition minus_one : T := S754_finite true 8388608 (-23).

(** [const NJFloat infiniteDistance = (NJFloat)(1e+36)]. *)
Definition infiniteDistance : T := S754_finite false 12621774 96.

(** [const intptr_t notMappedToRow = -1]. *)
Definition notMappedToRow : Z := (-1)%Z.

End NJ.
Export NJ.

(** ** Outcomes *)

(** The containers whose subscripts can go out of range. *)
Inductive array_id :=
  | A_rows | A_rowData | A_rowToCluster | A_clusters | A_rowMinima
  | A_weights | A_cluster_to_row | A_vc | A_matrix | A_nums.

Inductive error :=
  | OutOfBounds (a : array_id)
  | AssertionFailed
  | OutOfFuel.

Inductive result (A : Type) : Type :=
  | Ok (a : A)
  | Err (e : error).
Arguments Ok {A} a.
Arguments Err {A} e.

Definition bind {A B} (m : result A) (k : A -> result B) : result B :=
  match m with
  | Ok a => k a
  | Err e => Err e
  end.

Notation "x <- m ;; k" := (bind m (fun x => k))
  (at level 100, m at next level, right associativity).

(** [v[i]] as an rvalue. *)
Definition at_ {A} (a : array_id) (v : list A) (i : nat) : result A :=
  match v !! i with
  | Some x => Ok x
  | None => Err (OutOfBounds a)
  end.

(** [v[i] = x]. *)
Definition store {A} (a : array_id) (v : list A) (i : nat) (x : A)
  : result (list A) :=
  if decide (i < length v) then Ok (<[i := x]> v) else Err (OutOfBounds a).

(** [n - 1] used as a subscript: -1 is out of range. *)
Definition last_index (a : array_id) (n : nat) : result nat :=
  match n with
  | O => Err (OutOfBounds a)
  | S k => Ok k
  end.

(** [for (i = lo; i < lo + n; ++i) body]. *)
Fixpoint for_range {S} (n i : nat) (body : nat -> S -> result S) (s : S)
  : result S :=
  match n with
  | O => Ok s
  | Datatypes.S n' => s' <- body i s ;; for_range n' (Datatypes.S i) body s'
  end.

(** [for (i = lo; i < hi; ++i) body]. *)
Definition for_loop {S} (lo hi : nat) (body : nat -> S -> result S) (s : S)
  : result S :=
  for_range (hi - lo) lo body s.

(** ** Data model *)

(** [template <class T> struct Position]. *)
Record Position := mkPosition {
  row : nat;
  column : nat;
  value : T;
  imbalance : nat
}.

(** [Position()]. *)
Definition Position0 : Position := mkPosition 0 0 zero 0.

Definition set_value (p : Position) (v : T) : Position :=
  mkPosition (row p) (column p) v (imbalance p).

(** [operator<] and [operator<=] of [Position]. *)
Definition Position_lt (l r : Position) : bool :=
  flt (value l) (value r)
  || (feq (value l) (value r) && (imbalance l <? imbalance r)).

Definition Position_le (l r : Position) : bool :=
  flt (value l) (value r)
  || (feq (value l) (value r) && (imbalance l <=? imbalance r)).

(** Modelled from the spec: the record kept by the Cluster Hierarchy
    Tracker (clustertree.h is not among the sources): the number of
    original leaves under the cluster, its name when it is a leaf, and the
    children with their branch lengths when it is a join. *)
Record Cluster := mkCluster {
  countOfExteriorNodes : nat;
  clusterName : string;
  links : list (nat * T)
}.

Abbreviation ClusterTree := (list Cluster) (only parsing).

(** Modelled from the spec: [ClusterTree::addCluster(name)] appends a leaf
    record. *)
Definition addCluster (name : string) (cs : ClusterTree) : ClusterTree :=
  cs ++ [mkCluster 1 name []].

(** Modelled from the spec: [ClusterTree::addCluster(a, aLength, b, bLength)]
    appends a parent of [a] and [b] subtending the leaves of both. *)
Definition addCluster2 (a : nat) (aLength : T) (b : nat) (bLength : T)
    (cs : ClusterTree) : result ClusterTree :=
  ca <- at_ A_clusters cs a ;;
  cb <- at_ A_clusters cs b ;;
  Ok (cs ++ [mkCluster (countOfExteriorNodes ca + countOfExteriorNodes cb)
                       EmptyString [(a, aLength); (b, bLength)]]).

(** Modelled from the spec: the three-child [addCluster] used for the
    degree-3 node of an unrooted tree. *)
Definition addCluster3 (a : nat) (aLength : T) (b : nat) (bLength : T)
    (c : nat) (cLength : T) (cs : ClusterTree) : result ClusterTree :=
  ca <- at_ A_clusters cs a ;;
  cb <- at_ A_clusters cs b ;;
  cc <- at_ A_clusters cs c ;;
  Ok (cs ++ [mkCluster (countOfExteriorNodes ca + countOfExteriorNodes cb
                        + countOfExteriorNodes cc)
                       EmptyString
                       [(a, aLength); (b, bLength); (c, cLength)]]).

Abbreviation Matrix := (list (list T)) (only parsing).

(** The members of [UPGMA_Matrix<T>] that the algorithm reads or writes.
    [rows] is the storage of [SquareMatrix]; only the first [row_count]
    rows and columns are live. *)
Record UPGMA_Matrix := mkUPGMA {
  row_count : nat;
  rows : Matrix;
  rowToCluster : list nat;
  clusters : ClusterTree;
  rowMinima : list Position;
  isRooted : bool
}.

Definition set_row_count (n : nat) (m : UPGMA_Matrix) : UPGMA_Matrix :=
  mkUPGMA n (rows m) (rowToCluster m) (clusters m) (rowMinima m) (isRooted m).
Definition set_rows (r : Matrix) (m : UPGMA_Matrix) : UPGMA_Matrix :=
  mkUPGMA (row_count m) r (rowToCluster m) (clusters m) (rowMinima m) (isRooted m).
Definition set_rowToCluster (v : list nat) (m : UPGMA_Matrix) : UPGMA_Matrix :=
  mkUPGMA (row_count m) (rows m) v (clusters m) (rowMinima m) (isRooted m).
Definition set_clusters (c : ClusterTree) (m : UPGMA_Matrix) : UPGMA_Matrix :=
  mkUPGMA (row_count m) (rows m) (rowToCluster m) c (rowMinima m) (isRooted m).
Definition set_rowMinima (p : list Position) (m : UPGMA_Matrix) : UPGMA_Matrix :=
  mkUPGMA (row_count m) (rows m) (rowToCluster m) (clusters m) p (isRooted m).

(** [setIsRooted]. *)
Definition setIsRooted (rootIt : bool) (m : UPGMA_Matrix) : bool * UPGMA_Matrix :=
  (true, mkUPGMA (row_count m) (rows m) (rowToCluster m) (clusters m)
                 (rowMinima m) rootIt).

(** [rows[r][c]] as an rvalue and as an lvalue. *)
Definition mget (M : Matrix) (r c : nat) : result T :=
  rowData <- at_ A_rows M r ;;
  at_ A_rowData rowData c.

Definition mset (M : Matrix) (r c : nat) (v : T) : result Matrix :=
  rowData <- at_ A_rows M r ;;
  rowData' <- store A_rowData rowData c v ;;
  store A_rows M r rowData'.

(** ** The scalar candidate-join scanner *)

(** [getImbalance(rowA, rowB)]. *)
Definition getImbalance (m : UPGMA_Matrix) (rowA rowB : nat) : result nat :=
  clusterA <- at_ A_rowToCluster (rowToCluster m) rowA ;;
  clusterB <- at_ A_rowToCluster (rowToCluster m) rowB ;;
  cA <- at_ A_clusters (clusters m) clusterA ;;
  cB <- at_ A_clusters (clusters m) clusterB ;;
  let sizeA := countOfExteriorNodes cA in
  let sizeB := countOfExteriorNodes cB in
  Ok (if sizeA <? sizeB then sizeB - sizeA else sizeA - sizeB).

(** One step of the inner loop of [getRowMinima]: the running
    [(bestColumn, bestVrc)] after looking at column [col]. *)
Definition scanStep (rowData : list T) (col : nat) (best : nat * T)
  : result (nat * T) :=
  v <- at_ A_rowData rowData col ;;
  let better := flt v (snd best) in
  Ok (if better then (col, v) else best).

(** The body of the outer loop of [getRowMinima] for one [row]. *)
Definition scanRow (m : UPGMA_Matrix) (row : nat) (rm : list Position)
  : result (list Position) :=
  rowData <- at_ A_rows (rows m) row ;;
  best <- for_loop 0 row (scanStep rowData) (0, infiniteDistance) ;;
  imb <- getImbalance m row (fst best) ;;
  store A_rowMinima rm row (mkPosition row (fst best) (snd best) imb).

(** [UPGMA_Matrix::getRowMinima]. *)
Definition getRowMinima (m : UPGMA_Matrix) : result UPGMA_Matrix :=
  let rm := resize (row_count m) Position0 (rowMinima m) in
  p0 <- at_ A_rowMinima rm 0 ;;
  rm <- store A_rowMinima rm 0 (set_value p0 infiniteDistance) ;;
  rm <- for_loop 1 (row_count m) (scanRow m) rm ;;
  Ok (set_rowMinima rm m).

(** The body of the reduction loop of [getMinimumEntry]. *)
Definition minStep (rm : list Position) (r : nat) (best : Position)
  : result Position :=
  here <- at_ A_rowMinima rm r ;;
  Ok (if flt (value here) (value best) && negb (row here =? column here)
      then here else best).

(** [UPGMA_Matrix::getMinimumEntry(best)]; [best] is the caller's variable,
    of which only [value] is reset. *)
Definition getMinimumEntry (best : Position) (m : UPGMA_Matrix)
  : result (Position * UPGMA_Matrix) :=
  m <- getRowMinima m ;;
  let best := set_value best infiniteDistance in
  best <- for_loop 0 (row_count m) (minStep (rowMinima m)) best ;;
  Ok (best, m).

(** ** The join operation *)

(** Modelled from the spec: [SquareMatrix::removeRowAndColumn(rowNum)]
    (distancematrix.h is not among the sources) moves the last live column
    into column [rowNum] of every live row, the last live row into row
    [rowNum], and decrements [row_count]. *)
Definition removeRowAndColumn (rowNum : nat) (m : UPGMA_Matrix)
  : result UPGMA_Matrix :=
  last <- last_index A_rows (row_count m) ;;
  M <- for_loop 0 (row_count m)
         (fun r M => x <- mget M r last ;; mset M r rowNum x) (rows m) ;;
  lastRow <- at_ A_rows M last ;;
  M <- store A_rows M rowNum lastRow ;;
  Ok (set_row_count last (set_rows M m)).

(** The body of the loop of [cluster]. *)
Definition clusterStep (a b : nat) (lambda mu : T) (i : nat) (M : Matrix)
  : result Matrix :=
  if negb (i =? a) && negb (i =? b) then
    Dai <- mget M a i ;;
    Dbi <- mget M b i ;;
    let Dci := fadd (fmul lambda Dai) (fmul mu Dbi) in
    M <- mset M a i Dci ;;
    mset M i a Dci
  else Ok M.

(** [UPGMA_Matrix::cluster(a, b)]. *)
Definition cluster (a b : nat) (m : UPGMA_Matrix) : result UPGMA_Matrix :=
  Dba <- mget (rows m) b a ;;
  let aLength := fmul Dba half in
  let bLength := aLength in
  clusterA <- at_ A_rowToCluster (rowToCluster m) a ;;
  cA <- at_ A_clusters (clusters m) clusterA ;;
  clusterB <- at_ A_rowToCluster (rowToCluster m) b ;;
  cB <- at_ A_clusters (clusters m) clusterB ;;
  let aCount := countOfExteriorNodes cA in
  let bCount := countOfExteriorNodes cB in
  let tCount := aCount + bCount in
  let lambda := fdiv (of_count aCount) (of_count tCount) in
  let mu := fsub one lambda in
  _ <- at_ A_rows (rows m) a ;;
  M <- for_loop 0 (row_count m) (clusterStep a b lambda mu) (rows m) ;;
  cs <- addCluster2 clusterA aLength clusterB bLength (clusters m) ;;
  rtc <- store A_rowToCluster (rowToCluster m) a (length cs - 1) ;;
  last <- last_index A_rowToCluster (row_count m) ;;
  x <- at_ A_rowToCluster rtc last ;;
  rtc <- store A_rowToCluster rtc b x ;;
  removeRowAndColumn b (set_rowToCluster rtc (set_clusters cs (set_rows M m))).

(** ** The finishing step *)

(** First loop of [finishClustering]: [weights[i]] is assigned the leaf
    count of row [i] and added to [denominator]. *)
Definition weighStep (m : UPGMA_Matrix) (i : nat) (s : list T * T)
  : result (list T * T) :=
  c <- at_ A_rowToCluster (rowToCluster m) i ;;
  cl <- at_ A_clusters (clusters m) c ;;
  w <- store A_weights (fst s) i (of_count (countOfExteriorNodes cl)) ;;
  wi <- at_ A_weights w i ;;
  Ok (w, fadd (snd s) wi).

(** Second loop: [weights[i] /= 2 * denominator]. *)
Definition normStep (denominator : T) (i : nat) (w : list T) : result (list T) :=
  wi <- at_ A_weights w i ;;
  store A_weights w i (fdiv wi (fmul two denominator)).

(** [UPGMA_Matrix::finishClustering]; [weights] is declared as an empty
    [std::vector<T>] and is never resized. *)
Definition finishClustering (m : UPGMA_Matrix) : result UPGMA_Matrix :=
  if negb ((row_count m =? 2) || (row_count m =? 3)) then Err AssertionFailed
  else
    let weights : list T := [] in
    s <- for_loop 0 (row_count m) (weighStep m) (weights, zero) ;;
    let denominator := snd s in
    weights <- for_loop 0 (row_count m) (normStep denominator) (fst s) ;;
    c0 <- at_ A_rowToCluster (rowToCluster m) 0 ;;
    c1 <- at_ A_rowToCluster (rowToCluster m) 1 ;;
    w0 <- at_ A_weights weights 0 ;;
    w1 <- at_ A_weights weights 1 ;;
    D01 <- mget (rows m) 0 1 ;;
    cs <-
      (if row_count m =? 3 then
         c2 <- at_ A_rowToCluster (rowToCluster m) 2 ;;
         w2 <- at_ A_weights weights 2 ;;
         D02 <- mget (rows m) 0 2 ;;
         D12 <- mget (rows m) 1 2 ;;
         addCluster3 c0 (fadd (fmul w1 D01) (fmul w2 D02))
                     c1 (fadd (fmul w0 D01) (fmul w2 D12))
                     c2 (fadd (fmul w0 D02) (fmul w1 D12))
                     (clusters m)
       else
         addCluster2 c0 (fmul w1 D01) c1 (fmul w0 D01) (clusters m)) ;;
    Ok (set_row_count 0 (set_clusters cs m)).

(** ** Loading *)

(** [UPGMA_Matrix::setSize(rank)].  Modelled from the spec:
    [SquareMatrix::setSize] gives the store [rank] rows of [rank] zeroes. *)
Definition setSize (rank : nat) (m : UPGMA_Matrix) : UPGMA_Matrix :=
  set_rowToCluster (seq 0 rank)
    (set_row_count rank (set_rows (replicate rank (replicate rank zero)) m)).

(** Modelled from the spec: [SquareMatrix::loadDistancesFromFlatArray]
    copies [matrix[row * n + col]] into [rows[row][col]] (the layout is the
    one stated in [loadMatrix]); the array is taken after its conversion to
    [T], and reading past its end is out of bounds. *)
Definition loadDistancesFromFlatArray (matrix : list T) (m : UPGMA_Matrix)
  : result UPGMA_Matrix :=
  let n := row_count m in
  M <- for_loop 0 n
         (fun r M =>
            for_loop 0 n
              (fun c M => v <- at_ A_matrix matrix (r * n + c) ;; mset M r c v)
              M)
         (rows m) ;;
  Ok (set_rows M m).

(** [UPGMA_Matrix::loadMatrix(names, matrix)].  [calculateRowTotals] only
    fills the row totals of [SquareMatrix], which UPGMA never reads. *)
Definition loadMatrix (names : list string) (matrix : list T) (m : UPGMA_Matrix)
  : result (bool * UPGMA_Matrix) :=
  let m := setSize (length names) m in
  let m := set_clusters [] m in
  let m := set_clusters (foldl (fun cs name => addCluster name cs) (clusters m) names) m in
  m <- loadDistancesFromFlatArray matrix m ;;
  Ok (true, m).

(** ** The duplicate-coalescing pass *)

(** [DuplicateTaxa]: the groups of cluster numbers reported by
    [HashRow::identifyDuplicateClusters]. *)
Abbreviation DuplicateTaxa := (list (list nat)) (only parsing).

(** What [joinUpDuplicateClusters] threads through its loops: the
    cluster-to-row map, the matrix, and (as a ghost) the arguments of every
    call of [cluster] so far, oldest first. *)
Record Dup := mkDup {
  cluster_to_row : list Z;
  dup_matrix : UPGMA_Matrix;
  dup_joins : list (nat * nat)
}.

(** An [intptr_t] row number used as a subscript. *)
Definition row_index (z : Z) : result nat :=
  if (z <? 0)%Z then Err (OutOfBounds A_rows) else Ok (Z.to_nat z).

(** The body of the inner [for] loop. *)
Definition pairStep (second_half i : nat) (s : list nat * Dup)
  : result (list nat * Dup) :=
  let vc := fst s in
  let d := snd s in
  let m := dup_matrix d in
  cluster_a <- at_ A_vc vc i ;;
  row_a <- at_ A_cluster_to_row (cluster_to_row d) cluster_a ;;
  cluster_b <- at_ A_vc vc (i + second_half) ;;
  row_b <- at_ A_cluster_to_row (cluster_to_row d) cluster_b ;;
  let cluster_c := length (clusters m) in
  let swapped := (row_b <? row_a)%Z in
  let row_a' := if swapped then row_b else row_a in
  let row_b' := if swapped then row_a else row_b in
  last <- last_index A_rowToCluster (row_count m) ;;
  cluster_x <- at_ A_rowToCluster (rowToCluster m) last ;;
  a <- row_index row_a' ;;
  b <- row_index row_b' ;;
  m <- cluster a b m ;;
  vc <- store A_vc vc i cluster_c ;;
  let c2r := cluster_to_row d ++ [row_a'] in
  c2r <- store A_cluster_to_row c2r cluster_x row_b' ;;
  Ok (vc, mkDup c2r m (dup_joins d ++ [(a, b)])).

(** [for (i = i0; i < i0 + n && 3 < row_count; ++i)]. *)
Fixpoint pairLoop (n i second_half : nat) (s : list nat * Dup)
  : result (list nat * Dup) :=
  match n with
  | O => Ok s
  | S n' =>
      if 3 <? row_count (dup_matrix (snd s)) then
        s' <- pairStep second_half i s ;;
        pairLoop n' (S i) second_half s'
      else Ok s
  end.

(** One pass through the body of the [while] loop: a halving round. *)
Definition halvingRound (s : list nat * Dup) : result (list nat * Dup) :=
  let first_half := length (fst s) / 2 in
  let second_half := length (fst s) - first_half in
  s' <- pairLoop first_half 0 second_half s ;;
  Ok (resize second_half 0 (fst s'), snd s').

(** [while (vc.size() > 1 && 3 < row_count)]. *)
Fixpoint halveLoop (fuel : nat) (s : list nat * Dup) : result (list nat * Dup) :=
  if (1 <? length (fst s)) && (3 <? row_count (dup_matrix (snd s))) then
    match fuel with
    | O => Err OutOfFuel
    | S fuel' => s' <- halvingRound s ;; halveLoop fuel' s'
    end
  else Ok s.

(** Step 4 of [joinUpDuplicateClusters]: the initial cluster-to-row map. *)
Definition initClusterToRow (m : UPGMA_Matrix) : result (list Z) :=
  for_loop 0 (row_count m)
    (fun i c2r =>
       c <- at_ A_rowToCluster (rowToCluster m) i ;;
       store A_cluster_to_row c2r c (Z.of_nat i))
    (replicate (length (clusters m)) notMappedToRow).

(** The body of the loop over [vvc]: [dupes_removed] is a [size_t]. *)
Definition dupSetStep (s : Z * Dup) (vc : list nat) : result (Z * Dup) :=
  let dupes_removed :=
    ((fst s + (Z.of_nat (length vc) - 1)) mod 2 ^ 64)%Z in
  r <- halveLoop (length vc) (vc, snd s) ;;
  Ok (dupes_removed, snd r).

Fixpoint dupSets (vvc : DuplicateTaxa) (s : Z * Dup) : result (Z * Dup) :=
  match vvc with
  | [] => Ok s
  | vc :: rest => s' <- dupSetStep s vc ;; dupSets rest s'
  end.

(** [joinUpDuplicateClusters(vvc, show_progress)]; the progress display is
    not modelled. *)
Definition joinUpDuplicateClusters (vvc : DuplicateTaxa) (m : UPGMA_Matrix)
  : result (Z * Dup) :=
  match vvc with
  | [] => Ok (0%Z, mkDup [] m [])
  | _ =>
      c2r <- initClusterToRow m ;;
      dupSets vvc (0%Z, mkDup c2r m [])
  end.

(** [clusterDuplicates]: the fingerprints and their grouping come from
    hashrow.h, so the grouping [vvc] they produce is an argument. *)
Definition clusterDuplicates (vvc : DuplicateTaxa) (m : UPGMA_Matrix)
  : result (list (nat * nat) * UPGMA_Matrix) :=
  r <- joinUpDuplicateClusters vvc m ;;
  Ok (dup_joins (snd r), dup_matrix (snd r)).

(** ** The agglomeration driver *)

(** [while (degree_of_root < row_count) { getMinimumEntry(best);
    cluster(best.column, best.row); }], with the arguments of the calls of
    [cluster] as a ghost result. *)
Fixpoint joinLoop (fuel degree_of_root : nat) (best : Position) (m : UPGMA_Matrix)
  : result (list (nat * nat) * Position * UPGMA_Matrix) :=
  if degree_of_root <? row_count m then
    match fuel with
    | O => Err OutOfFuel
    | S fuel' =>
        r <- getMinimumEntry best m ;;
        let best := fst r in
        m <- cluster (column best) (row best) (snd r) ;;
        r' <- joinLoop fuel' degree_of_root best m ;;
        Ok ((column best, row best) :: fst (fst r'), snd (fst r'), snd r')
    end
  else Ok ([], best, m).

(** [constructTree] up to, and without, the call of [finishClustering]. *)
Definition joinPhase (vvc : DuplicateTaxa) (m : UPGMA_Matrix)
  : result (list (nat * nat) * list (nat * nat) * UPGMA_Matrix) :=
  r <- clusterDuplicates vvc m ;;
  let m := snd r in
  let best := Position0 in
  let degree_of_root := if isRooted m then 2 else 3 in
  r' <- joinLoop (row_count m) degree_of_root best m ;;
  Ok (fst r, fst (fst r'), snd r').

(** [UPGMA_Matrix::constructTree]. *)
Definition constructTree (vvc : DuplicateTaxa) (m : UPGMA_Matrix)
  : result (bool * UPGMA_Matrix) :=
  r <- joinPhase vvc m ;;
  m <- finishClustering (snd r) ;;
  Ok (true, m).

(** ** The wide-lane scanner *)

Module Vectorized.

(** [VB().size()] for [Vec8fb]. *)
Definition blockSize : nat := 8.

(** [Vec8f]: eight lanes. *)
Abbreviation V := (list T) (only parsing).

(** [V x = c]: every lane holds [c]. *)
Definition broadcast (c : T) : V := replicate blockSize c.

(** [v.load_a(p + col)]. *)
Definition load_a (a : array_id) (p : list T) (col : nat) : result V :=
  if decide (col + blockSize <= length p)
  then Ok (take blockSize (drop col p))
  else Err (OutOfBounds a).

(** [rowVector < minVector], lane by lane. *)
Definition lanes_lt (x y : V) : list bool := zip_with flt x y.

(** [select(mask, x, y)]. *)
Definition select (mask : list bool) (x y : V) : V :=
  zip_with (fun (b : bool) (xy : T * T) => if b then fst xy else snd xy)
           mask (zip x y).

(** [VectorizedUPGMA_Matrix]: the base class and the scratch lane of column
    numbers. *)
Record VectorizedUPGMA_Matrix := mkVectorized {
  base : UPGMA_Matrix;
  scratchColumnNumbers : list T
}.

Section Alignment.

(** [MATRIX_ALIGNMENT / sizeof(T)], and the number of elements that
    [matrixAlign] skips to reach an aligned address; both come from
    distancematrix.h. *)
Variable fluff : nat.
Variable skip : nat.

(** [VectorizedUPGMA_Matrix::calculateRowTotals]: the only place where
    [scratchColumnNumbers] is written. *)
Definition calculateRowTotals (v : VectorizedUPGMA_Matrix) : VectorizedUPGMA_Matrix :=
  mkVectorized (base v)
    (resize (row_count (base v) + fluff) zero (scratchColumnNumbers v)).

(** [for (col = 0; col + blockSize < row; col += blockSize)]; the state is
    [(col, minVector, ixVector)]. *)
Fixpoint blockLoop (fuel : nat) (rowData nums : list T) (row : nat)
    (s : nat * V * V) : result (nat * V * V) :=
  let col := fst (fst s) in
  let minVector := snd (fst s) in
  let ixVector := snd s in
  if col + blockSize <? row then
    match fuel with
    | O => Err OutOfFuel
    | S fuel' =>
        rowVector <- load_a A_rowData rowData col ;;
        let less := lanes_lt rowVector minVector in
        numVector <- load_a A_nums nums col ;;
        let ixVector := select less numVector ixVector in
        let minVector := select less rowVector minVector in
        blockLoop fuel' rowData nums row (col + blockSize, minVector, ixVector)
    end
  else Ok s.

(** The body of the lane-extraction loop. *)
Definition extractStep (minVector ixVector : V) (c : nat) (pos : Position)
  : result Position :=
  mc <- at_ A_rowData minVector c ;;
  if flt mc (value pos) then
    ic <- at_ A_nums ixVector c ;;
    Ok (mkPosition (row pos) (to_size_t ic) mc (imbalance pos))
  else Ok pos.

(** The body of the tail loop. *)
Definition tailStep (rowData : list T) (col : nat) (pos : Position)
  : result Position :=
  dist <- at_ A_rowData rowData col ;;
  Ok (if flt dist (value pos)
      then mkPosition (row pos) col dist (imbalance pos)
      else pos).

(** The body of the outer loop of the override for row [r]. *)
Definition scanRow (m : UPGMA_Matrix) (nums : list T) (r : nat)
    (rm : list Position) : result (list Position) :=
  let pos := mkPosition r 0 infiniteDistance 0 in
  rowData <- at_ A_rows (rows m) r ;;
  s <- blockLoop r rowData nums r
         (0, broadcast infiniteDistance, broadcast minus_one) ;;
  let col := fst (fst s) in
  pos <- for_loop 0 blockSize (extractStep (snd (fst s)) (snd s)) pos ;;
  pos <- for_loop col r (tailStep rowData) pos ;;
  imb <- getImbalance m (row pos) (column pos) ;;
  store A_rowMinima rm r
        (mkPosition (row pos) (column pos) (value pos) imb).

(** [VectorizedUPGMA_Matrix::getRowMinima]. *)
Definition getRowMinima (v : VectorizedUPGMA_Matrix)
  : result VectorizedUPGMA_Matrix :=
  let m := base v in
  let nums := drop skip (scratchColumnNumbers v) in
  let rm := resize (row_count m) Position0 (rowMinima m) in
  p0 <- at_ A_rowMinima rm 0 ;;
  rm <- store A_rowMinima rm 0 (set_value p0 infiniteDistance) ;;
  rm <- for_loop 1 (row_count m) (scanRow m nums) rm ;;
  Ok (mkVectorized (set_rowMinima rm m) (scratchColumnNumbers v)).

End Alignment.

End Vectorized.

(** ** Well-formed states *)

(** The storage covers the live window: at least [row_count] rows, every
    row at least [row_count] long, and every live row mapped to a recorded
    cluster. *)
Record wf (m : UPGMA_Matrix) : Prop := mkWf {
  wf_rows : row_count m <= length (rows m);
  wf_cols : Forall (fun rowData : list T => row_count m <= length rowData) (rows m);
  wf_rowToCluster : row_count m <= length (rowToCluster m);
  wf_clusters : forall r c, r < row_count m -> rowToCluster m !! r = Some c ->
                            c < length (clusters m)
}.

(** What the outer loop of [getRowMinima] stores for row [r]; it depends
    on the matrix only, not on the other entries of [rowMinima]. *)
Definition rowPosition (m : UPGMA_Matrix) (r : nat) : result Position :=
  rowData <- at_ A_rows (rows m) r ;;
  best <- for_loop 0 r (scanStep rowData) (0, infiniteDistance) ;;
  imb <- getImbalance m r (fst best) ;;
  Ok (mkPosition r (fst best) (snd best) imb).

(** [v] is a lower bound of the first [r] entries of [rowData]: none of
    them compares below it. *)
Definition lower_bound (rowData : list T) (r : nat) (v : T) : Prop :=
  forall c x, c < r -> rowData !! c = Some x -> flt x v = false.

(** Some entry among the first [r] lies below the sentinel. *)
Definition has_finite (rowData : list T) (r : nat) : Prop :=
  exists c x, c < r /\ rowData !! c = Some x /\ flt x infiniteDistance = true.

(** The invariant of the inner loop of [getRowMinima] after [j] columns:
    the running value is a lower bound of what was seen, and it is either
    still the sentinel at column 0 or the entry at the running column. *)
Definition scan_inv (rowData : list T) (j : nat) (best : nat * T) : Prop :=
  lower_bound rowData j (snd best)
  /\ ((fst best = 0 /\ snd best = infiniteDistance /\ ~ has_finite rowData j)
      \/ (fst best < j /\ rowData !! fst best = Some (snd best)
          /\ flt (snd best) infiniteDistance = true)).

(** A decidable form of [wf]. *)
Definition wf_check (m : UPGMA_Matrix) : bool :=
  (row_count m <=? length (rows m))
  && forallb (fun rowData : list T => row_count m <=? length rowData) (rows m)
  && (row_count m <=? length (rowToCluster m))
  && forallb (fun c => c <? length (clusters m))
             (take (row_count m) (rowToCluster m)).

(** ** Example inputs *)

(** [UPGMA_Matrix()]. *)
Definition UPGMA_Matrix0 : UPGMA_Matrix := mkUPGMA 0 [] [] [] [] false.

(** The matrix after [loadMatrix(names, matrix)] and [setIsRooted(rooted)]
    on a fresh object. *)
Definition loaded (names : list string) (matrix : list T) (rooted : bool)
  : UPGMA_Matrix :=
  match loadMatrix names matrix UPGMA_Matrix0 with
  | Ok r => snd (setIsRooted rooted (snd r))
  | Err _ => UPGMA_Matrix0
  end.

(** 2e36, a finite value above [infiniteDistance]. *)
Definition far : T := S754_finite false 12621774 97.

(** Three taxa; the distance between the first two is 2e36. *)
Definition ex_far : UPGMA_Matrix :=
  loaded ["A"; "B"; "C"]%string
         [ zero;       far;        of_count 3;
           far;        zero;       of_count 5;
           of_count 3; of_count 5; zero ] false.

(** Four taxa with AB = 1, AD = BD = CD = 2, AC = BC = 4, rooted. *)
Definition ex_tie : UPGMA_Matrix :=
  loaded ["A"; "B"; "C"; "D"]%string
         (of_count <$> [0; 1; 4; 2;  1; 0; 4; 2;  4; 4; 0; 2;  2; 2; 2; 0]) true.

(** Ten taxa with pairwise distinct distances [100 + 10 i + j] between
    taxa [j < i], except that taxa 9 and 3 are at distance 1. *)
Definition dist10 (i j : nat) : T :=
  if i =? j then zero
  else
    let hi := Nat.max i j in
    let lo := Nat.min i j in
    if (hi =? 9) && (lo =? 3) then of_count 1
    else of_count (100 + 10 * hi + lo).

Definition ex_lanes : UPGMA_Matrix :=
  loaded ["t0"; "t1"; "t2"; "t3"; "t4"; "t5"; "t6"; "t7"; "t8"; "t9"]%string
         (i ← seq 0 10; (dist10 i <$> seq 0 10)) false.

(** No two entries of a row left of the diagonal are equal under [==]. *)
Definition no_ties_in_row (rowData : list T) (r : nat) : bool :=
  forallb (fun c1 =>
    forallb (fun c2 =>
      match rowData !! c1, rowData !! c2 with
      | Some x, Some y => (c1 =? c2) || negb (feq x y)
      | _, _ => false
      end) (seq 0 r)) (seq 0 r).

Definition no_ties (m : UPGMA_Matrix) : bool :=
  forallb (fun r =>
    match rows m !! r with
    | Some rowData => no_ties_in_row rowData r
    | None => false
    end) (seq 0 (row_count m)).

(** ** The matrix during a join *)

(** The storage holds at least [n] rows of at least [n] entries. *)
Definition dims (n : nat) (M : Matrix) : Prop :=
  n <= length M /\ Forall (fun rowData : list T => n <= length rowData) M.

(** [lambda * D(a,i) + mu * D(b,i)] on the matrix [M]. *)
Definition joined (lambda mu : T) (M : Matrix) (a b i : nat) : result T :=
  Dai <- mget M a i ;;
  Dbi <- mget M b i ;;
  Ok (fadd (fmul lambda Dai) (fmul mu Dbi)).

(** The entry at [(r, c)] once the loop of [cluster(a, b)] has passed the
    indices below [j], in terms of the matrix [M] it started from. *)
Definition averaged (lambda mu : T) (M : Matrix) (a b j r c : nat) : result T :=
  if decide (r = a /\ c < j /\ c <> a /\ c <> b) then joined lambda mu M a b c
  else if decide (c = a /\ r < j /\ r <> a /\ r <> b) then joined lambda mu M a b r
  else mget M r c.

(** The slot that [removeRowAndColumn(b)] fills slot [x] from, when [last]
    is the last live index. *)
Definition moved (b last x : nat) : nat := if decide (x = b) then last else x.

(** [lambda = (T)aCount / (T)tCount] for the clusters joined by [cluster]. *)
Definition join_lambda (cA cB : Cluster) : T :=
  fdiv (of_count (countOfExteriorNodes cA))
       (of_count (countOfExteriorNodes cA + countOfExteriorNodes cB)).

(** The record that [cluster] appends for the clusters numbered [a] and [b],
    at distance [Dba] in the matrix. *)
Definition parent_record (a : nat) (cA : Cluster) (b : nat) (cB : Cluster)
    (Dba : T) : Cluster :=
  mkCluster (countOfExteriorNodes cA + countOfExteriorNodes cB) EmptyString
            [(a, fmul Dba half); (b, fmul Dba half)].

(** Three taxa with AB = 2, AC = BC = 4, rooted. *)
Definition ex_three : UPGMA_Matrix :=
  loaded ["A"; "B"; "C"]%string
         (of_count <$> [0; 2; 4;  2; 0; 4;  4; 4; 0]) true.

(** 3e36, 4e36 and 6e36. *)
Definition far3 : T := fmul (of_count 3) infiniteDistance.
Definition far4 : T := fmul (of_count 4) infiniteDistance.
Definition far6 : T := fmul (of_count 6) infiniteDistance.

(** Four taxa, unrooted, whose pairwise distances are six different finite
    values between 1e36 and 6e36. *)
Definition ex_all_far : UPGMA_Matrix :=
  loaded ["A"; "B"; "C"; "D"]%string
         [ zero;             infiniteDistance; far;   far3;
           infiniteDistance; zero;             far4;  fmul (of_count 5) infiniteDistance;
           far;              far4;             zero;  far6;
           far3;             fmul (of_count 5) infiniteDistance; far6; zero ]
         false.

(** Two taxa at distance 1. *)
Definition ex_two_names : list string := ["A"; "B"]%string.
Definition ex_two_matrix : list T := [zero; one; one; zero].

(** ** The duplicate-coalescing pass: its bookkeeping *)

(** Cluster [c] occupies a live row. *)
Definition live (m : UPGMA_Matrix) (c : nat) : Prop :=
  exists r, r < row_count m /\ rowToCluster m !! r = Some c.

(** [cluster_to_row] sends the cluster of every live row back to that row
    (step 4 of [joinUpDuplicateClusters] sets this up, step 5 maintains
    it). *)
Definition inverse_map (c2r : list Z) (m : UPGMA_Matrix) : Prop :=
  forall r c, r < row_count m -> rowToCluster m !! r = Some c ->
              c2r !! c = Some (Z.of_nat r).

(** What a halving round relies on: a well-formed matrix, a cluster-to-row
    map with one entry per recorded cluster that inverts [rowToCluster],
    and a duplicate set of different clusters that all occupy live rows. *)
Record dup_ok (s : list nat * Dup) : Prop := mkDupOk {
  dup_wf : wf (dup_matrix (snd s));
  dup_len : length (cluster_to_row (snd s))
            = length (clusters (dup_matrix (snd s)));
  dup_inverse : inverse_map (cluster_to_row (snd s)) (dup_matrix (snd s));
  dup_nodup : NoDup (fst s);
  dup_live : forall x, x ∈ fst s -> live (dup_matrix (snd s)) x
}.

(** Position [p] of the duplicate set is still in play when the inner loop
    is at index [i]: the (rewritten) first half, the odd element, and the
    part of the second half not yet paired. *)
Definition in_play (second_half i p : nat) : Prop :=
  p < second_half \/ i + second_half <= p.

(** The children recorded for cluster [c] are [x] and [y], in either
    order. *)
Definition joins_pair (cs : list Cluster) (c x y : nat) : Prop :=
  exists cl, cs !! c = Some cl
             /\ ((links cl).*1 = [x; y] \/ (links cl).*1 = [y; x]).

(** The invariant of the inner loop at index [i], for a round that began
    in state [s0] with [second_half] as the offset of the partners. *)
Record pair_inv (s0 : list nat * Dup) (second_half i : nat)
    (s : list nat * Dup) : Prop := mkPairInv {
  pi_wf : wf (dup_matrix (snd s));
  pi_len : length (cluster_to_row (snd s))
           = length (clusters (dup_matrix (snd s)));
  pi_inverse : inverse_map (cluster_to_row (snd s)) (dup_matrix (snd s));
  pi_rows : row_count (dup_matrix (snd s)) + i = row_count (dup_matrix (snd s0));
  pi_clusters : exists recs,
      clusters (dup_matrix (snd s)) = clusters (dup_matrix (snd s0)) ++ recs
      /\ length recs = i;
  pi_vc_len : length (fst s) = length (fst s0);
  pi_done : forall p, p < i ->
      fst s !! p = Some (length (clusters (dup_matrix (snd s0))) + p);
  pi_todo : forall p, i <= p -> fst s !! p = fst s0 !! p;
  pi_live : forall p x, in_play second_half i p -> fst s !! p = Some x ->
      live (dup_matrix (snd s)) x;
  pi_nodup : forall p q x, in_play second_half i p -> in_play second_half i q ->
      fst s !! p = Some x -> fst s !! q = Some x -> p = q;
  pi_records : forall p, p < i ->
      exists x y, fst s0 !! p = Some x /\ fst s0 !! (p + second_half) = Some y
                  /\ joins_pair (clusters (dup_matrix (snd s)))
                       (length (clusters (dup_matrix (snd s0))) + p) x y;
  pi_joins : exists tr,
      dup_joins (snd s) = dup_joins (snd s0) ++ tr
      /\ length tr = i /\ Forall (fun ab : nat * nat => fst ab < snd ab) tr
}.

(** A decidable form of [dup_ok]. *)
Definition dup_check (s : list nat * Dup) : bool :=
  let m := dup_matrix (snd s) in
  let c2r := cluster_to_row (snd s) in
  wf_check m
  && (length c2r =? length (clusters m))
  && forallb (fun r =>
       match rowToCluster m !! r with
       | Some c => match c2r !! c with
                   | Some z => (z =? Z.of_nat r)%Z
                   | None => false
                   end
       | None => true
       end) (seq 0 (row_count m))
  && bool_decide (NoDup (fst s))
  && forallb (fun x =>
       existsb (fun r =>
         match rowToCluster m !! r with
         | Some c => c =? x
         | None => false
         end) (seq 0 (row_count m))) (fst s).

(** Four identical taxa: every distance is zero. *)
Definition ex_zero : UPGMA_Matrix :=
  loaded ["A"; "B"; "C"; "D"]%string (replicate 16 zero) false.

(** The duplicate set of all four taxa of [ex_zero], with the
    cluster-to-row map that step 4 builds. *)
Definition ex_dup : list nat * Dup :=
  ([0; 1; 2; 3], mkDup [0; 1; 2; 3]%Z ex_zero []).

(** Six identical taxa and the duplicate set of all of them. *)
Definition ex_zero6 : UPGMA_Matrix :=
  loaded ["A"; "B"; "C"; "D"; "E"; "F"]%string (replicate 36 zero) false.

Definition ex_dup6 : list nat * Dup :=
  ([0; 1; 2; 3; 4; 5], mkDup [0; 1; 2; 3; 4; 5]%Z ex_zero6 []).

(** ** Predicates for the further properties *)

(** The live window of [M] is symmetric around its diagonal (note B of the
    header). *)
Definition symmetric (n : nat) (M : Matrix) : Prop :=
  forall r c, r < n -> c < n -> mget M r c = mget M c r.

(** The number of leaves under cluster [c]; 0 when there is no such
    record. *)
Definition leaf_count (cs : list Cluster) (c : nat) : nat :=
  from_option countOfExteriorNodes 0 (cs !! c).

(** The number of leaves under the clusters of the live rows. *)
Definition total_leaves (m : UPGMA_Matrix) : nat :=
  sum_list (leaf_count (clusters m) <$> take (row_count m) (rowToCluster m)).

(** No cluster occupies two live rows. *)
Definition one_row_each (m : UPGMA_Matrix) : Prop :=
  forall r1 r2 c, r1 < row_count m -> r2 < row_count m ->
    rowToCluster m !! r1 = Some c -> rowToCluster m !! r2 = Some c -> r1 = r2.

(** The storage allotted by [setSize(N)] is all there: [N] rows of [N]
    entries, [N] entries of [rowToCluster], every one of them (live or
    not) the number of a recorded cluster. *)
Record within (N : nat) (m : UPGMA_Matrix) : Prop := mkWithin {
  within_count : row_count m <= N;
  within_dims : dims N (rows m);
  within_map : N <= length (rowToCluster m);
  within_clusters : Forall (fun c => c < length (clusters m)) (rowToCluster m)
}.

(** What the whole coalescing pass relies on: the groups are disjoint sets
    of clusters that occupy live rows. *)
Definition groups_ok (vvc : list (list nat)) (m : UPGMA_Matrix) : Prop :=
  NoDup (concat vvc) /\ forall x, x ∈ concat vvc -> live m x.

(** [dupes_removed] after the loop over [vvc], started from [acc]. *)
Definition dupes_total (vvc : list (list nat)) : Z :=
  (foldr (fun vc acc => (Z.of_nat (length vc) - 1 + acc)%Z) 0%Z vvc mod 2 ^ 64)%Z.

(** Some entry of the live lower triangle lies below the sentinel. *)
Definition joinable (m : UPGMA_Matrix) : Prop :=
  exists r c x, c < r < row_count m /\ mget (rows m) r c = Ok x
                /\ flt x infiniteDistance = true.

(** The invariant of the reduction loop of [getMinimumEntry] before index
    [j]: [b] is a lower bound of the candidates seen, and it is either the
    caller's position with the sentinel value, no candidate seen being
    below the sentinel, or the first of the least candidates seen. *)
Definition min_inv (rm : list Position) (best : Position) (j : nat)
    (b : Position) : Prop :=
  (forall r here, r < j -> rm !! r = Some here ->
                  flt (value here) (value b) = false)
  /\ ((b = set_value best infiniteDistance
       /\ forall r here, r < j -> rm !! r = Some here ->
                         flt (value here) infiniteDistance = false)
      \/ (1 <= row b < j /\ rm !! row b = Some b
          /\ flt (value b) infiniteDistance = true
          /\ forall r here, 1 <= r < row b -> rm !! r = Some here ->
                            flt (value b) (value here) = true)).

(** * Properties *)

(** ** Outcomes and loops *)

Lemma bind_Ok {A B} (m : result A) (k : A -> result B) (b : B) :
  bind m k = Ok b <-> exists a, m = Ok a /\ k a = Ok b.
Proof.
  destruct m as [a|e]; simpl; split.
  - intros H. exists a. auto.
  - intros (a' & Ha & Hk). congruence.
  - discriminate.
  - intros (a' & Ha & _). discriminate.
Qed.

Lemma bind_Err_l {A B} (e : error) (k : A -> result B) :
  bind (Err e) k = Err e.
Proof. reflexivity. Qed.

Lemma at_Ok {A} a (v : list A) i x : at_ a v i = Ok x <-> v !! i = Some x.
Proof.
  unfold at_. destruct (v !! i); split; intros H; congruence.
Qed.

Lemma at_lookup {A} a (v : list A) i x : v !! i = Some x -> at_ a v i = Ok x.
Proof. apply at_Ok. Qed.

Lemma at_lt {A} a (v : list A) i :
  i < length v -> exists x, at_ a v i = Ok x /\ v !! i = Some x.
Proof.
  intros H. destruct (lookup_lt_is_Some_2 v i H) as [x Hx].
  exists x. split; [by apply at_lookup | done].
Qed.

Lemma store_lt {A} a (v : list A) i x :
  i < length v -> store a v i x = Ok (<[i := x]> v).
Proof. intros H. unfold store. by rewrite decide_True. Qed.

Lemma store_Ok {A} a (v v' : list A) i x :
  store a v i x = Ok v' <-> i < length v /\ v' = <[i := x]> v.
Proof.
  unfold store. destruct (decide (i < length v)); split.
  - intros [= <-]. auto.
  - intros [_ ->]. done.
  - discriminate.
  - intros [? _]. lia.
Qed.

Lemma store_nil {A} a i (x : A) : store a [] i x = Err (OutOfBounds a).
Proof. unfold store. rewrite decide_False; [done | simpl; lia]. Qed.

(** Hypotheses [bind m k = Ok b] are split into their two steps. *)
Ltac inv_bind :=
  repeat match goal with
  | H : bind _ _ = Ok _ |- _ =>
      let a := fresh "x" in
      let Ha := fresh "Hx" in
      apply bind_Ok in H; destruct H as (a & Ha & H)
  | H : Ok _ = Ok _ |- _ => injection H as H
  | H : at_ _ _ _ = Ok _ |- _ => apply at_Ok in H
  | H : store _ _ _ _ = Ok _ |- _ =>
      let Hl := fresh "Hlt" in
      apply store_Ok in H; destruct H as [Hl H]
  end.

(** The invariant rule for [for (i = i0; i < i0 + n; ++i)]. *)
Lemma for_range_inv {S} (P : nat -> S -> Prop) n i
    (body : nat -> S -> result S) (s : S) :
  P i s ->
  (forall j t, i <= j < i + n -> P j t ->
     exists t', body j t = Ok t' /\ P (Datatypes.S j) t') ->
  exists s', for_range n i body s = Ok s' /\ P (i + n) s'.
Proof.
  revert i s. induction n as [|n IH]; intros i s HP Hstep; simpl.
  - exists s. rewrite Nat.add_0_r. auto.
  - destruct (Hstep i s) as (t & Hb & HP'); [lia | done |].
    rewrite Hb. simpl.
    destruct (IH (Datatypes.S i) t HP') as (s' & Hr & HP'').
    { intros j u Hj. apply Hstep. lia. }
    exists s'. split; [done |].
    by replace (i + Datatypes.S n) with (Datatypes.S i + n) by lia.
Qed.

Lemma for_loop_inv {S} (P : nat -> S -> Prop) lo hi
    (body : nat -> S -> result S) (s : S) :
  lo <= hi ->
  P lo s ->
  (forall j t, lo <= j < hi -> P j t ->
     exists t', body j t = Ok t' /\ P (Datatypes.S j) t') ->
  exists s', for_loop lo hi body s = Ok s' /\ P hi s'.
Proof.
  intros Hle HP Hstep. unfold for_loop.
  destruct (for_range_inv P (hi - lo) lo body s HP) as (s' & Hr & HP').
  { intros j t Hj. apply Hstep. lia. }
  exists s'. split; [done |]. by replace hi with (lo + (hi - lo)) by lia.
Qed.

(** A loop that returns [Ok] has run its body at every index in turn. *)
Lemma for_range_Ok_inv {S} (P : nat -> S -> Prop) n i
    (body : nat -> S -> result S) (s s' : S) :
  for_range n i body s = Ok s' ->
  P i s ->
  (forall j t t', i <= j < i + n -> P j t -> body j t = Ok t' ->
     P (Datatypes.S j) t') ->
  P (i + n) s'.
Proof.
  revert i s. induction n as [|n IH]; intros i s Hr HP Hstep; simpl in Hr.
  - injection Hr as <-. by rewrite Nat.add_0_r.
  - apply bind_Ok in Hr as (t & Hb & Hr).
    replace (i + Datatypes.S n) with (Datatypes.S i + n) by lia.
    apply (IH (Datatypes.S i) t Hr).
    + apply (Hstep i s t); [lia | done | done].
    + intros j u u' Hj. apply Hstep. lia.
Qed.

Lemma for_loop_Ok_inv {S} (P : nat -> S -> Prop) lo hi
    (body : nat -> S -> result S) (s s' : S) :
  lo <= hi ->
  for_loop lo hi body s = Ok s' ->
  P lo s ->
  (forall j t t', lo <= j < hi -> P j t -> body j t = Ok t' ->
     P (Datatypes.S j) t') ->
  P hi s'.
Proof.
  intros Hle Hr HP Hstep. unfold for_loop in Hr.
  replace hi with (lo + (hi - lo)) by lia.
  apply (for_range_Ok_inv P _ _ body s s' Hr HP).
  intros j t t' Hj. apply Hstep. lia.
Qed.

(** ** The finishing step never returns *)

Lemma weighStep_nil m i d : exists e, weighStep m i ([], d) = Err e.
Proof.
  unfold weighStep. simpl.
  destruct (at_ A_rowToCluster (rowToCluster m) i) as [c|e]; simpl; [|eauto].
  destruct (at_ A_clusters (clusters m) c) as [cl|e]; simpl; eauto.
Qed.

Lemma finishClustering_never_Ok m : exists e, finishClustering m = Err e.
Proof.
  unfold finishClustering.
  destruct (negb _) eqn:Hn; [eauto |].
  assert (exists k, row_count m = S k) as [k Hk].
  { destruct (row_count m); [discriminate | eauto]. }
  rewrite Hk. unfold for_loop. simpl.
  destruct (weighStep_nil m 0 zero) as [e He]. rewrite He. simpl. eauto.
Qed.

(** C4.  Entered with two or three live rows whose first row is mapped to a
    recorded cluster, [finishClustering] stops at its first statement
    [weights[0] = ...]: the subscript 0 is outside the empty vector
    [weights]. *)
Theorem finishClustering_weights_out_of_bounds m c cl :
  row_count m = 2 \/ row_count m = 3 ->
  rowToCluster m !! 0 = Some c ->
  clusters m !! c = Some cl ->
  finishClustering m = Err (OutOfBounds A_weights).
Proof.
  intros Hn Hc Hcl. unfold finishClustering.
  assert (exists k, row_count m = S k) as [k Hk].
  { destruct Hn as [-> | ->]; eauto. }
  replace (negb _) with false by (destruct Hn as [-> | ->]; reflexivity).
  rewrite Hk. unfold for_loop. simpl. unfold weighStep. simpl.
  rewrite (at_lookup _ _ _ _ Hc). simpl.
  rewrite (at_lookup _ _ _ _ Hcl). simpl.
  reflexivity.
Qed.

(** The three taxa of [ex_far], which enter the finishing step at once. *)
Lemma finishClustering_weights_out_of_bounds_witness :
  finishClustering ex_far = Err (OutOfBounds A_weights).
Proof.
  apply (finishClustering_weights_out_of_bounds ex_far 0 (mkCluster 1 "A" [])).
  - right. reflexivity.
  - reflexivity.
  - reflexivity.
Defined.


(** ** Order of single-precision values *)

Lemma flt_irrefl x : flt x x = false.
Proof.
  unfold flt, SFltb. destruct x as [s|s| |s m e]; simpl; try done.
  - by destruct s.
  - destruct s; rewrite Z.compare_refl;
      change (PosDef.Pos.compare_cont Eq m m) with (Pos.compare m m);
      by rewrite Pos.compare_refl.
Qed.

Lemma flt_trans x y z : flt x y = true -> flt y z = true -> flt x z = true.
Proof.
  unfold flt, SFltb.
  destruct x as [sx|sx| |sx mx ex], y as [sy|sy| |sy my ey],
           z as [sz|sz| |sz mz ez]; simpl; try discriminate;
    try (destruct sx; try discriminate); try (destruct sy; try discriminate);
    try (destruct sz; try discriminate); simpl; try done.
  all: change (PosDef.Pos.compare_cont Eq ?a ?b) with (Pos.compare a b).
  all: destruct (Z.compare_spec ex ey), (Z.compare_spec ey ez),
         (Z.compare_spec ex ez); try discriminate; try lia; try done; subst.
  all: destruct (Pos.compare_spec mx my), (Pos.compare_spec my mz),
         (Pos.compare_spec mx mz); simpl; try discriminate; try lia; try done.
Qed.

Lemma flt_lower x y z : flt x y = true -> flt z y = false -> flt z x = false.
Proof.
  intros Hxy Hzy. destruct (flt z x) eqn:Hzx; [|done].
  by rewrite (flt_trans z x y Hzx Hxy) in Hzy.
Qed.

(** ** The scalar scanner *)

Lemma wf_row m r :
  wf m -> r < row_count m ->
  exists rowData, rows m !! r = Some rowData /\ row_count m <= length rowData.
Proof.
  intros [Hr Hc _ _] Hlt.
  destruct (lookup_lt_is_Some_2 (rows m) r) as [rowData Hrow]; [lia |].
  exists rowData. split; [done |].
  by apply (Forall_lookup_1 _ _ _ _ Hc Hrow).
Qed.

Lemma wf_cluster m r :
  wf m -> r < row_count m ->
  exists c cl, rowToCluster m !! r = Some c /\ clusters m !! c = Some cl.
Proof.
  intros [_ _ Hr Hc] Hlt.
  destruct (lookup_lt_is_Some_2 (rowToCluster m) r) as [c Hrc]; [lia |].
  destruct (lookup_lt_is_Some_2 (clusters m) c) as [cl Hcl]; [by eapply Hc |].
  eauto.
Qed.

Lemma getImbalance_Ok m a b :
  wf m -> a < row_count m -> b < row_count m ->
  exists k, getImbalance m a b = Ok k.
Proof.
  intros Hwf Ha Hb. unfold getImbalance.
  destruct (wf_cluster m a Hwf Ha) as (ca & cla & Hca & Hcla).
  destruct (wf_cluster m b Hwf Hb) as (cb & clb & Hcb & Hclb).
  rewrite (at_lookup _ _ _ _ Hca), (at_lookup _ _ _ _ Hcb). simpl.
  rewrite (at_lookup _ _ _ _ Hcla), (at_lookup _ _ _ _ Hclb). simpl.
  eauto.
Qed.

Lemma scanStep_inv rowData j best :
  j < length rowData -> scan_inv rowData j best ->
  exists best', scanStep rowData j best = Ok best' /\ scan_inv rowData (S j) best'.
Proof.
  intros Hj [Hlb Hcase]. unfold scanStep.
  destruct (at_lt A_rowData rowData j Hj) as (v & Hat & Hv). rewrite Hat. simpl.
  destruct (flt v (snd best)) eqn:Hlt; eexists; (split; [reflexivity |]).
  - split; simpl.
    + intros c x Hc Hx. destruct (decide (c = j)) as [-> | Hne].
      * rewrite Hv in Hx. injection Hx as <-. apply flt_irrefl.
      * apply (flt_lower v (snd best)); [done |]. apply (Hlb c); [lia | done].
    + right. split; [lia |]. split; [done |].
      destruct Hcase as [(_ & Hinf & _) | (_ & _ & Hb)].
      * by rewrite Hinf in Hlt.
      * by apply (flt_trans v (snd best)).
  - split.
    + intros c x Hc Hx. destruct (decide (c = j)) as [-> | Hne].
      * rewrite Hv in Hx. by injection Hx as <-.
      * apply (Hlb c); [lia | done].
    + destruct Hcase as [(H0 & Hinf & Hnone) | (Hc & Hb & Hfin)].
      * left. split; [done |]. split; [done |].
        intros (c & x & Hc & Hx & Hfin). destruct (decide (c = j)) as [-> | Hne].
        -- rewrite Hv in Hx. injection Hx as <-. rewrite Hinf in Hlt. congruence.
        -- apply Hnone. exists c, x. split; [lia | done].
      * right. split; [lia | done].
Qed.

Lemma scan_Ok rowData r :
  r <= length rowData ->
  exists best, for_loop 0 r (scanStep rowData) (0, infiniteDistance) = Ok best
               /\ scan_inv rowData r best.
Proof.
  intros Hr. apply (for_loop_inv (scan_inv rowData)); [lia | |].
  - split; simpl.
    + intros c x Hc. lia.
    + left. split; [done |]. split; [done |]. intros (c & x & Hc & _). lia.
  - intros j t Hj Hinv. apply scanStep_inv; [lia | done].
Qed.

Lemma rowPosition_Ok m r :
  wf m -> 1 <= r < row_count m ->
  exists p rowData,
    rowPosition m r = Ok p /\ rows m !! r = Some rowData
    /\ row p = r /\ column p < r
    /\ getImbalance m r (column p) = Ok (imbalance p)
    /\ scan_inv rowData r (column p, value p).
Proof.
  intros Hwf Hr. unfold rowPosition.
  destruct (wf_row m r Hwf) as (rowData & Hrow & Hlen); [lia |].
  rewrite (at_lookup _ _ _ _ Hrow). simpl.
  destruct (scan_Ok rowData r) as ([bc bv] & Hscan & Hinv); [lia |].
  rewrite Hscan. simpl.
  assert (bc < r) as Hbc.
  { destruct Hinv as [_ [(H0 & _) | (Hc & _)]]; simpl in *; lia. }
  destruct (getImbalance_Ok m r bc Hwf) as [k Hk]; [lia | lia |].
  rewrite Hk. simpl. eexists _, rowData. split; [reflexivity |]. simpl. auto.
Qed.

Lemma scanRow_rowPosition m r rm :
  scanRow m r rm = (p <- rowPosition m r ;; store A_rowMinima rm r p).
Proof.
  unfold scanRow, rowPosition.
  destruct (at_ A_rows (rows m) r); simpl; [|done].
  destruct (for_loop 0 r _ _); simpl; [|done].
  destruct (getImbalance m r _); simpl; done.
Qed.

(** What [getRowMinima] leaves in [rowMinima]. *)
Lemma getRowMinima_Ok m :
  wf m -> 1 <= row_count m ->
  exists rm p0,
    getRowMinima m = Ok (set_rowMinima rm m)
    /\ length rm = row_count m
    /\ rm !! 0 = Some p0 /\ value p0 = infiniteDistance
    /\ forall r, 1 <= r < row_count m ->
         exists p, rowPosition m r = Ok p /\ rm !! r = Some p.
Proof.
  intros Hwf Hn. unfold getRowMinima.
  set (rm0 := resize (row_count m) Position0 (rowMinima m)).
  assert (length rm0 = row_count m) as Hlen0 by apply length_resize.
  destruct (at_lt A_rowMinima rm0 0) as (q0 & Hat & Hq0); [lia |].
  rewrite Hat. simpl. rewrite store_lt by lia. simpl.
  set (rm1 := <[0 := set_value q0 infiniteDistance]> rm0).
  destruct (for_loop_inv
    (fun j rm => length rm = row_count m
                 /\ rm !! 0 = Some (set_value q0 infiniteDistance)
                 /\ forall r, 1 <= r < j ->
                      exists p, rowPosition m r = Ok p /\ rm !! r = Some p)
    1 (row_count m) (scanRow m) rm1) as (rm & Hloop & Hlen & H0 & Hall).
  - lia.
  - unfold rm1. split; [by rewrite length_insert |]. split.
    + apply list_lookup_insert_eq. lia.
    + intros r Hr. lia.
  - intros j t Hj (Hlen & H0 & Hall).
    destruct (rowPosition_Ok m j Hwf Hj) as (p & rowData & Hp & _).
    rewrite scanRow_rowPosition, Hp. simpl. rewrite store_lt by lia.
    eexists. split; [reflexivity |]. split; [by rewrite length_insert |]. split.
    + rewrite list_lookup_insert_ne by lia. done.
    + intros r Hr. destruct (decide (r = j)) as [-> | Hne].
      * exists p. split; [done |]. apply list_lookup_insert_eq. lia.
      * destruct (Hall r) as (p' & Hp' & Hl); [lia |].
        exists p'. split; [done |]. by rewrite list_lookup_insert_ne.
  - rewrite Hloop. simpl. exists rm, (set_value q0 infiniteDistance). auto.
Qed.

Lemma wf_check_sound m : wf_check m = true -> wf m.
Proof.
  unfold wf_check. rewrite !andb_true_iff.
  intros [[[H1 H2] H3] H4].
  apply Nat.leb_le in H1. apply Nat.leb_le in H3.
  rewrite forallb_forall in H2. rewrite forallb_forall in H4.
  split; [done | | done |].
  - apply Forall_forall. intros x Hx. apply Nat.leb_le, H2.
    by apply list_elem_of_In.
  - intros r c Hr Hc. apply Nat.ltb_lt, H4, list_elem_of_In.
    apply list_elem_of_lookup. exists r. by rewrite lookup_take_lt.
Qed.

Lemma minStep_sentinel rm p0 best :
  rm !! 0 = Some p0 -> value p0 = infiniteDistance ->
  value best = infiniteDistance ->
  minStep rm 0 best = Ok best.
Proof.
  intros H0 Hv Hb. unfold minStep. rewrite (at_lookup _ _ _ _ H0). simpl.
  by rewrite Hv, Hb, flt_irrefl.
Qed.

(** C7, as the code has it.  After [getRowMinima] on a well-formed matrix,
    for every row [r] in [1, row_count): [rowMinima[r]] holds row [r], a
    column [c < r], a value that no entry of row [r] left of the diagonal
    compares below, and the imbalance of [(r, c)]; when some of those
    entries lies below [infiniteDistance] the value is the entry at [c],
    and when none does the entry is [(r, 0, infiniteDistance)].
    [rowMinima[0]] carries the value [infiniteDistance], and the first
    step of the reduction of [getMinimumEntry] leaves [best] as it is. *)
Theorem getRowMinima_row_minimum m r :
  wf m -> 1 <= r < row_count m ->
  exists rm p p0 rowData,
    getRowMinima m = Ok (set_rowMinima rm m)
    /\ rows m !! r = Some rowData /\ rm !! r = Some p
    /\ row p = r /\ column p < r
    /\ getImbalance m r (column p) = Ok (imbalance p)
    /\ lower_bound rowData r (value p)
    /\ (has_finite rowData r -> rowData !! column p = Some (value p))
    /\ (~ has_finite rowData r -> column p = 0 /\ value p = infiniteDistance)
    /\ rm !! 0 = Some p0 /\ value p0 = infiniteDistance
    /\ forall best, minStep rm 0 (set_value best infiniteDistance)
                    = Ok (set_value best infiniteDistance).
Proof.
  intros Hwf Hr.
  destruct (getRowMinima_Ok m Hwf) as (rm & p0 & Hget & Hlen & H0 & Hv0 & Hall);
    [lia |].
  destruct (Hall r Hr) as (p & Hp & Hrm).
  destruct (rowPosition_Ok m r Hwf Hr)
    as (p' & rowData & Hp' & Hrow & Hrp & Hcp & Himb & Hlb & Hcase).
  rewrite Hp in Hp'. injection Hp' as <-. simpl in *.
  exists rm, p, p0, rowData. repeat (split; [done |]).
  split; [|split; [|repeat (split; [done |])]].
  - intros Hfin. destruct Hcase as [(_ & _ & Hnone) | (_ & Hat & _)]; done.
  - intros Hnone. destruct Hcase as [(Hc & Hv & _) | (Hc & Hat & Hfin)]; [done |].
    destruct Hnone. exists (column p), (value p). auto.
  - intros best. by apply (minStep_sentinel rm p0).
Qed.

Lemma getRowMinima_row_minimum_witness :
  exists rm p p0 rowData,
    getRowMinima ex_tie = Ok (set_rowMinima rm ex_tie)
    /\ rows ex_tie !! 3 = Some rowData /\ rm !! 3 = Some p
    /\ row p = 3 /\ column p < 3
    /\ getImbalance ex_tie 3 (column p) = Ok (imbalance p)
    /\ lower_bound rowData 3 (value p)
    /\ (has_finite rowData 3 -> rowData !! column p = Some (value p))
    /\ (~ has_finite rowData 3 -> column p = 0 /\ value p = infiniteDistance)
    /\ rm !! 0 = Some p0 /\ value p0 = infiniteDistance
    /\ forall best, minStep rm 0 (set_value best infiniteDistance)
                    = Ok (set_value best infiniteDistance).
Proof.
  apply (getRowMinima_row_minimum ex_tie 3).
  - apply wf_check_sound. vm_compute. reflexivity.
  - vm_compute. lia.
Defined.

(** C7, as stated, fails when no entry of the row lies below the sentinel:
    row 1 of [ex_far] has the single entry 2e36 left of the diagonal, and
    the value stored in [rowMinima[1]] is [infiniteDistance], which is not
    an entry of that row. *)
Lemma getRowMinima_value_not_an_entry :
  exists m' p,
    getRowMinima ex_far = Ok m'
    /\ rowMinima m' !! 1 = Some p
    /\ mget (rows ex_far) 1 0 = Ok far
    /\ value p = infiniteDistance
    /\ value p <> far
    /\ flt (value p) far = true.
Proof.
  eexists _, _. split; [vm_compute; reflexivity |].
  split; [vm_compute; reflexivity |].
  split; [vm_compute; reflexivity |].
  split; [reflexivity |]. split; [discriminate | reflexivity].
Qed.

(** ** The global reduction *)

(** A candidate whose value is the one [best] already has never replaces
    it, whatever the two imbalances are. *)
Lemma minStep_tie rm r here best :
  rm !! r = Some here -> value here = value best ->
  minStep rm r best = Ok best.
Proof.
  intros Hr Hv. unfold minStep. rewrite (at_lookup _ _ _ _ Hr). cbn [bind].
  by rewrite Hv, flt_irrefl.
Qed.

(** C1 at a failing input.  In the second round of the construction for
    [ex_tie] the candidates of rows 1 and 2 have the same value 2 and the
    imbalances 1 and 0; [getMinimumEntry] returns the candidate of row 1,
    although the one of row 2 is below it in the order of [Position]. *)
Theorem getMinimumEntry_ignores_imbalance :
  exists best1 m0 m1 best2 m2 other,
    getMinimumEntry Position0 ex_tie = Ok (best1, m0)
    /\ cluster (column best1) (row best1) m0 = Ok m1
    /\ getMinimumEntry best1 m1 = Ok (best2, m2)
    /\ best2 = mkPosition 1 0 two 1
    /\ rowMinima m2 !! 2 = Some other
    /\ other = mkPosition 2 1 two 0
    /\ Position_lt other best2 = true.
Proof.
  eexists _, _, _, _, _, _.
  split; [vm_compute; reflexivity |].
  split; [vm_compute; reflexivity |].
  split; [vm_compute; reflexivity |].
  split; [reflexivity |].
  split; [vm_compute; reflexivity |].
  split; reflexivity.
Qed.

(** ** The two scanners *)

(** C3 at a failing input.  [ex_lanes] has no ties; in its row 9 the least
    entry left of the diagonal is at column 3.  The scalar scanner stores
    column 3, the wide-lane scanner stores column 0 with the same value:
    the lane of column numbers is read from [scratchColumnNumbers], which
    holds nothing but the zeroes written by [calculateRowTotals]. *)
Theorem scanners_disagree_on_column fluff skip :
  skip <= fluff ->
  no_ties ex_lanes = true
  /\ exists ms mv ps pv,
       getRowMinima ex_lanes = Ok ms
       /\ Vectorized.getRowMinima skip
            (Vectorized.calculateRowTotals fluff
               (Vectorized.mkVectorized ex_lanes [])) = Ok mv
       /\ rowMinima ms !! 9 = Some ps
       /\ rowMinima (Vectorized.base mv) !! 9 = Some pv
       /\ (row ps, column ps, value ps) = (9, 3, of_count 1)
       /\ (row pv, column pv, value pv) = (9, 0, of_count 1).
Proof.
  intros Hskip. split; [vm_compute; reflexivity |].
  unfold Vectorized.getRowMinima, Vectorized.calculateRowTotals.
  cbn [Vectorized.base Vectorized.scratchColumnNumbers].
  assert (exists rest,
    drop skip (resize (row_count ex_lanes + fluff) zero [])
    = replicate 8 zero ++ rest) as [rest ->].
  { exists (replicate (2 + fluff - skip) zero).
    rewrite resize_nil, drop_replicate, <- replicate_add. f_equal.
    change (row_count ex_lanes) with 10. lia. }
  eexists _, _, _, _.
  split; [vm_compute; reflexivity |].
  split; [vm_compute; reflexivity |].
  split; [vm_compute; reflexivity |].
  split; [vm_compute; reflexivity |].
  split; vm_compute; reflexivity.
Qed.

Lemma scanners_disagree_on_column_witness :
  no_ties ex_lanes = true
  /\ exists ms mv ps pv,
       getRowMinima ex_lanes = Ok ms
       /\ Vectorized.getRowMinima 0
            (Vectorized.calculateRowTotals 16
               (Vectorized.mkVectorized ex_lanes [])) = Ok mv
       /\ rowMinima ms !! 9 = Some ps
       /\ rowMinima (Vectorized.base mv) !! 9 = Some pv
       /\ (row ps, column ps, value ps) = (9, 3, of_count 1)
       /\ (row pv, column pv, value pv) = (9, 0, of_count 1).
Proof.
  apply (scanners_disagree_on_column 16 0). lia.
Defined.

(** ** Reading and writing the matrix *)

Lemma wf_dims m : wf m -> dims (row_count m) (rows m).
Proof. intros [H1 H2 _ _]. by split. Qed.

Lemma dims_row n M r :
  dims n M -> r < n -> exists rowData, M !! r = Some rowData /\ n <= length rowData.
Proof.
  intros [Hr Hc] Hlt.
  destruct (lookup_lt_is_Some_2 M r) as [rowData Hrow]; [lia |].
  exists rowData. split; [done |]. by apply (Forall_lookup_1 _ _ _ _ Hc Hrow).
Qed.

Lemma mget_Ok n M r c :
  dims n M -> r < n -> c < n -> exists v, mget M r c = Ok v.
Proof.
  intros Hd Hr Hc. destruct (dims_row n M r Hd Hr) as (rowData & Hrow & Hlen).
  unfold mget. rewrite (at_lookup _ _ _ _ Hrow). simpl.
  destruct (at_lt A_rowData rowData c) as (v & Hv & _); [lia |]. eauto.
Qed.

Lemma mset_Ok n M r c v :
  dims n M -> r < n -> c < n ->
  exists M', mset M r c v = Ok M' /\ dims n M'
             /\ forall r' c', mget M' r' c'
                  = if decide (r' = r /\ c' = c) then Ok v else mget M r' c'.
Proof.
  intros Hd Hr Hc. destruct (dims_row n M r Hd Hr) as (rowData & Hrow & Hlen).
  destruct Hd as [Hd1 Hd2].
  unfold mset. rewrite (at_lookup _ _ _ _ Hrow). simpl.
  rewrite store_lt by lia. simpl. rewrite store_lt by lia.
  eexists. split; [reflexivity |]. split; [split |].
  - by rewrite length_insert.
  - apply Forall_insert; [done |]. by rewrite length_insert.
  - intros r' c'. unfold mget, at_.
    destruct (decide (r' = r)) as [-> | Hne].
    + rewrite list_lookup_insert_eq by lia. rewrite Hrow. simpl. unfold at_.
      destruct (decide (c' = c)) as [-> | Hnc].
      * rewrite list_lookup_insert_eq by lia. by rewrite decide_True.
      * rewrite list_lookup_insert_ne by done.
        rewrite decide_False; [done | intros [_ ?]; done].
    + rewrite list_lookup_insert_ne by done.
      rewrite decide_False; [done | intros [? _]; done].
Qed.

Lemma store_row_Ok n (M : Matrix) r rowData :
  dims n M -> r < n -> n <= length rowData ->
  exists M', store A_rows M r rowData = Ok M' /\ dims n M'
             /\ forall r' c', mget M' r' c'
                  = if decide (r' = r) then at_ A_rowData rowData c'
                    else mget M r' c'.
Proof.
  intros [Hd1 Hd2] Hr Hlen. rewrite store_lt by lia.
  eexists. split; [reflexivity |]. split; [split |].
  - by rewrite length_insert.
  - by apply Forall_insert.
  - intros r' c'. unfold mget, at_ at 1. destruct (decide (r' = r)) as [-> | Hne].
    + by rewrite list_lookup_insert_eq by lia.
    + by rewrite list_lookup_insert_ne by done.
Qed.

(** ** The join operation *)

(** Case analysis on the index tests of [averaged] and [moved]. *)
Ltac index_cases :=
  repeat case_decide; try done;
  repeat match goal with H : _ /\ _ |- _ => destruct H end;
  subst; try done; try lia;
  try match goal with H : ~ _ |- _ => exfalso; apply H; lia end.

Lemma clusterStep_inv n M0 a b lambda mu j M :
  dims n M0 -> a < n -> b < n -> j < n ->
  dims n M ->
  (forall r c, mget M r c = averaged lambda mu M0 a b j r c) ->
  exists M', clusterStep a b lambda mu j M = Ok M' /\ dims n M'
    /\ forall r c, mget M' r c = averaged lambda mu M0 a b (S j) r c.
Proof.
  intros Hd0 Ha Hb Hj Hd Hinv. unfold clusterStep.
  destruct (negb (j =? a) && negb (j =? b)) eqn:Hcond.
  - apply andb_true_iff in Hcond as [Hja Hjb].
    apply negb_true_iff, Nat.eqb_neq in Hja.
    apply negb_true_iff, Nat.eqb_neq in Hjb.
    destruct (mget_Ok n M0 a j Hd0 Ha Hj) as [Dai HDai].
    destruct (mget_Ok n M0 b j Hd0 Hb Hj) as [Dbi HDbi].
    assert (mget M a j = Ok Dai) as ->.
    { rewrite Hinv. unfold averaged.
      rewrite decide_False by lia. by rewrite decide_False by lia. }
    simpl.
    assert (mget M b j = Ok Dbi) as ->.
    { rewrite Hinv. unfold averaged.
      rewrite decide_False by lia. by rewrite decide_False by lia. }
    simpl.
    set (Dci := fadd (fmul lambda Dai) (fmul mu Dbi)).
    assert (joined lambda mu M0 a b j = Ok Dci) as Hjoin.
    { unfold joined. by rewrite HDai, HDbi. }
    destruct (mset_Ok n M a j Dci Hd Ha Hj) as (M1 & -> & Hd1 & Hget1). simpl.
    destruct (mset_Ok n M1 j a Dci Hd1 Hj Ha) as (M2 & -> & Hd2 & Hget2).
    exists M2. split; [done |]. split; [done |].
    intros r c. rewrite Hget2, Hget1, Hinv. unfold averaged.
    index_cases.
  - exists M. split; [done |]. split; [done |].
    intros r c. rewrite Hinv. unfold averaged.
    apply andb_false_iff in Hcond.
    assert (j = a \/ j = b) as Hjab.
    { destruct Hcond as [H | H]; apply negb_false_iff, Nat.eqb_eq in H; auto. }
    index_cases.
Qed.

Lemma cluster_loop_Ok n M0 a b lambda mu :
  dims n M0 -> a < n -> b < n ->
  exists M, for_loop 0 n (clusterStep a b lambda mu) M0 = Ok M /\ dims n M
    /\ forall r c, mget M r c = averaged lambda mu M0 a b n r c.
Proof.
  intros Hd0 Ha Hb.
  apply (for_loop_inv
    (fun j M => dims n M
       /\ forall r c, mget M r c = averaged lambda mu M0 a b j r c)).
  - lia.
  - split; [done |]. intros r c. unfold averaged.
    rewrite decide_False by lia. by rewrite decide_False by lia.
  - intros j M Hj [Hd Hinv].
    apply (clusterStep_inv n M0); [done | done | done | lia | done | done].
Qed.

Lemma removeRowAndColumn_Ok m b :
  dims (row_count m) (rows m) -> b < row_count m ->
  exists M,
    removeRowAndColumn b m = Ok (set_row_count (row_count m - 1) (set_rows M m))
    /\ dims (row_count m) M
    /\ forall r c, r < row_count m -> c < row_count m ->
         mget M r c
         = mget (rows m) (moved b (row_count m - 1) r) (moved b (row_count m - 1) c).
Proof.
  intros Hd Hb. unfold removeRowAndColumn.
  destruct (row_count m) as [|last] eqn:Hn; [lia |].
  simpl. rewrite Nat.sub_0_r.
  destruct (for_loop_inv
    (fun j M => dims (S last) M
       /\ forall r c, mget M r c
            = if decide (r < j /\ c = b) then mget (rows m) r last
              else mget (rows m) r c)
    0 (S last)
    (fun r M => x <- mget M r last ;; mset M r b x) (rows m))
    as (M1 & Hloop & Hd1 & Hget1).
  - lia.
  - split; [done |]. intros r c. by rewrite decide_False by lia.
  - intros j M Hj [HdM Hinv].
    destruct (mget_Ok (S last) (rows m) j last Hd) as [x Hx]; [lia | lia |].
    assert (mget M j last = Ok x) as ->.
    { rewrite Hinv. by rewrite decide_False by lia. }
    simpl.
    destruct (mset_Ok (S last) M j b x HdM) as (M' & -> & Hd' & Hget');
      [lia | lia |].
    exists M'. split; [done |]. split; [done |].
    intros r c. rewrite Hget', Hinv.
    index_cases.
  - rewrite Hloop. simpl.
    destruct (dims_row (S last) M1 last Hd1) as (lastRow & HlastRow & Hlen);
      [lia |].
    rewrite (at_lookup _ _ _ _ HlastRow). simpl.
    destruct (store_row_Ok (S last) M1 b lastRow Hd1 Hb Hlen)
      as (M2 & -> & Hd2 & Hget2).
    simpl. exists M2. split; [done |]. split; [done |].
    intros r c Hr Hc. rewrite Hget2. unfold moved.
    destruct (decide (r = b)) as [-> | Hrb].
    + transitivity (mget M1 last c).
      { unfold mget. by rewrite (at_lookup _ _ _ _ HlastRow). }
      rewrite Hget1. index_cases.
    + rewrite Hget1. index_cases.
Qed.

Lemma cluster_Ok m a b :
  wf m -> a < row_count m -> b < row_count m ->
  exists cA clA cB clB Dba x M M',
    rowToCluster m !! a = Some cA /\ clusters m !! cA = Some clA
    /\ rowToCluster m !! b = Some cB /\ clusters m !! cB = Some clB
    /\ mget (rows m) b a = Ok Dba
    /\ <[a := length (clusters m)]> (rowToCluster m) !! (row_count m - 1) = Some x
    /\ dims (row_count m) M'
    /\ (forall r c, mget M r c
          = averaged (join_lambda clA clB) (fsub one (join_lambda clA clB))
                     (rows m) a b (row_count m) r c)
    /\ (forall r c, r < row_count m -> c < row_count m ->
          mget M' r c = mget M (moved b (row_count m - 1) r)
                               (moved b (row_count m - 1) c))
    /\ cluster a b m
       = Ok (mkUPGMA (row_count m - 1) M'
               (<[b := x]> (<[a := length (clusters m)]> (rowToCluster m)))
               (clusters m ++ [parent_record cA clA cB clB Dba])
               (rowMinima m) (isRooted m)).
Proof.
  intros Hwf Ha Hb. pose proof (wf_dims m Hwf) as Hd.
  destruct (wf_cluster m a Hwf Ha) as (cA & clA & HcA & HclA).
  destruct (wf_cluster m b Hwf Hb) as (cB & clB & HcB & HclB).
  destruct (mget_Ok _ _ b a Hd Hb Ha) as [Dba HDba].
  destruct (dims_row _ _ a Hd Ha) as (rowA & HrowA & _).
  pose proof (wf_rowToCluster m Hwf) as Hrtc.
  set (rtc1 := <[a := length (clusters m)]> (rowToCluster m)).
  assert (length rtc1 = length (rowToCluster m)) as Hlen1
    by apply length_insert.
  destruct (lookup_lt_is_Some_2 rtc1 (row_count m - 1)) as [x Hx]; [lia |].
  set (lambda := join_lambda clA clB).
  destruct (cluster_loop_Ok (row_count m) (rows m) a b lambda (fsub one lambda)
              Hd Ha Hb) as (M & Hloop & HdM & HgetM).
  set (cs := clusters m ++ [parent_record cA clA cB clB Dba]).
  set (m1 := set_rowToCluster (<[b := x]> rtc1) (set_clusters cs (set_rows M m))).
  destruct (removeRowAndColumn_Ok m1 b) as (M' & Hrem & HdM' & HgetM');
    [done | done |].
  exists cA, clA, cB, clB, Dba, x, M, M'.
  repeat (split; [done |]).
  unfold cluster. rewrite HDba. cbn [bind].
  rewrite (at_lookup _ _ _ _ HcA). cbn [bind].
  rewrite (at_lookup _ _ _ _ HclA). cbn [bind].
  rewrite (at_lookup _ _ _ _ HcB). cbn [bind].
  rewrite (at_lookup _ _ _ _ HclB). cbn [bind].
  rewrite (at_lookup _ _ _ _ HrowA). cbn [bind].
  fold (join_lambda clA clB). fold lambda. rewrite Hloop. cbn [bind].
  unfold addCluster2.
  rewrite (at_lookup _ _ _ _ HclA). cbn [bind].
  rewrite (at_lookup _ _ _ _ HclB). cbn [bind].
  fold (parent_record cA clA cB clB Dba). fold cs.
  assert (length cs - 1 = length (clusters m)) as ->.
  { unfold cs. rewrite length_app. simpl. lia. }
  rewrite store_lt by lia. cbn [bind]. fold rtc1.
  assert (last_index A_rowToCluster (row_count m) = Ok (row_count m - 1)) as ->.
  { destruct (row_count m); [lia |]. simpl. by rewrite Nat.sub_0_r. }
  cbn [bind]. rewrite (at_lookup _ _ _ _ Hx). cbn [bind].
  rewrite store_lt by lia. cbn [bind].
  fold m1. rewrite Hrem. reflexivity.
Qed.

(** A join keeps the state well-formed, removes one row and appends one
    record. *)
Lemma cluster_effect m a b :
  wf m -> a < row_count m -> b < row_count m ->
  exists m' x p,
    cluster a b m = Ok m' /\ wf m'
    /\ row_count m' = row_count m - 1
    /\ clusters m' = clusters m ++ [p]
    /\ <[a := length (clusters m)]> (rowToCluster m) !! (row_count m - 1) = Some x
    /\ rowToCluster m' = <[b := x]> (<[a := length (clusters m)]> (rowToCluster m))
    /\ isRooted m' = isRooted m.
Proof.
  intros Hwf Ha Hb.
  destruct (cluster_Ok m a b Hwf Ha Hb)
    as (cA & clA & cB & clB & Dba & x & M & M' & HcA & HclA & HcB & HclB
        & HDba & Hx & [HdM1 HdM2] & _ & _ & Hcl).
  eexists _, x, _. split; [exact Hcl |]. simpl.
  split; [| by repeat split].
  pose proof (wf_rowToCluster m Hwf) as Hrtc.
  split; simpl.
  - lia.
  - eapply Forall_impl; [exact HdM2 |]. simpl. intros rowData. lia.
  - rewrite !length_insert. lia.
  - intros r c Hr. rewrite length_app. simpl.
    destruct (decide (r = b)) as [-> | Hrb].
    + rewrite list_lookup_insert_eq by (rewrite length_insert; lia).
      intros [= <-]. destruct (decide (row_count m - 1 = a)) as [Hla | Hla].
      * rewrite Hla, list_lookup_insert_eq in Hx by lia.
        injection Hx as <-. lia.
      * rewrite list_lookup_insert_ne in Hx by done.
        apply (wf_clusters m Hwf) in Hx; lia.
    + rewrite list_lookup_insert_ne by done.
      destruct (decide (r = a)) as [-> | Hra].
      * rewrite list_lookup_insert_eq by lia. intros [= <-]. lia.
      * rewrite list_lookup_insert_ne by done. intros Hc.
        apply (wf_clusters m Hwf) in Hc; lia.
Qed.

(** C5.  For a well-formed matrix and [a < b < row_count], [cluster(a, b)]
    returns; both child branch lengths are [matrix[b][a] * 0.5]; the matrix
    [M] left by the loop has [lambda * D(a,i) + (1 - lambda) * D(b,i)], with
    [lambda = countA / (countA + countB)], at [(a, i)] and at [(i, a)] for
    every other live row [i], and is unchanged elsewhere; the record of the
    parent with the children [(rowToCluster[a], aLength)] and
    [(rowToCluster[b], bLength)] is appended; [rowToCluster[a]] becomes the
    number of that record, [rowToCluster[b]] the former entry at
    [row_count - 1]; and the final matrix is [M] with the last live row and
    column moved into slot [b] and [row_count] decremented. *)
Theorem cluster_joins_rows m a b :
  wf m -> a < b < row_count m ->
  exists cA clA cB clB Dba M m',
    cluster a b m = Ok m'
    /\ rowToCluster m !! a = Some cA /\ clusters m !! cA = Some clA
    /\ rowToCluster m !! b = Some cB /\ clusters m !! cB = Some clB
    /\ mget (rows m) b a = Ok Dba
    /\ clusters m'
       = clusters m
         ++ [mkCluster (countOfExteriorNodes clA + countOfExteriorNodes clB)
                       EmptyString
                       [(cA, fmul Dba half); (cB, fmul Dba half)]]
    /\ rowToCluster m' !! a = Some (length (clusters m))
    /\ rowToCluster m' !! b = rowToCluster m !! (row_count m - 1)
    /\ (forall r, r <> a -> r <> b -> rowToCluster m' !! r = rowToCluster m !! r)
    /\ row_count m' = row_count m - 1
    /\ (forall i, i < row_count m -> i <> a -> i <> b ->
          exists Dai Dbi,
            mget (rows m) a i = Ok Dai /\ mget (rows m) b i = Ok Dbi
            /\ let lambda := join_lambda clA clB in
               let Dci := fadd (fmul lambda Dai) (fmul (fsub one lambda) Dbi) in
               mget M a i = Ok Dci /\ mget M i a = Ok Dci)
    /\ (forall r c,
          ~ (r = a /\ c < row_count m /\ c <> a /\ c <> b) ->
          ~ (c = a /\ r < row_count m /\ r <> a /\ r <> b) ->
          mget M r c = mget (rows m) r c)
    /\ (forall r c, r < row_count m - 1 -> c < row_count m - 1 ->
          mget (rows m') r c
          = mget M (if decide (r = b) then row_count m - 1 else r)
                   (if decide (c = b) then row_count m - 1 else c)).
Proof.
  intros Hwf [Hab Hb]. assert (a < row_count m) as Ha by lia.
  pose proof (wf_dims m Hwf) as Hd.
  pose proof (wf_rowToCluster m Hwf) as Hrtc.
  destruct (cluster_Ok m a b Hwf Ha Hb)
    as (cA & clA & cB & clB & Dba & x & M & M' & HcA & HclA & HcB & HclB
        & HDba & Hx & HdM' & HgetM & HgetM' & Hcl).
  eexists cA, clA, cB, clB, Dba, M, _. split; [exact Hcl |].
  simpl. split_and!; try done.
  - rewrite list_lookup_insert_ne by lia. apply list_lookup_insert_eq. lia.
  - rewrite list_lookup_insert_eq by (rewrite length_insert; lia).
    rewrite list_lookup_insert_ne in Hx by lia. done.
  - intros r Hra Hrb. by rewrite !list_lookup_insert_ne by done.
  - intros i Hi Hia Hib.
    destruct (mget_Ok _ _ a i Hd Ha Hi) as [Dai HDai].
    destruct (mget_Ok _ _ b i Hd Hb Hi) as [Dbi HDbi].
    exists Dai, Dbi. split; [done |]. split; [done |]. simpl.
    rewrite !HgetM. unfold averaged, joined. rewrite HDai, HDbi. simpl.
    split.
    + by rewrite decide_True by lia.
    + rewrite decide_False by lia. by rewrite decide_True by lia.
  - intros r c H1 H2. rewrite HgetM. unfold averaged.
    rewrite decide_False by done. by rewrite decide_False by done.
  - intros r c Hr Hc. apply HgetM'; lia.
Qed.

Lemma cluster_joins_rows_witness :
  exists cA clA cB clB Dba M m',
    cluster 0 1 ex_tie = Ok m'
    /\ rowToCluster ex_tie !! 0 = Some cA /\ clusters ex_tie !! cA = Some clA
    /\ rowToCluster ex_tie !! 1 = Some cB /\ clusters ex_tie !! cB = Some clB
    /\ mget (rows ex_tie) 1 0 = Ok Dba
    /\ clusters m'
       = clusters ex_tie
         ++ [mkCluster (countOfExteriorNodes clA + countOfExteriorNodes clB)
                       EmptyString
                       [(cA, fmul Dba half); (cB, fmul Dba half)]]
    /\ rowToCluster m' !! 0 = Some (length (clusters ex_tie))
    /\ rowToCluster m' !! 1 = rowToCluster ex_tie !! (row_count ex_tie - 1)
    /\ (forall r, r <> 0 -> r <> 1 ->
          rowToCluster m' !! r = rowToCluster ex_tie !! r)
    /\ row_count m' = row_count ex_tie - 1
    /\ (forall i, i < row_count ex_tie -> i <> 0 -> i <> 1 ->
          exists Dai Dbi,
            mget (rows ex_tie) 0 i = Ok Dai /\ mget (rows ex_tie) 1 i = Ok Dbi
            /\ let lambda := join_lambda clA clB in
               let Dci := fadd (fmul lambda Dai) (fmul (fsub one lambda) Dbi) in
               mget M 0 i = Ok Dci /\ mget M i 0 = Ok Dci)
    /\ (forall r c,
          ~ (r = 0 /\ c < row_count ex_tie /\ c <> 0 /\ c <> 1) ->
          ~ (c = 0 /\ r < row_count ex_tie /\ r <> 0 /\ r <> 1) ->
          mget M r c = mget (rows ex_tie) r c)
    /\ (forall r c, r < row_count ex_tie - 1 -> c < row_count ex_tie - 1 ->
          mget (rows m') r c
          = mget M (if decide (r = 1) then row_count ex_tie - 1 else r)
                   (if decide (c = 1) then row_count ex_tie - 1 else c)).
Proof.
  apply (cluster_joins_rows ex_tie 0 1).
  - apply wf_check_sound. vm_compute. reflexivity.
  - vm_compute. lia.
Defined.

(** ** The agglomeration driver *)

Lemma wf_set_rowMinima rm m : wf m -> wf (set_rowMinima rm m).
Proof. intros [H1 H2 H3 H4]. by split. Qed.

(** [getMinimumEntry] returns on a well-formed matrix; what it hands back
    is either the caller's [best] with the sentinel value, or an entry of
    [rowMinima] below the sentinel with [column < row]. *)
Lemma getMinimumEntry_Ok m best :
  wf m -> 1 <= row_count m ->
  exists best' rm,
    getMinimumEntry best m = Ok (best', set_rowMinima rm m)
    /\ (best' = set_value best infiniteDistance
        \/ (column best' < row best' /\ row best' < row_count m
            /\ flt (value best') infiniteDistance = true
            /\ rm !! row best' = Some best')).
Proof.
  intros Hwf Hn.
  destruct (getRowMinima_Ok m Hwf Hn) as (rm & p0 & Hget & Hlen & H0 & Hv0 & Hall).
  unfold getMinimumEntry. rewrite Hget. cbn [bind]. simpl.
  destruct (for_loop_inv
    (fun j b => b = set_value best infiniteDistance
                \/ (column b < row b /\ row b < row_count m
                    /\ flt (value b) infiniteDistance = true
                    /\ rm !! row b = Some b))
    0 (row_count m) (minStep rm) (set_value best infiniteDistance))
    as (b & Hloop & Hb).
  - lia.
  - by left.
  - intros j b Hj Hb. unfold minStep.
    destruct (at_lt A_rowMinima rm j) as (here & Hat & Hhere); [lia |].
    rewrite Hat. cbn [bind].
    eexists. split; [reflexivity |].
    destruct (flt (value here) (value b) && negb (row here =? column here))
      eqn:Hsel; [|done].
    apply andb_true_iff in Hsel as [Hlt _]. right.
    assert (flt (value here) infiniteDistance = true) as Hfin.
    { destruct Hb as [-> | (_ & _ & Hbfin & _)]; [done |].
      by apply (flt_trans _ (value b)). }
    destruct (decide (j = 0)) as [-> | Hj0].
    { rewrite H0 in Hhere. injection Hhere as <-.
      by rewrite Hv0, flt_irrefl in Hfin. }
    destruct (Hall j) as (p & Hp & Hrm); [lia |].
    rewrite Hhere in Hrm. injection Hrm as <-.
    destruct (rowPosition_Ok m j Hwf) as (p & rowData & Hp' & _ & Hr & Hc & _);
      [lia |].
    rewrite Hp in Hp'. injection Hp' as <-.
    rewrite Hr. split; [lia |]. split; [lia |]. done.
  - rewrite Hloop. cbn [bind]. exists b, rm. done.
Qed.

Lemma clusterDuplicates_nil m : clusterDuplicates [] m = Ok ([], m).
Proof. reflexivity. Qed.

(** A join that returns has removed one live row and appended one record. *)
Lemma cluster_counts a b m m' :
  cluster a b m = Ok m' ->
  row_count m = S (row_count m')
  /\ length (clusters m') = S (length (clusters m))
  /\ isRooted m' = isRooted m.
Proof.
  unfold cluster, removeRowAndColumn, addCluster2. intros H. inv_bind.
  subst. simpl in *. destruct (row_count m) as [|k]; [discriminate |].
  simpl in *. repeat match goal with H : Ok _ = Ok _ |- _ => injection H as H end.
  subst. split; [done |]. rewrite length_app. simpl. split; [lia | done].
Qed.

Lemma getRowMinima_frame m m' :
  getRowMinima m = Ok m' -> exists rm, m' = set_rowMinima rm m.
Proof. unfold getRowMinima. intros H. inv_bind. subst. eauto. Qed.

Lemma getMinimumEntry_frame best m best' m' :
  getMinimumEntry best m = Ok (best', m') -> exists rm, m' = set_rowMinima rm m.
Proof.
  unfold getMinimumEntry. intros H. apply bind_Ok in H as (m0 & H0 & H).
  apply getRowMinima_frame in H0 as [rm ->].
  apply bind_Ok in H as (b & _ & H). injection H as _ <-. eauto.
Qed.

(** The main loop appends one record and removes one live row per call of
    [cluster], and stops when [row_count] has come down to
    [degree_of_root]. *)
Lemma joinLoop_counts fuel degree best m joins best' m' :
  joinLoop fuel degree best m = Ok (joins, best', m') ->
  length joins = row_count m - degree
  /\ row_count m' = row_count m - length joins
  /\ length (clusters m') = length (clusters m) + length joins.
Proof.
  revert best m joins best' m'.
  induction fuel as [|fuel IH]; intros best m joins best' m'; simpl.
  - destruct (degree <? row_count m) eqn:Hlt; [discriminate |].
    intros [= <- <- <-]. apply Nat.ltb_ge in Hlt. simpl. lia.
  - destruct (degree <? row_count m) eqn:Hlt.
    + intros H. apply bind_Ok in H as ([b m1] & Hmin & H).
      apply bind_Ok in H as (m2 & Hcl & H).
      apply bind_Ok in H as ([[tr b'] m3] & Hrec & H).
      simpl in *. injection H as <- <- <-.
      apply getMinimumEntry_frame in Hmin as [rm ->].
      apply cluster_counts in Hcl as (Hrc & Hcs & _). simpl in *.
      apply IH in Hrec as (H1 & H2 & H3). apply Nat.ltb_lt in Hlt.
      simpl. lia.
    + intros [= <- <- <-]. apply Nat.ltb_ge in Hlt. simpl. lia.
Qed.

(** The result of the main loop does not depend on the fuel once there are
    [row_count] units of it: the loop ends by its own test. *)
Lemma joinLoop_fuel fuel degree best m :
  row_count m <= fuel ->
  joinLoop (S fuel) degree best m = joinLoop fuel degree best m.
Proof.
  revert best m. induction fuel as [|fuel IH]; intros best m Hle.
  - simpl. replace (degree <? row_count m) with false; [done |].
    symmetry. apply Nat.ltb_ge. lia.
  - change (joinLoop (S (S fuel)) degree best m)
      with (if degree <? row_count m then
              r <- getMinimumEntry best m ;;
              m' <- cluster (column (fst r)) (row (fst r)) (snd r) ;;
              r' <- joinLoop (S fuel) degree (fst r) m' ;;
              Ok ((column (fst r), row (fst r)) :: fst (fst r'),
                  snd (fst r'), snd r')
            else Ok ([], best, m)).
    change (joinLoop (S fuel) degree best m)
      with (if degree <? row_count m then
              r <- getMinimumEntry best m ;;
              m' <- cluster (column (fst r)) (row (fst r)) (snd r) ;;
              r' <- joinLoop fuel degree (fst r) m' ;;
              Ok ((column (fst r), row (fst r)) :: fst (fst r'),
                  snd (fst r'), snd r')
            else Ok ([], best, m)).
    destruct (degree <? row_count m); [|done].
    destruct (getMinimumEntry best m) as [[b m1]|e] eqn:Hmin; [|done].
    cbn [bind fst snd].
    destruct (cluster (column b) (row b) m1) as [m2|e] eqn:Hcl; [|done].
    cbn [bind]. rewrite IH; [done |].
    apply getMinimumEntry_frame in Hmin as [rm ->].
    apply cluster_counts in Hcl as (Hrc & _). simpl in Hrc. lia.
Qed.

(** C8, as the code has it.  A well-formed matrix of exactly three rows and
    no duplicate groups: when [isRooted] is false the main loop makes no
    call of [cluster] and [constructTree] is [finishClustering] on the
    untouched matrix; when [isRooted] is true the main loop makes exactly
    one call of [cluster], on the pair found by [getMinimumEntry], and
    [finishClustering] is entered with the two rows it leaves. *)
Theorem constructTree_three_rows m :
  wf m -> row_count m = 3 ->
  if isRooted m then
    exists best m1 m2,
      getMinimumEntry Position0 m = Ok (best, m1)
      /\ cluster (column best) (row best) m1 = Ok m2
      /\ row_count m2 = 2
      /\ length (clusters m2) = S (length (clusters m))
      /\ joinPhase [] m = Ok ([], [(column best, row best)], m2)
      /\ constructTree [] m = (m' <- finishClustering m2 ;; Ok (true, m'))
  else
    joinPhase [] m = Ok ([], [], m)
    /\ constructTree [] m = (m' <- finishClustering m ;; Ok (true, m')).
Proof.
  intros Hwf Hn. destruct (isRooted m) eqn:Hroot.
  - destruct (getMinimumEntry_Ok m Position0 Hwf) as (best & rm & Hmin & Hbest);
      [lia |].
    assert (column best < row_count m /\ row best < row_count m) as [Hc Hr].
    { destruct Hbest as [-> | (? & ? & _)]; simpl; lia. }
    destruct (cluster_effect (set_rowMinima rm m) (column best) (row best))
      as (m2 & x & p & Hcl & Hwf2 & Hrc2 & Hcs2 & _);
      [by apply wf_set_rowMinima | done | done |].
    simpl in Hrc2, Hcs2.
    assert (joinPhase [] m = Ok ([], [(column best, row best)], m2)) as Hphase.
    { unfold joinPhase. rewrite clusterDuplicates_nil. cbn [bind fst snd].
      rewrite Hroot, Hn. cbn [joinLoop]. rewrite Hn.
      change (2 <? 3) with true. cbv iota. rewrite Hmin. cbn [bind fst snd].
      rewrite Hcl. cbn [bind]. rewrite Hrc2, Hn. reflexivity. }
    exists best, (set_rowMinima rm m), m2.
    split; [done |]. split; [done |]. split; [lia |].
    split; [rewrite Hcs2, length_app; simpl; lia |].
    split; [done |]. unfold constructTree. by rewrite Hphase.
  - assert (joinPhase [] m = Ok ([], [], m)) as Hphase.
    { unfold joinPhase. rewrite clusterDuplicates_nil. cbn [bind fst snd].
      rewrite Hroot, Hn. cbn [joinLoop]. rewrite Hn. reflexivity. }
    split; [done |]. unfold constructTree. by rewrite Hphase.
Qed.

(** The rooted and the unrooted construction on the three taxa of
    [ex_three]. *)
Lemma constructTree_three_rows_witness :
  (exists best m1 m2,
     getMinimumEntry Position0 ex_three = Ok (best, m1)
     /\ cluster (column best) (row best) m1 = Ok m2
     /\ row_count m2 = 2
     /\ length (clusters m2) = S (length (clusters ex_three))
     /\ joinPhase [] ex_three = Ok ([], [(column best, row best)], m2)
     /\ constructTree [] ex_three
        = (m' <- finishClustering m2 ;; Ok (true, m')))
  /\ joinPhase [] (snd (setIsRooted false ex_three))
     = Ok ([], [], snd (setIsRooted false ex_three))
  /\ constructTree [] (snd (setIsRooted false ex_three))
     = (m' <- finishClustering (snd (setIsRooted false ex_three)) ;;
        Ok (true, m')).
Proof.
  split.
  - apply (constructTree_three_rows ex_three).
    + apply wf_check_sound. vm_compute. reflexivity.
    + reflexivity.
  - apply (constructTree_three_rows (snd (setIsRooted false ex_three))).
    + apply wf_check_sound. vm_compute. reflexivity.
    + reflexivity.
Defined.

(** C8, as stated, fails for a rooted tree: on the three taxa of
    [ex_three] the main loop joins rows 0 and 1 before the finishing step
    is entered. *)
Lemma rooted_three_taxa_join_once :
  row_count ex_three = 3 /\ isRooted ex_three = true
  /\ exists m2,
       joinPhase [] ex_three = Ok ([], [(0, 1)], m2)
       /\ row_count m2 = 2
       /\ length (clusters m2) = 4.
Proof.
  split; [reflexivity |]. split; [reflexivity |].
  eexists. split; [vm_compute; reflexivity |]. split; reflexivity.
Qed.

(** C10 at a failing input.  On the four taxa of [ex_all_far] no candidate
    lies below [infiniteDistance], [getMinimumEntry] leaves [best] at its
    initial [(0, 0)], and the main loop calls [cluster(0, 0)]. *)
Theorem cluster_called_with_equal_rows :
  row_count ex_all_far = 4
  /\ (exists best m1,
        getMinimumEntry Position0 ex_all_far = Ok (best, m1)
        /\ row best = 0 /\ column best = 0)
  /\ exists m', joinPhase [] ex_all_far = Ok ([], [(0, 0)], m').
Proof.
  split; [reflexivity |]. split.
  - eexists _, _. split; [vm_compute; reflexivity |]. split; reflexivity.
  - eexists. vm_compute. reflexivity.
Qed.

(** C6 at its failing inputs.  No call of [constructTree] returns: the
    finishing step it ends with always fails.  For the four taxa of
    [ex_tie], rooted, the two joins of the main loop are recorded and the
    call then stops in [finishClustering] at the subscript on [weights]. *)
Theorem constructTree_never_completes :
  (forall vvc m, exists e, constructTree vvc m = Err e)
  /\ constructTree [] ex_tie = Err (OutOfBounds A_weights)
  /\ exists m', joinPhase [] ex_tie = Ok ([], [(0, 1); (0, 1)], m')
                /\ length (clusters m') = 4 + 2.
Proof.
  split; [|split].
  - intros vvc m. unfold constructTree.
    destruct (joinPhase vvc m) as [r|e]; cbn [bind]; [|eauto].
    destruct (finishClustering_never_Ok (snd r)) as [e ->]. cbn [bind]. eauto.
  - vm_compute. reflexivity.
  - eexists. split; [vm_compute; reflexivity | reflexivity].
Qed.

(** ** Loading *)

Lemma dims_replicate n : dims n (replicate n (replicate n zero)).
Proof.
  split.
  - by rewrite length_replicate.
  - apply Forall_replicate. by rewrite length_replicate.
Qed.

Lemma addCluster_foldl names cs :
  foldl (fun cs name => addCluster name cs) cs names
  = cs ++ ((fun name => mkCluster 1 name []) <$> names).
Proof.
  revert cs. induction names as [|name names IH]; intros cs; simpl.
  - by rewrite app_nil_r.
  - rewrite IH. unfold addCluster. by rewrite <- app_assoc.
Qed.

Lemma flat_index n r c : r < n -> c < n -> r * n + c < n * n.
Proof. intros Hr Hc. nia. Qed.

Lemma loadDistances_Ok (matrix : list T) n M0 :
  n * n <= length matrix -> dims n M0 ->
  exists M,
    for_loop 0 n
      (fun r M =>
         for_loop 0 n
           (fun c M => v <- at_ A_matrix matrix (r * n + c) ;; mset M r c v) M)
      M0 = Ok M
    /\ dims n M
    /\ forall r c, r < n -> c < n -> mget M r c = at_ A_matrix matrix (r * n + c).
Proof.
  intros Hlen Hd0.
  destruct (for_loop_inv
    (fun j M => dims n M
       /\ forall r c, mget M r c
            = if decide (r < j /\ c < n) then at_ A_matrix matrix (r * n + c)
              else mget M0 r c)
    0 n
    (fun r M =>
       for_loop 0 n
         (fun c M => v <- at_ A_matrix matrix (r * n + c) ;; mset M r c v) M)
    M0) as (M & Hloop & Hd & Hget).
  - lia.
  - split; [done |]. intros r c. by rewrite decide_False by lia.
  - intros j Mj Hj [Hdj Hgetj].
    destruct (for_loop_inv
      (fun k M => dims n M
         /\ forall r c, mget M r c
              = if decide (r = j /\ c < k) then at_ A_matrix matrix (r * n + c)
                else mget Mj r c)
      0 n
      (fun c M => v <- at_ A_matrix matrix (j * n + c) ;; mset M j c v) Mj)
      as (M' & Hinner & Hd' & Hget').
    + lia.
    + split; [done |]. intros r c. by rewrite decide_False by lia.
    + intros k Mk Hk [Hdk Hgetk].
      destruct (at_lt A_matrix matrix (j * n + k)) as (v & Hv & _).
      { pose proof (flat_index n j k). lia. }
      rewrite Hv. cbn [bind].
      destruct (mset_Ok n Mk j k v Hdk) as (M' & -> & Hd' & Hget');
        [lia | lia |].
      exists M'. split; [done |]. split; [done |].
      intros r c. rewrite Hget', Hgetk. index_cases.
    + exists M'. split; [done |]. split; [done |].
      intros r c. rewrite Hget', Hgetj. index_cases.
  - exists M. split; [done |]. split; [done |].
    intros r c Hr Hc. rewrite Hget. by rewrite decide_True by lia.
Qed.

Lemma joinLoop_stop fuel degree best m :
  row_count m <= degree -> joinLoop fuel degree best m = Ok ([], best, m).
Proof.
  intros Hle. assert ((degree <? row_count m) = false) as Hlt
    by (apply Nat.ltb_ge; lia).
  destruct fuel; cbn [joinLoop]; by rewrite Hlt.
Qed.

(** The first loop of [joinUpDuplicateClusters] returns on every
    well-formed state. *)
Lemma initClusterToRow_returns m : wf m -> exists c2r, initClusterToRow m = Ok c2r.
Proof.
  intros Hwf. unfold initClusterToRow.
  destruct (for_loop_inv
    (fun (j : nat) (c2r : list Z) => length c2r = length (clusters m))
    0 (row_count m)
    (fun i c2r =>
       c <- at_ A_rowToCluster (rowToCluster m) i ;;
       store A_cluster_to_row c2r c (Z.of_nat i))
    (replicate (length (clusters m)) notMappedToRow)) as (c2r & Hloop & _).
  - lia.
  - apply length_replicate.
  - intros j c2r Hj Hlen.
    destruct (wf_cluster m j Hwf) as (c & cl & Hc & Hcl); [lia |].
    rewrite (at_lookup _ _ _ _ Hc). cbn [bind].
    rewrite store_lt by (rewrite Hlen; by apply (lookup_lt_Some _ _ _ Hcl)).
    eexists. split; [reflexivity |]. by rewrite length_insert.
  - eauto.
Qed.

(** With three rows or fewer the loop over the duplicate groups joins
    nothing, whatever the groups are. *)
Lemma dupSets_few vvc :
  forall s,
    row_count (dup_matrix (snd s)) <= 3 ->
    exists acc, dupSets vvc s = Ok (acc, snd s).
Proof.
  induction vvc as [|vc rest IH]; intros [acc d] Hn; cbn [dupSets].
  - by exists acc.
  - unfold dupSetStep. cbn [fst snd] in *.
    assert (halveLoop (length vc) (vc, d) = Ok (vc, d)) as ->.
    { assert ((3 <? row_count (dup_matrix d)) = false) as Hlt
        by (apply Nat.ltb_ge; lia).
      destruct (length vc) eqn:Hk; cbn [halveLoop fst snd];
        by rewrite Hlt, andb_false_r. }
    cbn [bind snd]. by apply (IH (_, d)).
Qed.

Lemma clusterDuplicates_few vvc m :
  wf m -> row_count m <= 3 -> clusterDuplicates vvc m = Ok ([], m).
Proof.
  intros Hwf Hn. unfold clusterDuplicates, joinUpDuplicateClusters.
  destruct vvc as [|vc rest]; [done |].
  destruct (initClusterToRow_returns m Hwf) as [c2r ->]. cbn [bind].
  destruct (dupSets_few (vc :: rest) (0%Z, mkDup c2r m [])) as [acc ->];
    [done |].
  reflexivity.
Qed.

(** With fewer than three rows [constructTree] is [finishClustering],
    whatever the duplicate groups are: neither loop joins anything and
    nothing is checked. *)
Lemma constructTree_few vvc m :
  wf m -> row_count m < 3 ->
  constructTree vvc m = (m' <- finishClustering m ;; Ok (true, m')).
Proof.
  intros Hwf Hn. unfold constructTree, joinPhase.
  rewrite clusterDuplicates_few by (done || lia). cbn [bind fst snd].
  rewrite joinLoop_stop; [done |]. destruct (isRooted m); lia.
Qed.

(** C2, as the code has it.  [loadMatrix] checks nothing: for every list
    of names, however short, and every flat array of at least
    [names.size()] squared entries, it resizes the matrix, resets the
    row-to-cluster map to the identity, replaces the tracker by one leaf
    per name, copies the distances and returns [true].  [constructTree]
    checks nothing either: on the matrix so loaded from fewer than three
    names it goes straight into the finishing step, whatever duplicate
    groups the fingerprints give. *)
Theorem loadMatrix_checks_nothing names (matrix : list T) m :
  length names * length names <= length matrix ->
  exists M m1,
    loadMatrix names matrix m = Ok (true, m1)
    /\ m1 = mkUPGMA (length names) M (seq 0 (length names))
                    ((fun name => mkCluster 1 name []) <$> names)
                    (rowMinima m) (isRooted m)
    /\ dims (length names) M
    /\ (forall r c, r < length names -> c < length names ->
          mget M r c = at_ A_matrix matrix (r * length names + c))
    /\ (length names < 3 ->
          forall vvc,
            constructTree vvc m1 = (m' <- finishClustering m1 ;; Ok (true, m'))).
Proof.
  intros Hlen.
  destruct (loadDistances_Ok matrix (length names)
              (replicate (length names) (replicate (length names) zero))
              Hlen (dims_replicate _)) as (M & Hload & Hd & Hget).
  eexists M, _. split; [|split; [reflexivity |]].
  - unfold loadMatrix, loadDistancesFromFlatArray. simpl.
    rewrite Hload. cbn [bind]. rewrite addCluster_foldl. reflexivity.
  - split; [done |]. split; [done |]. intros Hshort vvc.
    apply constructTree_few; [|done].
    destruct Hd as [Hd1 Hd2]. split; simpl.
    + done.
    + done.
    + by rewrite length_seq.
    + intros r c Hr Hc. apply lookup_seq in Hc. rewrite length_fmap. lia.
Qed.

(** Two names: everything is loaded, and [constructTree] is the finishing
    step. *)
Lemma loadMatrix_checks_nothing_witness :
  exists M m1,
    loadMatrix ex_two_names ex_two_matrix UPGMA_Matrix0 = Ok (true, m1)
    /\ m1 = mkUPGMA 2 M [0; 1] [mkCluster 1 "A" []; mkCluster 1 "B" []] [] false
    /\ dims 2 M
    /\ (forall r c, r < 2 -> c < 2 ->
          mget M r c = at_ A_matrix ex_two_matrix (r * 2 + c))
    /\ forall vvc,
         constructTree vvc m1 = (m' <- finishClustering m1 ;; Ok (true, m')).
Proof.
  destruct (loadMatrix_checks_nothing ex_two_names ex_two_matrix UPGMA_Matrix0)
    as (M & m1 & Hload & Hm1 & Hd & Hget & Hct).
  - simpl. lia.
  - exists M, m1. split; [exact Hload |]. split; [exact Hm1 |].
    split; [exact Hd |]. split; [exact Hget |]. apply Hct. simpl. lia.
Defined.

(** C2, as stated, fails: with two names, one fewer than the three that
    are assumed, [loadMatrix] reports success, and the matrix, the
    row-to-cluster map and the tracker have all been overwritten. *)
Lemma loadMatrix_accepts_two_taxa :
  length ex_two_names < 3
  /\ exists m',
       loadMatrix ex_two_names ex_two_matrix UPGMA_Matrix0 = Ok (true, m')
       /\ row_count m' = 2
       /\ rows m' = [[zero; one]; [one; zero]]
       /\ rowToCluster m' = [0; 1]
       /\ length (clusters m') = 2
       /\ m' <> UPGMA_Matrix0.
Proof.
  split; [simpl; lia |]. eexists. split; [vm_compute; reflexivity |].
  repeat (split; [reflexivity |]). discriminate.
Qed.

(** ** The duplicate-coalescing pass *)

Lemma live_after_cluster m m' a b xl z :
  a < b < row_count m ->
  rowToCluster m !! (row_count m - 1) = Some xl ->
  rowToCluster m' = <[b := xl]> (<[a := length (clusters m)]> (rowToCluster m)) ->
  row_count m' = row_count m - 1 ->
  live m z ->
  rowToCluster m !! a <> Some z -> rowToCluster m !! b <> Some z ->
  live m' z.
Proof.
  intros Hab Hxl Hrtc Hrc (rz & Hrz & Hz) Hna Hnb. unfold live. rewrite Hrtc, Hrc.
  assert (rz <> a) by (intros ->; done).
  assert (rz <> b) by (intros ->; done).
  apply lookup_lt_Some in Hz as Hlen.
  destruct (decide (rz = row_count m - 1)) as [-> | Hlast].
  - exists b. split; [lia |].
    rewrite list_lookup_insert_eq by (rewrite length_insert; lia). congruence.
  - exists rz. split; [lia |]. by rewrite !list_lookup_insert_ne by done.
Qed.

Lemma inverse_map_after_cluster (c2r : list Z) m m' a b xl :
  wf m -> length c2r = length (clusters m) -> inverse_map c2r m ->
  a < b < row_count m ->
  rowToCluster m !! (row_count m - 1) = Some xl ->
  rowToCluster m' = <[b := xl]> (<[a := length (clusters m)]> (rowToCluster m)) ->
  row_count m' = row_count m - 1 ->
  inverse_map (<[xl := Z.of_nat b]> (c2r ++ [Z.of_nat a])) m'.
Proof.
  intros Hwf Hlen Hinv Hab Hxl Hrtc Hrc r c Hr. rewrite Hrtc, Hrc in *.
  pose proof (wf_rowToCluster m Hwf) as Hlrtc.
  assert (xl < length (clusters m)) as Hxlt.
  { apply (wf_clusters m Hwf (row_count m - 1)); [lia | done]. }
  destruct (decide (r = b)) as [-> | Hrb].
  - rewrite list_lookup_insert_eq by (rewrite length_insert; lia).
    intros [= <-]. apply list_lookup_insert_eq. rewrite length_app. simpl. lia.
  - rewrite list_lookup_insert_ne by done.
    destruct (decide (r = a)) as [-> | Hra].
    + rewrite list_lookup_insert_eq by lia. intros [= <-].
      rewrite list_lookup_insert_ne by lia.
      rewrite lookup_app_r by lia. by rewrite Hlen, Nat.sub_diag.
    + rewrite list_lookup_insert_ne by done. intros Hc.
      pose proof (Hinv r c ltac:(lia) Hc) as Hcr.
      assert (c <> xl).
      { intros ->. pose proof (Hinv (row_count m - 1) xl ltac:(lia) Hxl) as Hl.
        rewrite Hl in Hcr. injection Hcr as Heq. lia. }
      rewrite list_lookup_insert_ne by done.
      rewrite lookup_app_l; [done |]. by apply lookup_lt_Some in Hcr.
Qed.

Lemma row_index_of_nat r : row_index (Z.of_nat r) = Ok r.
Proof.
  unfold row_index. replace (Z.of_nat r <? 0)%Z with false.
  - by rewrite Nat2Z.id.
  - symmetry. apply Z.ltb_ge. lia.
Qed.

Lemma last_index_pos a n : 1 <= n -> last_index a n = Ok (n - 1).
Proof. intros H. destruct n; [lia |]. simpl. by rewrite Nat.sub_0_r. Qed.

(** One pass through the body of the inner loop, for partners [x] and [y]
    that occupy the different live rows [rx] and [ry]. *)
Lemma pairStep_Ok (vc : list nat) (c2r : list Z) m joins sh i x y rx ry :
  wf m -> length c2r = length (clusters m) -> inverse_map c2r m ->
  vc !! i = Some x -> vc !! (i + sh) = Some y ->
  rx < row_count m -> rowToCluster m !! rx = Some x ->
  ry < row_count m -> rowToCluster m !! ry = Some y ->
  rx <> ry ->
  exists a b xl m',
    a < b < row_count m
    /\ ((a = rx /\ b = ry) \/ (a = ry /\ b = rx))
    /\ rowToCluster m !! (row_count m - 1) = Some xl
    /\ cluster a b m = Ok m'
    /\ pairStep sh i (vc, mkDup c2r m joins)
       = Ok (<[i := length (clusters m)]> vc,
             mkDup (<[xl := Z.of_nat b]> (c2r ++ [Z.of_nat a])) m'
                   (joins ++ [(a, b)])).
Proof.
  intros Hwf Hlen Hinv Hx Hy Hrx Hcx Hry Hcy Hne.
  pose proof (Hinv rx x Hrx Hcx) as Hzx.
  pose proof (Hinv ry y Hry Hcy) as Hzy.
  pose proof (wf_rowToCluster m Hwf) as Hlrtc.
  destruct (lookup_lt_is_Some_2 (rowToCluster m) (row_count m - 1)) as [xl Hxl];
    [lia |].
  assert (xl < length (clusters m)) as Hxlt.
  { apply (wf_clusters m Hwf (row_count m - 1)); [lia | done]. }
  assert (exists a b, a < b < row_count m
            /\ ((a = rx /\ b = ry) \/ (a = ry /\ b = rx))
            /\ (if (Z.of_nat ry <? Z.of_nat rx)%Z
                then Z.of_nat ry else Z.of_nat rx) = Z.of_nat a
            /\ (if (Z.of_nat ry <? Z.of_nat rx)%Z
                then Z.of_nat rx else Z.of_nat ry) = Z.of_nat b)
    as (a & b & Hab & Hcase & Ha & Hb).
  { destruct (Z.of_nat ry <? Z.of_nat rx)%Z eqn:Hsw.
    - apply Z.ltb_lt in Hsw. exists ry, rx. split; [lia |]. auto.
    - apply Z.ltb_ge in Hsw. exists rx, ry. split; [lia |]. auto. }
  destruct (cluster_effect m a b Hwf) as (m' & _ & _ & Hcl & _); [lia | lia |].
  exists a, b, xl, m'. repeat (split; [done |]).
  unfold pairStep. cbn [fst snd dup_matrix cluster_to_row dup_joins].
  rewrite (at_lookup _ _ _ _ Hx). cbn [bind].
  rewrite (at_lookup _ _ _ _ Hzx). cbn [bind].
  rewrite (at_lookup _ _ _ _ Hy). cbn [bind].
  rewrite (at_lookup _ _ _ _ Hzy). cbn [bind].
  rewrite last_index_pos by lia. cbn [bind].
  rewrite (at_lookup _ _ _ _ Hxl). cbn [bind].
  rewrite Ha, Hb, !row_index_of_nat. cbn [bind]. rewrite Hcl. cbn [bind].
  rewrite store_lt by (by apply lookup_lt_Some in Hx). cbn [bind].
  rewrite store_lt by (rewrite length_app; simpl; lia). reflexivity.
Qed.

Lemma cluster_parent m a b cA cB m' :
  wf m -> a < row_count m -> b < row_count m ->
  rowToCluster m !! a = Some cA -> rowToCluster m !! b = Some cB ->
  cluster a b m = Ok m' ->
  exists p, clusters m' = clusters m ++ [p] /\ (links p).*1 = [cA; cB].
Proof.
  intros Hwf Ha Hb HcA HcB Hcl.
  destruct (cluster_Ok m a b Hwf Ha Hb)
    as (cA' & clA & cB' & clB & Dba & x & M & M' & HcA' & _ & HcB' & _
        & _ & _ & _ & _ & _ & Hcl').
  rewrite Hcl in Hcl'. injection Hcl' as ->.
  rewrite HcA in HcA'. injection HcA' as <-.
  rewrite HcB in HcB'. injection HcB' as <-.
  eexists. split; reflexivity.
Qed.

Lemma pairStep_inv s0 sh i s :
  pair_inv s0 sh i s -> i < sh -> i + sh < length (fst s0) ->
  exists s', pairStep sh i s = Ok s' /\ pair_inv s0 sh (S i) s'.
Proof.
  destruct s as [vc [c2r m joins]].
  intros [Hwf Hlen Hinv Hrows (recs & Hrecs & Hlrecs) Hvlen Hdone Htodo
          Hlive Hnodup Hrec (tr & Htr & Hltr & Hlt)] Hi Hish.
  cbn [fst snd dup_matrix cluster_to_row dup_joins] in *.
  set (base0 := length (clusters (dup_matrix (snd s0)))) in *.
  assert (length (clusters m) = base0 + i) as Hbase.
  { rewrite Hrecs, length_app. unfold base0. lia. }
  destruct (lookup_lt_is_Some_2 vc i) as [x Hx]; [lia |].
  destruct (lookup_lt_is_Some_2 vc (i + sh)) as [y Hy]; [lia |].
  assert (in_play sh i i) as Hpi by (left; lia).
  assert (in_play sh i (i + sh)) as Hpy by (right; lia).
  destruct (Hlive i x Hpi Hx) as (rx & Hrx & Hcx).
  destruct (Hlive (i + sh) y Hpy Hy) as (ry & Hry & Hcy).
  assert (x <> y) as Hxy.
  { intros ->. pose proof (Hnodup i (i + sh) y Hpi Hpy Hx Hy). lia. }
  assert (rx <> ry) as Hrxy by (intros ->; congruence).
  destruct (pairStep_Ok vc c2r m joins sh i x y rx ry)
    as (a & b & xl & m' & Hab & Hcase & Hxl & Hcl & Hstep); try done.
  destruct (cluster_effect m a b Hwf)
    as (m'' & xl' & p & Hcl' & Hwf' & Hrc' & Hcs' & Hxl' & Hrtc' & _);
    [lia | lia |].
  rewrite Hcl in Hcl'. injection Hcl' as <-.
  rewrite list_lookup_insert_ne in Hxl' by lia.
  rewrite Hxl in Hxl'. injection Hxl' as <-.
  assert (exists cA cB, rowToCluster m !! a = Some cA
            /\ rowToCluster m !! b = Some cB
            /\ ((cA = x /\ cB = y) \/ (cA = y /\ cB = x)))
    as (cA & cB & HcA & HcB & Hperm).
  { destruct Hcase as [[-> ->] | [-> ->]].
    - exists x, y. auto.
    - exists y, x. auto. }
  assert (forall z, live m z -> z <> x -> z <> y -> live m' z) as Hkeep.
  { intros z Hz Hzx Hzy.
    apply (live_after_cluster m m' a b xl z); try done.
    - rewrite HcA. intros [= ->]. destruct Hperm as [[? ?] | [? ?]]; done.
    - rewrite HcB. intros [= ->]. destruct Hperm as [[? ?] | [? ?]]; done. }
  assert (forall z, live m z -> z < length (clusters m)) as Hold.
  { intros z (rz & Hrz & Hz). by apply (wf_clusters m Hwf rz). }
  assert (live m' (length (clusters m))) as Hnew.
  { exists a. split; [lia |]. rewrite Hrtc'.
    rewrite list_lookup_insert_ne by lia. apply list_lookup_insert_eq.
    pose proof (wf_rowToCluster m Hwf). lia. }
  eexists. split; [exact Hstep |].
  split; cbn [fst snd dup_matrix cluster_to_row dup_joins].
  - done.
  - rewrite length_insert, length_app, Hcs', length_app. simpl. lia.
  - by apply (inverse_map_after_cluster c2r m m' a b xl).
  - lia.
  - exists (recs ++ [p]). rewrite Hcs', Hrecs, length_app, <- app_assoc. simpl.
    split; [done | lia].
  - by rewrite length_insert.
  - intros q Hq. destruct (decide (q = i)) as [-> | Hqi].
    + rewrite list_lookup_insert_eq by lia. by rewrite Hbase.
    + rewrite list_lookup_insert_ne by done. apply Hdone. lia.
  - intros q Hq. rewrite list_lookup_insert_ne by lia. apply Htodo. lia.
  - intros q z Hq. destruct (decide (q = i)) as [-> | Hqi].
    + rewrite list_lookup_insert_eq by lia. by intros [= <-].
    + rewrite list_lookup_insert_ne by done. intros Hz.
      assert (in_play sh i q) as Hq' by (destruct Hq; [left | right]; lia).
      apply Hkeep.
      * by apply (Hlive q).
      * intros ->. by pose proof (Hnodup q i x Hq' Hpi Hz Hx).
      * intros ->. pose proof (Hnodup q (i + sh) y Hq' Hpy Hz Hy).
        destruct Hq; lia.
  - intros q1 q2 z Hq1 Hq2.
    assert (forall q, in_play sh (S i) q -> in_play sh i q) as Hweak.
    { intros q [? | ?]; [left | right]; lia. }
    destruct (decide (q1 = i)) as [-> | Hq1i];
      destruct (decide (q2 = i)) as [-> | Hq2i]; try done.
    + rewrite list_lookup_insert_eq by lia.
      rewrite list_lookup_insert_ne by done. intros [= <-] Hz.
      pose proof (Hold _ (Hlive q2 _ (Hweak _ Hq2) Hz)). lia.
    + rewrite list_lookup_insert_ne by done.
      rewrite list_lookup_insert_eq by lia. intros Hz [= <-].
      pose proof (Hold _ (Hlive q1 _ (Hweak _ Hq1) Hz)). lia.
    + rewrite !list_lookup_insert_ne by done.
      apply Hnodup; by apply Hweak.
  - intros q Hq. destruct (decide (q = i)) as [-> | Hqi].
    + exists x, y. rewrite <- (Htodo i), <- (Htodo (i + sh)) by lia.
      split; [done |]. split; [done |].
      destruct (cluster_parent m a b cA cB m' Hwf) as (p' & Hcs'' & Hlinks);
        try done; try lia.
      exists p'. rewrite Hcs''. split.
      * fold base0. rewrite <- Hbase.
        rewrite lookup_app_r by lia. by rewrite Nat.sub_diag.
      * rewrite Hlinks. destruct Hperm as [[-> ->] | [-> ->]]; auto.
    + destruct (Hrec q) as (x' & y' & Hx' & Hy' & cl & Hcl0 & Hl); [lia |].
      exists x', y'. split; [done |]. split; [done |].
      exists cl. split; [|done]. rewrite Hcs'. by apply lookup_app_l_Some.
  - exists (tr ++ [(a, b)]). rewrite Htr, length_app, <- app_assoc. simpl.
    split; [done |]. split; [lia |].
    apply Forall_app. split; [done |]. apply Forall_singleton. simpl. lia.
Qed.

Lemma pairLoop_inv s0 sh n :
  forall i s,
    pair_inv s0 sh i s -> i + n <= sh -> i + n + sh <= length (fst s0) ->
    exists s',
      pairLoop n i sh s = Ok s'
      /\ pair_inv s0 sh
           (i + Nat.min n (row_count (dup_matrix (snd s)) - 3)) s'.
Proof.
  induction n as [|n IH]; intros i s Hinv Hn Hlen; cbn [pairLoop].
  - exists s. split; [done |]. by rewrite Nat.min_0_l, Nat.add_0_r.
  - destruct (3 <? row_count (dup_matrix (snd s))) eqn:Hrc.
    + apply Nat.ltb_lt in Hrc.
      destruct (pairStep_inv s0 sh i s Hinv) as (s1 & Hstep & Hinv1);
        [lia | lia |].
      rewrite Hstep. cbn [bind].
      destruct (IH (S i) s1 Hinv1) as (s' & Hloop & Hinv'); [lia | lia |].
      exists s'. split; [done |].
      pose proof (pi_rows _ _ _ _ Hinv) as Hr.
      pose proof (pi_rows _ _ _ _ Hinv1) as Hr1.
      replace (i + Nat.min (S n) (row_count (dup_matrix (snd s)) - 3))
        with (S i + Nat.min n (row_count (dup_matrix (snd s1)) - 3)); [done |].
      lia.
    + apply Nat.ltb_ge in Hrc. exists s. split; [done |].
      replace (row_count (dup_matrix (snd s)) - 3) with 0 by lia.
      by rewrite Nat.min_0_r, Nat.add_0_r.
Qed.

Lemma pair_inv_start s sh : dup_ok s -> pair_inv s sh 0 s.
Proof.
  intros [Hwf Hlen Hinv Hnd Hlive]. split.
  - done.
  - done.
  - done.
  - lia.
  - exists []. by rewrite app_nil_r.
  - done.
  - intros p Hp. lia.
  - done.
  - intros p x _ Hx. apply Hlive. by apply (list_elem_of_lookup_2 _ p).
  - intros p q x _ _ Hp Hq. by apply (NoDup_lookup _ _ _ _ Hnd Hp Hq).
  - intros p Hp. lia.
  - exists []. by rewrite app_nil_r.
Qed.

Lemma half_le k : k / 2 + k / 2 <= k.
Proof. pose proof (Nat.Div0.mul_div_le k 2). lia. Qed.

Lemma half_up k : k - k / 2 = (k + 1) / 2.
Proof.
  pose proof (Nat.div_mod_eq k 2). pose proof (Nat.mod_upper_bound k 2).
  pose proof (Nat.div_mod_eq (k + 1) 2).
  pose proof (Nat.mod_upper_bound (k + 1) 2). lia.
Qed.

(** A halving round, from any state that satisfies [dup_ok]. *)
Lemma halvingRound_Ok s :
  dup_ok s ->
  let k := length (fst s) in
  let second_half := k - k / 2 in
  let m := dup_matrix (snd s) in
  let base := length (clusters m) in
  let j := Nat.min (k / 2) (row_count m - 3) in
  exists s',
    halvingRound s = Ok s' /\ dup_ok s'
    /\ length (fst s') = second_half
    /\ row_count (dup_matrix (snd s')) = row_count m - j
    /\ length (clusters (dup_matrix (snd s'))) = base + j
    /\ (forall p, p < j ->
          fst s' !! p = Some (base + p)
          /\ exists x y,
               fst s !! p = Some x /\ fst s !! (p + second_half) = Some y
               /\ joins_pair (clusters (dup_matrix (snd s'))) (base + p) x y)
    /\ (forall p, j <= p < second_half -> fst s' !! p = fst s !! p)
    /\ exists tr,
         dup_joins (snd s') = dup_joins (snd s) ++ tr
         /\ length tr = j
         /\ Forall (fun ab : nat * nat => fst ab < snd ab) tr.
Proof.
  intros Hok k sh m base j. pose proof (half_le k) as Hhalf.
  destruct (pairLoop_inv s sh (k / 2) 0 s (pair_inv_start s sh Hok))
    as (s1 & Hloop & Hinv); [unfold sh, k in *; lia | unfold sh, k in *; lia |].
  rewrite Nat.add_0_l in Hinv. fold m j in Hinv.
  destruct Hinv as [Hwf Hlen Hinv Hrows (recs & Hrecs & Hlrecs) Hvlen Hdone
                    Htodo Hlive Hnodup Hrec Htr].
  assert (j <= k / 2) as Hj by (unfold j; lia).
  assert (resize sh 0 (fst s1) = take sh (fst s1)) as Hres.
  { apply resize_le. rewrite Hvlen. unfold sh, k. lia. }
  exists (take sh (fst s1), snd s1). split.
  { unfold halvingRound. fold k. fold sh. rewrite Hloop. cbn [bind].
    by rewrite Hres. }
  cbn [fst snd]. split; [split; cbn [fst snd]; try done |].
  - apply NoDup_alt. intros p q x Hp Hq.
    apply lookup_take_Some in Hp as [Hp Hpl].
    apply lookup_take_Some in Hq as [Hq Hql].
    apply (Hnodup p q x); [by left | by left | done | done].
  - intros x Hx. apply list_elem_of_lookup in Hx as [p Hp].
    apply lookup_take_Some in Hp as [Hp Hpl].
    apply (Hlive p x); [by left | done].
  - split; [rewrite length_take, Hvlen; unfold sh, k; lia |].
    split; [fold m in Hrows; lia |].
    split; [rewrite Hrecs, length_app; fold m base; lia |].
    split; [|split; [|done]].
    + intros p Hp. split.
      * rewrite lookup_take_lt by (unfold sh; lia). by apply Hdone.
      * by apply Hrec.
    + intros p Hp. rewrite lookup_take_lt by lia. apply Htodo. lia.
Qed.

Lemma halveLoop_Ok fuel :
  forall s,
    dup_ok s -> length (fst s) <= fuel ->
    exists s',
      halveLoop fuel s = Ok s' /\ dup_ok s'
      /\ (length (fst s') <= 1 \/ row_count (dup_matrix (snd s')) <= 3).
Proof.
  induction fuel as [|fuel IH]; intros s Hok Hfuel.
  - exists s. cbn [halveLoop].
    replace (1 <? length (fst s)) with false
      by (symmetry; apply Nat.ltb_ge; lia).
    split; [done |]. split; [done |]. left. lia.
  - cbn [halveLoop].
    destruct ((1 <? length (fst s)) && (3 <? row_count (dup_matrix (snd s))))
      eqn:Hcond.
    + apply andb_true_iff in Hcond as [Hk Hrc]. apply Nat.ltb_lt in Hk.
      destruct (halvingRound_Ok s Hok) as (s1 & Hround & Hok1 & Hlen1 & _).
      rewrite Hround. cbn [bind]. apply IH; [done |].
      rewrite Hlen1. pose proof (half_up (length (fst s))).
      pose proof (Nat.div_mod_eq (length (fst s)) 2).
      pose proof (Nat.mod_upper_bound (length (fst s)) 2). lia.
    + exists s. split; [done |]. split; [done |].
      apply andb_false_iff in Hcond as [H | H]; apply Nat.ltb_ge in H; auto.
Qed.

Lemma dup_check_sound s : dup_check s = true -> dup_ok s.
Proof.
  unfold dup_check. rewrite !andb_true_iff.
  intros [[[[Hwf Hlen] Hinv] Hnd] Hlive].
  split.
  - by apply wf_check_sound.
  - by apply Nat.eqb_eq.
  - intros r c Hr Hc. rewrite forallb_forall in Hinv.
    specialize (Hinv r). rewrite Hc in Hinv.
    destruct (cluster_to_row (snd s) !! c) as [z|].
    + f_equal. apply Z.eqb_eq, Hinv, in_seq. lia.
    + exfalso. apply diff_false_true, Hinv, in_seq. lia.
  - by apply bool_decide_eq_true in Hnd.
  - intros x Hx. rewrite forallb_forall in Hlive.
    apply list_elem_of_In, Hlive, existsb_exists in Hx as (r & Hr & Hc).
    apply in_seq in Hr. exists r. split; [lia |].
    destruct (rowToCluster (dup_matrix (snd s)) !! r) as [c|]; [|done].
    apply Nat.eqb_eq in Hc. by subst.
Qed.

(** The result of the halving loop does not depend on the fuel once there
    is one unit per slot of the set: every round cuts the set. *)
Lemma halveLoop_fuel fuel :
  forall s, length (fst s) <= fuel -> halveLoop (S fuel) s = halveLoop fuel s.
Proof.
  induction fuel as [|fuel IH]; intros s Hle.
  - cbn [halveLoop].
    replace (1 <? length (fst s)) with false
      by (symmetry; apply Nat.ltb_ge; lia).
    done.
  - change (halveLoop (S (S fuel)) s)
      with (if (1 <? length (fst s)) && (3 <? row_count (dup_matrix (snd s)))
            then s' <- halvingRound s ;; halveLoop (S fuel) s'
            else Ok s).
    change (halveLoop (S fuel) s)
      with (if (1 <? length (fst s)) && (3 <? row_count (dup_matrix (snd s)))
            then s' <- halvingRound s ;; halveLoop fuel s'
            else Ok s).
    destruct ((1 <? length (fst s)) && (3 <? row_count (dup_matrix (snd s))))
      eqn:Hcond; [|done].
    apply andb_true_iff in Hcond as [Hk _]. apply Nat.ltb_lt in Hk.
    destruct (halvingRound s) as [s1|e] eqn:Hround; [|done].
    cbn [bind]. apply IH.
    unfold halvingRound in Hround. apply bind_Ok in Hround as (s' & _ & Hs1).
    assert (length (fst s1) = length (fst s) - length (fst s) / 2) as ->
      by (injection Hs1 as <-; apply length_resize).
    pose proof (half_up (length (fst s))).
    pose proof (Nat.div_mod_eq (length (fst s)) 2).
    pose proof (Nat.mod_upper_bound (length (fst s)) 2). lia.
Qed.

(** C9, as the code has it.  For a duplicate set [vc] of [k] different
    live clusters, one halving round splits it into a first half of
    [k / 2] and a second half of [k - k / 2 = (k + 1) / 2] slots; for
    [i = 0, 1, ...] in turn, as long as [i < k / 2] and [row_count] is
    above 3, it joins the rows of [vc[i]] and [vc[i + second_half]] by
    [cluster], lower row first, and stores the number of the new record
    in slot [i]; the [j] joins it makes are [min (k / 2) (row_count - 3)],
    the slots from [j] on keep their clusters, and the set is cut to
    [second_half] slots.  Rounds are repeated until the set has at most
    one slot or [row_count] is at most 3. *)
Theorem halving_round_pairs s :
  dup_ok s ->
  let k := length (fst s) in
  let second_half := k - k / 2 in
  let m := dup_matrix (snd s) in
  let base := length (clusters m) in
  let j := Nat.min (k / 2) (row_count m - 3) in
  second_half = (k + 1) / 2
  /\ (exists s',
        halvingRound s = Ok s' /\ dup_ok s'
        /\ length (fst s') = second_half
        /\ row_count (dup_matrix (snd s')) = row_count m - j
        /\ length (clusters (dup_matrix (snd s'))) = base + j
        /\ (forall p, p < j ->
              fst s' !! p = Some (base + p)
              /\ exists x y,
                   fst s !! p = Some x /\ fst s !! (p + second_half) = Some y
                   /\ joins_pair (clusters (dup_matrix (snd s'))) (base + p) x y)
        /\ (forall p, j <= p < second_half -> fst s' !! p = fst s !! p)
        /\ exists tr,
             dup_joins (snd s') = dup_joins (snd s) ++ tr
             /\ length tr = j
             /\ Forall (fun ab : nat * nat => fst ab < snd ab) tr)
  /\ exists s'',
       halveLoop k s = Ok s'' /\ dup_ok s''
       /\ (length (fst s'') <= 1 \/ row_count (dup_matrix (snd s'')) <= 3).
Proof.
  intros Hok k second_half m base j. split; [apply half_up |]. split.
  - apply (halvingRound_Ok s Hok).
  - by apply halveLoop_Ok.
Qed.

Lemma halving_round_pairs_witness :
  let s := ex_dup6 in
  let k := length (fst s) in
  let second_half := k - k / 2 in
  let m := dup_matrix (snd s) in
  let base := length (clusters m) in
  let j := Nat.min (k / 2) (row_count m - 3) in
  second_half = (k + 1) / 2
  /\ (exists s',
        halvingRound s = Ok s' /\ dup_ok s'
        /\ length (fst s') = second_half
        /\ row_count (dup_matrix (snd s')) = row_count m - j
        /\ length (clusters (dup_matrix (snd s'))) = base + j
        /\ (forall p, p < j ->
              fst s' !! p = Some (base + p)
              /\ exists x y,
                   fst s !! p = Some x /\ fst s !! (p + second_half) = Some y
                   /\ joins_pair (clusters (dup_matrix (snd s'))) (base + p) x y)
        /\ (forall p, j <= p < second_half -> fst s' !! p = fst s !! p)
        /\ exists tr,
             dup_joins (snd s') = dup_joins (snd s) ++ tr
             /\ length tr = j
             /\ Forall (fun ab : nat * nat => fst ab < snd ab) tr)
  /\ exists s'',
       halveLoop k s = Ok s'' /\ dup_ok s''
       /\ (length (fst s'') <= 1 \/ row_count (dup_matrix (snd s'')) <= 3).
Proof.
  apply (halving_round_pairs ex_dup6).
  apply dup_check_sound. vm_compute. reflexivity.
Defined.

(** C9, as stated, fails when [row_count] reaches 3 inside a round: for
    the duplicate set of the four identical taxa of [ex_zero] the first
    half has the slots 0 and 1, yet the round joins only the pair of slot
    0 (rows 0 and 2); the pair of slot 1 is not joined and slot 1 keeps
    cluster 1 instead of receiving a new record's number. *)
Lemma halving_round_stops_early :
  initClusterToRow ex_zero = Ok (cluster_to_row (snd ex_dup))
  /\ length (fst ex_dup) / 2 = 2
  /\ exists d',
       halvingRound ex_dup = Ok ([4; 1], d')
       /\ dup_joins d' = [(0, 2)]
       /\ length (clusters (dup_matrix d')) = 5
       /\ row_count (dup_matrix d') = 3.
Proof.
  split; [vm_compute; reflexivity |]. split; [reflexivity |].
  eexists. split; [vm_compute; reflexivity |]. repeat split.
Qed.

(** * Further properties *)

(** ** The order of single-precision values, continued *)

Lemma feq_sym x y : feq x y = feq y x.
Proof.
  unfold feq, SFeqb.
  destruct x as [sx|sx| |sx mx ex], y as [sy|sy| |sy my ey]; simpl; try done;
    try (destruct sx); try (destruct sy); simpl; try done.
  all: change (PosDef.Pos.compare_cont Eq ?a ?b) with (Pos.compare a b).
  all: rewrite (Z.compare_antisym ex ey), (Pos.compare_antisym mx my).
  all: destruct (ex ?= ey)%Z; simpl; try done; by destruct (mx ?= my)%positive.
Qed.

Lemma feq_refl x : x <> S754_nan -> feq x x = true.
Proof.
  unfold feq, SFeqb. destruct x as [s|s| |s m e]; simpl; try done.
  - by destruct s.
  - intros _. destruct s; rewrite Z.compare_refl;
      change (PosDef.Pos.compare_cont Eq m m) with (Pos.compare m m);
      by rewrite Pos.compare_refl.
Qed.

Lemma feq_not_nan x y : feq x y = true -> x <> S754_nan /\ y <> S754_nan.
Proof.
  unfold feq, SFeqb. destruct x, y; simpl; try discriminate; done.
Qed.

Lemma flt_not_nan x y : flt x y = true -> x <> S754_nan /\ y <> S754_nan.
Proof.
  unfold flt, SFltb. destruct x, y; simpl; try discriminate; done.
Qed.

Lemma feq_trans x y z : feq x y = true -> feq y z = true -> feq x z = true.
Proof.
  unfold feq, SFeqb.
  destruct x as [sx|sx| |sx mx ex], y as [sy|sy| |sy my ey],
           z as [sz|sz| |sz mz ez]; simpl; try discriminate;
    try (destruct sx; try discriminate); try (destruct sy; try discriminate);
    try (destruct sz; try discriminate); simpl; try done.
  all: change (PosDef.Pos.compare_cont Eq ?a ?b) with (Pos.compare a b).
  all: destruct (Z.compare_spec ex ey), (Z.compare_spec ey ez),
         (Z.compare_spec ex ez); try discriminate; try lia; try done; subst.
  all: destruct (Pos.compare_spec mx my), (Pos.compare_spec my mz),
         (Pos.compare_spec mx mz); simpl; try discriminate; try lia; try done.
Qed.

Lemma flt_feq_trans x y z : flt x y = true -> feq y z = true -> flt x z = true.
Proof.
  unfold flt, feq, SFltb, SFeqb.
  destruct x as [sx|sx| |sx mx ex], y as [sy|sy| |sy my ey],
           z as [sz|sz| |sz mz ez]; simpl; try discriminate;
    try (destruct sx; try discriminate); try (destruct sy; try discriminate);
    try (destruct sz; try discriminate); simpl; try done.
  all: change (PosDef.Pos.compare_cont Eq ?a ?b) with (Pos.compare a b).
  all: destruct (Z.compare_spec ex ey), (Z.compare_spec ey ez),
         (Z.compare_spec ex ez); try discriminate; try lia; try done; subst.
  all: destruct (Pos.compare_spec mx my), (Pos.compare_spec my mz),
         (Pos.compare_spec mx mz); simpl; try discriminate; try lia; try done.
Qed.

Lemma feq_flt_trans x y z : feq x y = true -> flt y z = true -> flt x z = true.
Proof.
  unfold flt, feq, SFltb, SFeqb.
  destruct x as [sx|sx| |sx mx ex], y as [sy|sy| |sy my ey],
           z as [sz|sz| |sz mz ez]; simpl; try discriminate;
    try (destruct sx; try discriminate); try (destruct sy; try discriminate);
    try (destruct sz; try discriminate); simpl; try done.
  all: change (PosDef.Pos.compare_cont Eq ?a ?b) with (Pos.compare a b).
  all: destruct (Z.compare_spec ex ey), (Z.compare_spec ey ez),
         (Z.compare_spec ex ez); try discriminate; try lia; try done; subst.
  all: destruct (Pos.compare_spec mx my), (Pos.compare_spec my mz),
         (Pos.compare_spec mx mz); simpl; try discriminate; try lia; try done.
Qed.

Lemma flt_asym x y : flt x y = true -> flt y x = false.
Proof.
  intros Hxy. destruct (flt y x) eqn:Hyx; [|done].
  by rewrite <- (flt_irrefl x), (flt_trans x y x Hxy Hyx).
Qed.

Lemma flt_not_feq x y : flt x y = true -> feq x y = false.
Proof.
  intros Hxy. destruct (feq x y) eqn:He; [|done].
  rewrite feq_sym in He.
  by rewrite <- (flt_irrefl x), (flt_feq_trans x y x Hxy He).
Qed.

(** Two values that are not NaN compare one way, the other, or equal. *)
Lemma flt_total x y :
  x <> S754_nan -> y <> S754_nan ->
  flt x y = false -> flt y x = false -> feq x y = true.
Proof.
  unfold flt, feq, SFltb, SFeqb.
  destruct x as [sx|sx| |sx mx ex], y as [sy|sy| |sy my ey]; simpl; try done;
    try (destruct sx); try (destruct sy); simpl; try done.
  all: change (PosDef.Pos.compare_cont Eq ?a ?b) with (Pos.compare a b).
  all: rewrite (Z.compare_antisym ex ey), (Pos.compare_antisym mx my).
  all: destruct (ex ?= ey)%Z; simpl; try done; by destruct (mx ?= my)%positive.
Qed.

(** ** The order of [Position] *)

(** [operator<] of [Position] is irreflexive and transitive, NaN values
    included. *)
Theorem Position_lt_strict :
  (forall p, Position_lt p p = false)
  /\ forall p q r,
       Position_lt p q = true -> Position_lt q r = true ->
       Position_lt p r = true.
Proof.
  split.
  - intros p. unfold Position_lt. rewrite flt_irrefl, Nat.ltb_irrefl.
    by rewrite andb_false_r.
  - intros p q r. unfold Position_lt. rewrite !orb_true_iff, !andb_true_iff.
    intros [Hpq | [Hpq Ipq]] [Hqr | [Hqr Iqr]].
    + left. by apply (flt_trans _ (value q)).
    + left. by apply (flt_feq_trans _ (value q)).
    + left. by apply (feq_flt_trans _ (value q)).
    + right. split; [by apply (feq_trans _ (value q)) |].
      apply Nat.ltb_lt in Ipq, Iqr. apply Nat.ltb_lt. lia.
Qed.

(** When neither value is NaN, [p <= q] is exactly "not [q < p]", and two
    positions that are not ordered either way have equal values and equal
    imbalances; a position whose value is NaN is below nothing and nothing
    is below it. *)
Theorem Position_le_complement p q :
  value p <> S754_nan -> value q <> S754_nan ->
  Position_le p q = negb (Position_lt q p)
  /\ (Position_lt p q = false -> Position_lt q p = false ->
      feq (value p) (value q) = true /\ imbalance p = imbalance q).
Proof.
  intros Hp Hq. unfold Position_le, Position_lt.
  rewrite (feq_sym (value q) (value p)).
  destruct (flt (value p) (value q)) eqn:Hpq.
  - rewrite (flt_asym _ _ Hpq), (flt_not_feq _ _ Hpq). done.
  - destruct (flt (value q) (value p)) eqn:Hqp.
    + pose proof (flt_not_feq _ _ Hqp) as Hne. rewrite feq_sym in Hne.
      rewrite Hne. done.
    + rewrite (flt_total _ _ Hp Hq Hpq Hqp). simpl.
      split.
      * destruct (Nat.leb_spec (imbalance p) (imbalance q)),
          (Nat.ltb_spec (imbalance q) (imbalance p)); simpl; try done; lia.
      * intros H1 H2. apply Nat.ltb_ge in H1, H2. split; [done | lia].
Qed.

Lemma Position_le_complement_witness :
  Position_le (mkPosition 2 1 two 0) (mkPosition 1 0 two 1)
  = negb (Position_lt (mkPosition 1 0 two 1) (mkPosition 2 1 two 0))
  /\ (Position_lt (mkPosition 2 1 two 0) (mkPosition 1 0 two 1) = false ->
      Position_lt (mkPosition 1 0 two 1) (mkPosition 2 1 two 0) = false ->
      feq two two = true /\ 0 = 1).
Proof.
  apply (Position_le_complement (mkPosition 2 1 two 0) (mkPosition 1 0 two 1));
    discriminate.
Defined.

(** A position whose value is NaN is unordered with every position: it
    is neither [<] nor [<=] any other, nor any other than it, so that
    [p <= p] itself fails. *)
Theorem Position_nan_unordered p q :
  value p = S754_nan ->
  Position_lt p q = false /\ Position_lt q p = false
  /\ Position_le p q = false /\ Position_le q p = false.
Proof.
  intros Hp. unfold Position_lt, Position_le, flt, feq, SFltb, SFeqb.
  rewrite Hp. simpl. destruct (value q); done.
Qed.

Lemma Position_nan_unordered_witness :
  Position_lt (mkPosition 1 0 S754_nan 0) Position0 = false
  /\ Position_lt Position0 (mkPosition 1 0 S754_nan 0) = false
  /\ Position_le (mkPosition 1 0 S754_nan 0) Position0 = false
  /\ Position_le Position0 (mkPosition 1 0 S754_nan 0) = false.
Proof.
  apply (Position_nan_unordered (mkPosition 1 0 S754_nan 0) Position0).
  reflexivity.
Defined.

(** ** The imbalance *)

(** [getImbalance] does not depend on the order of its arguments, failures
    included, and is 0 for a row against itself. *)
Theorem getImbalance_symmetric m a b :
  getImbalance m a b = getImbalance m b a
  /\ forall k, getImbalance m a a = Ok k -> k = 0.
Proof.
  split.
  - unfold getImbalance.
    destruct (at_ A_rowToCluster (rowToCluster m) a) as [ca|ea] eqn:Ha;
      destruct (at_ A_rowToCluster (rowToCluster m) b) as [cb|eb] eqn:Hb;
      cbn [bind].
    + destruct (at_ A_clusters (clusters m) ca) as [cla|e1] eqn:Hca;
        destruct (at_ A_clusters (clusters m) cb) as [clb|e2] eqn:Hcb;
        cbn [bind]; try done.
      * f_equal.
        destruct (Nat.ltb_spec (countOfExteriorNodes cla) (countOfExteriorNodes clb)),
          (Nat.ltb_spec (countOfExteriorNodes clb) (countOfExteriorNodes cla));
          lia.
      * unfold at_ in Hca, Hcb.
        destruct (clusters m !! ca), (clusters m !! cb); congruence.
    + unfold at_ in Hb. destruct (rowToCluster m !! b); congruence.
    + unfold at_ in Ha. destruct (rowToCluster m !! a); congruence.
    + unfold at_ in Ha, Hb.
      destruct (rowToCluster m !! a), (rowToCluster m !! b); congruence.
  - intros k. unfold getImbalance.
    destruct (at_ A_rowToCluster (rowToCluster m) a) as [ca|e]; cbn [bind];
      [|done].
    destruct (at_ A_clusters (clusters m) ca) as [cla|e]; cbn [bind]; [|done].
    rewrite Nat.ltb_irrefl, Nat.sub_diag. by intros [= <-].
Qed.

(** ** Ties in the scalar scanner and in the reduction *)

Lemma flt_not_below x h b :
  h <> S754_nan -> b <> S754_nan ->
  flt x h = false -> flt h b = false -> flt x b = false.
Proof.
  intros Hh Hb Hxh Hhb. destruct (flt x b) eqn:Hxb; [|done].
  destruct (flt b h) eqn:Hbh.
  - by rewrite (flt_trans x b h Hxb Hbh) in Hxh.
  - pose proof (flt_total h b Hh Hb Hhb Hbh) as He. rewrite feq_sym in He.
    by rewrite (flt_feq_trans x b h Hxb He) in Hxh.
Qed.

Lemma flt_strictly_above v b x :
  x <> S754_nan -> b <> S754_nan ->
  flt v b = true -> flt x b = false -> flt v x = true.
Proof.
  intros Hx Hb Hvb Hxb. destruct (flt b x) eqn:Hbx.
  - by apply (flt_trans v b x).
  - pose proof (flt_total x b Hx Hb Hxb Hbx) as He. rewrite feq_sym in He.
    by apply (flt_feq_trans v b x).
Qed.

Lemma scan_inv_not_nan rowData j best : scan_inv rowData j best -> snd best <> S754_nan.
Proof.
  intros [_ [(_ & -> & _) | (_ & _ & H)]]; [done |].
  by apply flt_not_nan in H as [? _].
Qed.

(** The inner loop of [getRowMinima] keeps the first of equal minima. *)
Lemma scan_first rowData r :
  r <= length rowData ->
  exists best,
    for_loop 0 r (scanStep rowData) (0, infiniteDistance) = Ok best
    /\ scan_inv rowData r best
    /\ forall c x, c < fst best -> rowData !! c = Some x -> x <> S754_nan ->
                   flt (snd best) x = true.
Proof.
  intros Hr.
  destruct (for_loop_inv
    (fun j best => scan_inv rowData j best
       /\ forall c x, c < fst best -> rowData !! c = Some x -> x <> S754_nan ->
                      flt (snd best) x = true)
    0 r (scanStep rowData) (0, infiniteDistance)) as (best & Hloop & Hinv & Hfirst).
  - lia.
  - split.
    + split; simpl.
      * intros c x Hc. lia.
      * left. split; [done |]. split; [done |]. intros (c & x & Hc & _). lia.
    + simpl. intros c x Hc. lia.
  - intros j best Hj [Hinv Hfirst].
    destruct (scanStep_inv rowData j best) as (best' & Hstep & Hinv');
      [lia | done |].
    exists best'. split; [done |]. split; [done |].
    unfold scanStep in Hstep.
    destruct (at_lt A_rowData rowData j) as (v & Hat & Hv); [lia |].
    rewrite Hat in Hstep. cbn [bind] in Hstep.
    destruct (flt v (snd best)) eqn:Hlt; injection Hstep as <-; [|done].
    simpl. intros c x Hc Hx Hnan.
    apply (flt_strictly_above v (snd best) x); try done.
    + by apply (scan_inv_not_nan rowData j).
    + destruct Hinv as [Hlb _]. by apply (Hlb c).
  - eauto.
Qed.

(** After [getRowMinima], [rowMinima] has one entry per live row, and the
    entry of row [r] is the minimum of the row at the lowest column that
    holds it: no entry of row [r] left of the diagonal is below the stored
    value; when some of them lies below the sentinel, the stored column
    holds the stored value, and every entry to the left of it that is not
    NaN is strictly above that value; when none does, the entry is column 0
    with the sentinel. *)
Theorem getRowMinima_lowest_column m r :
  wf m -> 1 <= r < row_count m ->
  exists rm p rowData,
    getRowMinima m = Ok (set_rowMinima rm m)
    /\ length rm = row_count m
    /\ rows m !! r = Some rowData /\ rm !! r = Some p
    /\ column p < r
    /\ lower_bound rowData r (value p)
    /\ (has_finite rowData r -> rowData !! column p = Some (value p))
    /\ (~ has_finite rowData r -> column p = 0 /\ value p = infiniteDistance)
    /\ forall c x, c < column p -> rowData !! c = Some x -> x <> S754_nan ->
                   flt (value p) x = true.
Proof.
  intros Hwf Hr.
  destruct (getRowMinima_Ok m Hwf) as (rm & p0 & Hget & Hlen & _ & _ & Hall);
    [lia |].
  destruct (Hall r Hr) as (p & Hp & Hrm).
  destruct (rowPosition_Ok m r Hwf Hr)
    as (p' & rowData & Hp' & Hrow & _ & Hcp & _ & Hlb & Hcase).
  rewrite Hp in Hp'. injection Hp' as <-.
  exists rm, p, rowData. repeat (split; [done |]).
  split; [|split].
  - intros Hfin. destruct Hcase as [(_ & _ & Hnone) | (_ & Hat & _)]; done.
  - intros Hnone. destruct Hcase as [(Hc & Hv & _) | (Hc & Hat & Hfin)]; [done |].
    destruct Hnone. exists (column p), (value p). auto.
  - destruct (wf_row m r Hwf) as (rowData' & Hrow' & Hrlen); [lia |].
    rewrite Hrow in Hrow'. injection Hrow' as <-.
    destruct (scan_first rowData r) as (best & Hscan & _ & Hfirst); [lia |].
    unfold rowPosition in Hp. rewrite (at_lookup _ _ _ _ Hrow) in Hp.
    cbn [bind] in Hp. rewrite Hscan in Hp. cbn [bind] in Hp.
    apply bind_Ok in Hp as (imb & _ & Hp). injection Hp as <-. exact Hfirst.
Qed.

(** Row 9 of [ex_lanes]: the minimum 1 is at column 3, with three larger
    entries to the left of it. *)
Lemma getRowMinima_lowest_column_witness :
  exists rm p rowData,
    getRowMinima ex_lanes = Ok (set_rowMinima rm ex_lanes)
    /\ length rm = row_count ex_lanes
    /\ rows ex_lanes !! 9 = Some rowData /\ rm !! 9 = Some p
    /\ column p < 9
    /\ lower_bound rowData 9 (value p)
    /\ (has_finite rowData 9 -> rowData !! column p = Some (value p))
    /\ (~ has_finite rowData 9 -> column p = 0 /\ value p = infiniteDistance)
    /\ forall c x, c < column p -> rowData !! c = Some x -> x <> S754_nan ->
                   flt (value p) x = true.
Proof.
  apply (getRowMinima_lowest_column ex_lanes 9).
  - apply wf_check_sound. vm_compute. reflexivity.
  - vm_compute. lia.
Defined.

Lemma min_inv_not_nan rm best j b : min_inv rm best j b -> value b <> S754_nan.
Proof.
  intros [_ [[-> _] | (_ & _ & H & _)]]; [done |].
  by apply flt_not_nan in H as [? _].
Qed.

Lemma min_inv_le rm best j b :
  min_inv rm best j b -> flt infiniteDistance (value b) = false.
Proof.
  intros [_ [[-> _] | (_ & _ & H & _)]]; [done |]. by apply flt_asym.
Qed.

(** The reduction of [getMinimumEntry] over a [rowMinima] as
    [getRowMinima] leaves it. *)
Lemma reduction_Ok m rm p0 best :
  wf m -> length rm = row_count m ->
  rm !! 0 = Some p0 -> value p0 = infiniteDistance ->
  (forall r, 1 <= r < row_count m ->
     exists p, rowPosition m r = Ok p /\ rm !! r = Some p) ->
  exists b,
    for_loop 0 (row_count m) (minStep rm) (set_value best infiniteDistance) = Ok b
    /\ min_inv rm best (row_count m) b.
Proof.
  intros Hwf Hlen H0 Hv0 Hall.
  apply (for_loop_inv (min_inv rm best)).
  - lia.
  - split; [intros r here Hr; lia |]. left. split; [done |]. intros r here Hr. lia.
  - intros j b Hj Hinv. unfold minStep.
    destruct (at_lt A_rowMinima rm j) as (here & Hat & Hhere); [lia |].
    rewrite Hat. cbn [bind]. eexists. split; [reflexivity |].
    pose proof (min_inv_not_nan _ _ _ _ Hinv) as Hbnan.
    pose proof (min_inv_le _ _ _ _ Hinv) as Hble.
    assert (j = 0 /\ value here = infiniteDistance
            \/ 1 <= j /\ row here = j /\ column here < j
               /\ value here <> S754_nan) as Hj0.
    { destruct (decide (j = 0)) as [-> | Hne].
      - left. rewrite H0 in Hhere. by injection Hhere as <-.
      - right. destruct (Hall j) as (p & Hp & Hrm); [lia |].
        rewrite Hhere in Hrm. injection Hrm as <-.
        destruct (rowPosition_Ok m j Hwf)
          as (p & rowData & Hp' & _ & Hr & Hc & _ & Hsc); [lia |].
        rewrite Hp in Hp'. injection Hp' as <-.
        split; [lia |]. split; [done |]. split; [done |].
        apply (scan_inv_not_nan _ _ _ Hsc). }
    destruct Hinv as [Hlb Hcase].
    destruct (flt (value here) (value b)) eqn:Hlt.
    + destruct Hj0 as [[-> Hinf] | (Hj1 & Hrow & Hcol & Hnan)].
      { rewrite Hinf in Hlt. congruence. }
      replace (row here =? column here) with false
        by (symmetry; apply Nat.eqb_neq; lia).
      simpl. split.
      * intros r h Hr Hh. destruct (decide (r = j)) as [-> | Hne].
        -- rewrite Hhere in Hh. injection Hh as <-. apply flt_irrefl.
        -- apply (flt_lower _ (value b)); [done |]. apply (Hlb r); [lia | done].
      * right. rewrite Hrow. split; [lia |]. split; [done |]. split.
        -- destruct Hcase as [[-> _] | (_ & _ & Hfin & _)]; [done |].
           by apply (flt_trans _ (value b)).
        -- intros r h Hr Hh.
           assert (value h <> S754_nan) as Hhnan.
           { destruct (Hall r) as (p & Hp & Hrm); [lia |].
             rewrite Hh in Hrm. injection Hrm as <-.
             destruct (rowPosition_Ok m r Hwf)
               as (p & rowData & Hp' & _ & _ & _ & _ & Hsc); [lia |].
             rewrite Hp in Hp'. injection Hp' as <-.
             apply (scan_inv_not_nan _ _ _ Hsc). }
           apply (flt_strictly_above _ (value b)); try done.
           apply (Hlb r); [lia | done].
    + simpl. split.
      * intros r h Hr Hh. destruct (decide (r = j)) as [-> | Hne].
        -- rewrite Hhere in Hh. by injection Hh as <-.
        -- apply (Hlb r); [lia | done].
      * destruct Hcase as [[Hb Hnone] | (Hrow & Hrm & Hfin & Hties)].
        -- left. split; [done |]. intros r h Hr Hh.
           destruct (decide (r = j)) as [-> | Hne].
           ++ rewrite Hhere in Hh. injection Hh as <-. by rewrite Hb in Hlt.
           ++ apply (Hnone r); [lia | done].
        -- right. split; [lia |]. done.
Qed.

Lemma getMinimumEntry_least m best :
  wf m -> 1 <= row_count m ->
  exists best' rm,
    getMinimumEntry best m = Ok (best', set_rowMinima rm m)
    /\ (forall r c x, c < r < row_count m -> mget (rows m) r c = Ok x ->
                      flt x (value best') = false)
    /\ (joinable m ->
          column best' < row best' < row_count m
          /\ rm !! row best' = Some best'
          /\ mget (rows m) (row best') (column best') = Ok (value best')
          /\ forall r here, 1 <= r < row best' -> rm !! r = Some here ->
                            flt (value best') (value here) = true)
    /\ (~ joinable m -> best' = set_value best infiniteDistance).
Proof.
  intros Hwf Hn.
  destruct (getRowMinima_Ok m Hwf Hn) as (rm & p0 & Hget & Hlen & H0 & Hv0 & Hall).
  destruct (reduction_Ok m rm p0 best Hwf Hlen H0 Hv0 Hall) as (b & Hloop & Hinv).
  exists b, rm. split.
  { unfold getMinimumEntry. rewrite Hget. cbn [bind]. simpl.
    rewrite Hloop. reflexivity. }
  pose proof (min_inv_not_nan _ _ _ _ Hinv) as Hbnan.
  destruct Hinv as [Hlb Hcase].
  assert (forall r, 1 <= r < row_count m ->
            exists p rowData,
              rm !! r = Some p /\ rows m !! r = Some rowData
              /\ row p = r /\ column p < r
              /\ scan_inv rowData r (column p, value p)) as Hrow.
  { intros r Hr. destruct (Hall r Hr) as (p & Hp & Hrm).
    destruct (rowPosition_Ok m r Hwf Hr)
      as (p' & rowData & Hp' & Hrd & Hrp & Hcp & _ & Hsc).
    rewrite Hp in Hp'. injection Hp' as <-. exists p, rowData. done. }
  assert (forall r c x, c < r < row_count m -> mget (rows m) r c = Ok x ->
            exists p, rm !! r = Some p /\ column p < r /\ row p = r
                      /\ flt x (value p) = false
                      /\ (flt x infiniteDistance = true ->
                          flt (value p) infiniteDistance = true)) as Hentry.
  { intros r c x Hrc Hx.
    destruct (Hrow r) as (p & rowData & Hrm & Hrd & Hrp & Hcp & Hlbp & Hsc);
      [lia |].
    unfold mget in Hx. rewrite (at_lookup _ _ _ _ Hrd) in Hx. cbn [bind] in Hx.
    apply at_Ok in Hx. exists p. repeat (split; [done |]). split.
    - apply (Hlbp c); [lia | done].
    - intros Hfin. destruct Hsc as [(_ & _ & Hnone) | (_ & _ & Hp)]; [|done].
      destruct Hnone. exists c, x. split; [lia | done]. }
  split; [|split].
  - intros r c x Hrc Hx.
    destruct (Hentry r c x Hrc Hx) as (p & Hrm & _ & _ & Hxp & _).
    destruct (Hrow r) as (p' & rowData & Hrm' & _ & _ & _ & Hsc); [lia |].
    rewrite Hrm in Hrm'. injection Hrm' as <-.
    apply (flt_not_below x (value p)); try done.
    + apply (scan_inv_not_nan _ _ _ Hsc).
    + apply (Hlb r); [lia | done].
  - intros (r & c & x & Hrc & Hx & Hfin).
    destruct (Hentry r c x Hrc Hx) as (p & Hrm & _ & _ & _ & Hpfin).
    destruct Hcase as [[_ Hnone] | (Hrb & Hrmb & Hbfin & Hties)].
    { rewrite (Hnone r p) in Hpfin; [by discriminate Hpfin | lia | done]. }
    destruct (Hrow (row b)) as (p' & rowData & Hrm' & Hrd & _ & Hcp & _ & Hsc);
      [lia |].
    rewrite Hrmb in Hrm'. injection Hrm' as <-.
    split; [lia |]. split; [done |]. split; [|done].
    unfold mget. rewrite (at_lookup _ _ _ _ Hrd). cbn [bind]. apply at_Ok.
    destruct Hsc as [(_ & Hv & _) | (_ & Hat & _)]; [|done].
    simpl in Hv. rewrite Hv in Hbfin. discriminate Hbfin.
  - intros Hnone. destruct Hcase as [[Hb _] | (Hrb & Hrmb & Hbfin & _)]; [done |].
    destruct Hnone.
    destruct (Hrow (row b)) as (p' & rowData & Hrm' & Hrd & _ & Hcp & _ & Hsc);
      [lia |].
    rewrite Hrmb in Hrm'. injection Hrm' as <-.
    destruct Hsc as [(_ & Hv & _) | (Hc & Hat & _)].
    { simpl in Hv. rewrite Hv in Hbfin. discriminate Hbfin. }
    exists (row b), (column b), (value b). split; [lia |]. split; [|done].
    unfold mget. rewrite (at_lookup _ _ _ _ Hrd). cbn [bind]. by apply at_Ok.
Qed.

(** [getMinimumEntry] returns a least entry of the live lower triangle: no
    entry [matrix[r][c]] with [c < r < row_count] is below the value it
    returns.  When some such entry lies below [infiniteDistance], the
    returned position is an entry of [rowMinima] with [column < row], its
    value is the matrix entry at that place, and every candidate of an
    earlier row is strictly above it (ties go to the lowest row); when
    none does, the caller's position comes back with only its value
    replaced by the sentinel. *)
Theorem getMinimumEntry_global_minimum m best :
  wf m -> 1 <= row_count m ->
  exists best' rm,
    getMinimumEntry best m = Ok (best', set_rowMinima rm m)
    /\ (forall r c x, c < r < row_count m -> mget (rows m) r c = Ok x ->
                      flt x (value best') = false)
    /\ (joinable m ->
          column best' < row best' < row_count m
          /\ rm !! row best' = Some best'
          /\ mget (rows m) (row best') (column best') = Ok (value best')
          /\ forall r here, 1 <= r < row best' -> rm !! r = Some here ->
                            flt (value best') (value here) = true)
    /\ (~ joinable m -> best' = set_value best infiniteDistance).
Proof. apply getMinimumEntry_least. Qed.

Lemma getMinimumEntry_global_minimum_witness :
  exists best' rm,
    getMinimumEntry Position0 ex_tie = Ok (best', set_rowMinima rm ex_tie)
    /\ (forall r c x, c < r < row_count ex_tie -> mget (rows ex_tie) r c = Ok x ->
                      flt x (value best') = false)
    /\ (joinable ex_tie ->
          column best' < row best' < row_count ex_tie
          /\ rm !! row best' = Some best'
          /\ mget (rows ex_tie) (row best') (column best') = Ok (value best')
          /\ forall r here, 1 <= r < row best' -> rm !! r = Some here ->
                            flt (value best') (value here) = true)
    /\ (~ joinable ex_tie -> best' = set_value Position0 infiniteDistance).
Proof.
  apply (getMinimumEntry_global_minimum ex_tie Position0).
  - apply wf_check_sound. vm_compute. reflexivity.
  - vm_compute. lia.
Defined.

(** ** What a join keeps *)

Lemma averaged_sym lambda mu M a b n r c :
  symmetric n M -> r < n -> c < n ->
  averaged lambda mu M a b n r c = averaged lambda mu M a b n c r.
Proof.
  intros Hsym Hr Hc. unfold averaged. index_cases. by apply Hsym.
Qed.

Lemma cluster_symmetric m a b :
  wf m -> a < row_count m -> b < row_count m ->
  symmetric (row_count m) (rows m) ->
  exists m',
    cluster a b m = Ok m' /\ wf m'
    /\ row_count m' = row_count m - 1
    /\ symmetric (row_count m') (rows m').
Proof.
  intros Hwf Ha Hb Hsym.
  destruct (cluster_effect m a b Hwf Ha Hb)
    as (m' & _ & _ & Hcl & Hwf' & Hrc & _).
  destruct (cluster_Ok m a b Hwf Ha Hb)
    as (cA & clA & cB & clB & Dba & x & M & M' & _ & _ & _ & _ & _ & _ & _
        & HgetM & HgetM' & Hcl').
  exists m'. split; [done |]. split; [done |]. split; [done |].
  rewrite Hcl in Hcl'. injection Hcl' as ->. simpl.
  intros r c Hr Hc. rewrite !HgetM' by lia. rewrite !HgetM.
  apply averaged_sym; [done | |]; unfold moved; case_decide; lia.
Qed.

(** A join keeps the state well-formed and the live window symmetric,
    whichever two rows it is called on. *)
Theorem cluster_keeps_symmetry m a b :
  wf m -> a < row_count m -> b < row_count m ->
  symmetric (row_count m) (rows m) ->
  exists m',
    cluster a b m = Ok m' /\ wf m'
    /\ row_count m' = row_count m - 1
    /\ symmetric (row_count m') (rows m').
Proof. apply cluster_symmetric. Qed.

Lemma cluster_keeps_symmetry_witness :
  exists m',
    cluster 0 1 ex_tie = Ok m' /\ wf m'
    /\ row_count m' = row_count ex_tie - 1
    /\ symmetric (row_count m') (rows m').
Proof.
  apply (cluster_keeps_symmetry ex_tie 0 1).
  - apply wf_check_sound. vm_compute. reflexivity.
  - vm_compute. lia.
  - vm_compute. lia.
  - intros r c Hr Hc.
    do 4 (destruct r as [|r]; [do 4 (destruct c as [|c]; [reflexivity |]);
                               vm_compute in Hc; lia |]).
    vm_compute in Hr. lia.
Defined.

Lemma sum_list_insert (l : list nat) i x y :
  l !! i = Some y -> sum_list (<[i := x]> l) + y = sum_list l + x.
Proof.
  revert i. induction l as [|z l IH]; intros i Hi; [done |].
  destruct i as [|i]; simpl in *.
  - injection Hi as ->. lia.
  - specialize (IH i Hi). lia.
Qed.

Lemma sum_list_take_last (l : list nat) k z :
  l !! k = Some z -> sum_list (take (S k) l) = sum_list (take k l) + z.
Proof.
  intros Hk. rewrite (take_S_r _ _ _ Hk), sum_list_with_app. simpl. lia.
Qed.

Lemma cluster_leaves m a b :
  wf m -> a < b < row_count m ->
  exists m', cluster a b m = Ok m' /\ total_leaves m' = total_leaves m.
Proof.
  intros Hwf [Hab Hb]. assert (a < row_count m) as Ha by lia.
  pose proof (wf_rowToCluster m Hwf) as Hlen.
  destruct (cluster_Ok m a b Hwf Ha Hb)
    as (cA & clA & cB & clB & Dba & x & M & M' & HcA & HclA & HcB & HclB & _
        & Hx & _ & _ & _ & Hcl).
  eexists. split; [exact Hcl |].
  rewrite list_lookup_insert_ne in Hx by lia.
  unfold total_leaves. simpl.
  set (n := row_count m) in *. set (rtc := rowToCluster m) in *.
  set (cs := clusters m) in *.
  set (p := parent_record cA clA cB clB Dba).
  set (A := leaf_count cs <$> take n rtc).
  assert (length A = n) as HlenA.
  { unfold A. rewrite length_fmap, length_take. lia. }
  assert (forall r c, r < n -> rtc !! r = Some c ->
            A !! r = Some (leaf_count cs c)
            /\ leaf_count (cs ++ [p]) c = leaf_count cs c) as HA.
  { intros r c Hr Hc. split.
    - unfold A. by rewrite list_lookup_fmap, lookup_take_lt, Hc.
    - unfold leaf_count. rewrite lookup_app_l; [done |].
      by apply (wf_clusters m Hwf r). }
  destruct (HA a cA Ha HcA) as [HAa _].
  destruct (HA b cB Hb HcB) as [HAb _].
  destruct (HA (n - 1) x ltac:(lia) Hx) as [HAx Hlx].
  assert (leaf_count (cs ++ [p]) (length cs)
          = leaf_count cs cA + leaf_count cs cB) as Hnew.
  { unfold leaf_count. rewrite lookup_app_r by lia.
    rewrite Nat.sub_diag. simpl. by rewrite HclA, HclB. }
  set (C := <[b := leaf_count cs x]>
              (<[a := leaf_count cs cA + leaf_count cs cB]> A)).
  assert (leaf_count (cs ++ [p])
            <$> take (n - 1) (<[b := x]> (<[a := length cs]> rtc))
          = take (n - 1) C) as ->.
  { apply list_eq. intros r. rewrite list_lookup_fmap.
    destruct (decide (r < n - 1)) as [Hr | Hr].
    - rewrite !lookup_take_lt by done. unfold C.
      destruct (decide (r = b)) as [-> | Hrb].
      + rewrite !list_lookup_insert_eq by (rewrite ?length_insert; lia).
        simpl. by rewrite Hlx.
      + rewrite !(list_lookup_insert_ne _ b) by done.
        destruct (decide (r = a)) as [-> | Hra].
        * rewrite !list_lookup_insert_eq by lia. simpl. by rewrite Hnew.
        * rewrite !list_lookup_insert_ne by done.
          destruct (lookup_lt_is_Some_2 rtc r) as [c Hc]; [lia |].
          destruct (HA r c ltac:(lia) Hc) as [HAr Hlr].
          rewrite Hc, HAr. simpl. by rewrite Hlr.
    - rewrite !lookup_take_ge by lia. done. }
  assert (C !! (n - 1) = Some (leaf_count cs x)) as HCx.
  { unfold C. destruct (decide (b = n - 1)) as [-> | Hbn].
    - apply list_lookup_insert_eq. rewrite length_insert. lia.
    - rewrite !list_lookup_insert_ne by lia. done. }
  assert (sum_list C = sum_list A + leaf_count cs x) as Hsum.
  { unfold C.
    pose proof (sum_list_insert A a (leaf_count cs cA + leaf_count cs cB)
                  _ HAa) as H1.
    assert (<[a := leaf_count cs cA + leaf_count cs cB]> A !! b
            = Some (leaf_count cs cB)) as HAb'
      by (by rewrite list_lookup_insert_ne by lia).
    pose proof (sum_list_insert _ b (leaf_count cs x) _ HAb') as H2. lia. }
  assert (sum_list (take n C) = sum_list (take (n - 1) C) + leaf_count cs x)
    as Hlast.
  { replace n with (S (n - 1)) at 1 by lia. by apply sum_list_take_last. }
  rewrite take_ge in Hlast by (unfold C; rewrite !length_insert; lia).
  lia.
Qed.

(** A join of two different live rows leaves the number of leaves under
    the live rows as it was. *)
Theorem cluster_conserves_leaves m a b :
  wf m -> a < b < row_count m ->
  exists m', cluster a b m = Ok m' /\ total_leaves m' = total_leaves m.
Proof. apply cluster_leaves. Qed.

Lemma cluster_conserves_leaves_witness :
  exists m', cluster 0 1 ex_tie = Ok m' /\ total_leaves m' = total_leaves ex_tie.
Proof.
  apply (cluster_conserves_leaves ex_tie 0 1).
  - apply wf_check_sound. vm_compute. reflexivity.
  - vm_compute. lia.
Defined.

(** ** The coalescing pass as a whole *)

Lemma initClusterToRow_full m :
  wf m -> one_row_each m ->
  exists c2r,
    initClusterToRow m = Ok c2r
    /\ length c2r = length (clusters m)
    /\ inverse_map c2r m
    /\ forall c, c < length (clusters m) -> ~ live m c ->
                 c2r !! c = Some notMappedToRow.
Proof.
  intros Hwf Hinj. unfold initClusterToRow.
  pose proof (wf_rowToCluster m Hwf) as Hlen.
  destruct (for_loop_inv
    (fun j (c2r : list Z) =>
       length c2r = length (clusters m)
       /\ (forall r c, r < j -> rowToCluster m !! r = Some c ->
                       c2r !! c = Some (Z.of_nat r))
       /\ forall c, c < length (clusters m) ->
            (forall r, r < j -> rowToCluster m !! r <> Some c) ->
            c2r !! c = Some notMappedToRow)
    0 (row_count m)
    (fun i c2r =>
       c <- at_ A_rowToCluster (rowToCluster m) i ;;
       store A_cluster_to_row c2r c (Z.of_nat i))
    (replicate (length (clusters m)) notMappedToRow))
    as (c2r & Hloop & Hl & Hmap & Hrest).
  - lia.
  - split; [by rewrite length_replicate |]. split; [intros r c Hr; lia |].
    intros c Hc _. by apply lookup_replicate_2.
  - intros j c2r Hj (Hl & Hmap & Hrest).
    destruct (at_lt A_rowToCluster (rowToCluster m) j) as (c & Hat & Hc); [lia |].
    rewrite Hat. cbn [bind].
    assert (c < length (clusters m)) as Hclt
      by (apply (wf_clusters m Hwf j); [lia | done]).
    rewrite store_lt by lia. eexists. split; [reflexivity |].
    split; [by rewrite length_insert |]. split.
    + intros r c' Hr Hc'. destruct (decide (r = j)) as [-> | Hne].
      * rewrite Hc in Hc'. injection Hc' as <-.
        apply list_lookup_insert_eq. lia.
      * rewrite list_lookup_insert_ne.
        -- apply Hmap; [lia | done].
        -- intros Heq. apply Hne.
           apply (Hinj r j c'); [lia | lia | done | by rewrite <- Heq].
    + intros c' Hc' Hno. rewrite list_lookup_insert_ne.
      * apply Hrest; [done |]. intros r Hr. apply Hno. lia.
      * intros Heq. apply (Hno j); [lia | by rewrite <- Heq].
  - exists c2r. split; [done |]. split; [done |]. split; [exact Hmap |].
    intros c Hc Hdead. apply Hrest; [done |].
    intros r Hr Hrc. apply Hdead. by exists r.
Qed.

(** Step 4 of [joinUpDuplicateClusters] builds the inverse of
    [rowToCluster]: one entry per recorded cluster, the row of every
    cluster that occupies a live row, and [notMappedToRow] for the
    others. *)
Theorem initClusterToRow_inverts m :
  wf m -> one_row_each m ->
  exists c2r,
    initClusterToRow m = Ok c2r
    /\ length c2r = length (clusters m)
    /\ inverse_map c2r m
    /\ forall c, c < length (clusters m) -> ~ live m c ->
                 c2r !! c = Some notMappedToRow.
Proof. apply initClusterToRow_full. Qed.

Lemma initClusterToRow_Ok m :
  wf m -> one_row_each m ->
  exists c2r,
    initClusterToRow m = Ok c2r
    /\ length c2r = length (clusters m)
    /\ inverse_map c2r m.
Proof.
  intros Hwf Hinj.
  destruct (initClusterToRow_full m Hwf Hinj) as (c2r & H1 & H2 & H3 & _).
  eauto.
Qed.

Lemma initClusterToRow_inverts_witness :
  exists c2r,
    initClusterToRow ex_zero = Ok c2r
    /\ length c2r = length (clusters ex_zero)
    /\ inverse_map c2r ex_zero
    /\ forall c, c < length (clusters ex_zero) -> ~ live ex_zero c ->
                 c2r !! c = Some notMappedToRow.
Proof.
  apply (initClusterToRow_inverts ex_zero).
  - apply wf_check_sound. vm_compute. reflexivity.
  - intros r1 r2 c H1 H2.
    do 4 (destruct r1 as [|r1];
          [do 4 (destruct r2 as [|r2];
                 [vm_compute; congruence |]);
           vm_compute in H2; lia |]).
    vm_compute in H1. lia.
Defined.

Lemma pairStep_others s0 sh i s s' z :
  pair_inv s0 sh i s -> i < sh -> i + sh < length (fst s0) ->
  pairStep sh i s = Ok s' ->
  live (dup_matrix (snd s)) z -> z ∉ fst s0 ->
  live (dup_matrix (snd s')) z.
Proof.
  destruct s as [vc [c2r m joins]].
  intros [Hwf Hlen Hinv Hrows _ Hvlen _ Htodo Hlive Hnodup _ _] Hi Hish Hs' Hz Hnot.
  cbn [fst snd dup_matrix cluster_to_row dup_joins] in *.
  destruct (lookup_lt_is_Some_2 vc i) as [x Hx]; [lia |].
  destruct (lookup_lt_is_Some_2 vc (i + sh)) as [y Hy]; [lia |].
  assert (in_play sh i i) as Hpi by (left; lia).
  assert (in_play sh i (i + sh)) as Hpy by (right; lia).
  destruct (Hlive i x Hpi Hx) as (rx & Hrx & Hcx).
  destruct (Hlive (i + sh) y Hpy Hy) as (ry & Hry & Hcy).
  assert (x <> y) as Hxy.
  { intros ->. pose proof (Hnodup i (i + sh) y Hpi Hpy Hx Hy). lia. }
  assert (rx <> ry) as Hrxy by (intros ->; congruence).
  destruct (pairStep_Ok vc c2r m joins sh i x y rx ry)
    as (a & b & xl & m' & Hab & Hcase & Hxl & Hcl & Hstep); try done.
  rewrite Hstep in Hs'. injection Hs' as <-.
  cbn [fst snd dup_matrix].
  destruct (cluster_effect m a b Hwf)
    as (m'' & xl' & p & Hcl' & _ & Hrc' & _ & Hxl' & Hrtc' & _); [lia | lia |].
  rewrite Hcl in Hcl'. injection Hcl' as <-.
  rewrite list_lookup_insert_ne in Hxl' by lia.
  rewrite Hxl in Hxl'. injection Hxl' as <-.
  assert (z <> x) as Hzx.
  { intros ->. apply Hnot. apply (list_elem_of_lookup_2 _ i).
    by rewrite <- (Htodo i). }
  assert (z <> y) as Hzy.
  { intros ->. apply Hnot. apply (list_elem_of_lookup_2 _ (i + sh)).
    rewrite <- (Htodo (i + sh)); [done | lia]. }
  apply (live_after_cluster m m' a b xl z); try done.
  - destruct Hcase as [[-> ->] | [-> ->]]; congruence.
  - destruct Hcase as [[-> ->] | [-> ->]]; congruence.
Qed.

Lemma pairLoop_others s0 sh z n :
  forall i s s',
    pair_inv s0 sh i s -> i + n <= sh -> i + n + sh <= length (fst s0) ->
    pairLoop n i sh s = Ok s' ->
    live (dup_matrix (snd s)) z -> z ∉ fst s0 ->
    live (dup_matrix (snd s')) z.
Proof.
  induction n as [|n IH]; intros i s s' Hinv Hn Hlen; cbn [pairLoop].
  - by intros [= <-].
  - destruct (3 <? row_count (dup_matrix (snd s))); [|by intros [= <-]].
    intros Hloop Hz Hnot.
    destruct (pairStep_inv s0 sh i s Hinv) as (s1 & Hstep & Hinv1); [lia | lia |].
    rewrite Hstep in Hloop. cbn [bind] in Hloop.
    apply (IH (S i) s1 s' Hinv1); [lia | lia | done | | done].
    apply (pairStep_others s0 sh i s s1 z); try done; lia.
Qed.

Lemma live_recorded m z : wf m -> live m z -> z < length (clusters m).
Proof. intros Hwf (r & Hr & Hz). by apply (wf_clusters m Hwf r). Qed.

(** A halving round leaves every other live cluster in a live row, and
    none of them enters the set. *)
Lemma halvingRound_others s s' z :
  dup_ok s -> halvingRound s = Ok s' ->
  live (dup_matrix (snd s)) z -> z ∉ fst s ->
  live (dup_matrix (snd s')) z /\ z ∉ fst s'.
Proof.
  intros Hok Hround Hz Hnot.
  pose proof (half_le (length (fst s))) as Hhalf.
  set (sh := length (fst s) - length (fst s) / 2) in *.
  destruct (pairLoop_inv s sh (length (fst s) / 2) 0 s (pair_inv_start s sh Hok))
    as (s1 & Hloop & Hinv); [unfold sh; lia | unfold sh; lia |].
  unfold halvingRound in Hround. fold sh in Hround.
  rewrite Hloop in Hround. cbn [bind] in Hround. injection Hround as <-.
  cbn [fst snd]. split.
  - apply (pairLoop_others s sh z (length (fst s) / 2) 0 s s1);
      try done; [by apply pair_inv_start | unfold sh; lia | unfold sh; lia].
  - rewrite resize_le
      by (rewrite (pi_vc_len _ _ _ _ Hinv); unfold sh; lia).
    intros Hin. apply list_elem_of_lookup in Hin as [p Hp].
    apply lookup_take_Some in Hp as [Hp Hpl].
    set (j := 0 + Nat.min (length (fst s) / 2)
                          (row_count (dup_matrix (snd s)) - 3)) in *.
    destruct (decide (p < j)) as [Hlt | Hge].
    + rewrite (pi_done _ _ _ _ Hinv p Hlt) in Hp. injection Hp as Hp.
      pose proof (live_recorded _ z (dup_wf _ Hok) Hz). lia.
    + rewrite (pi_todo _ _ _ _ Hinv p) in Hp by lia.
      apply Hnot. by apply (list_elem_of_lookup_2 _ p).
Qed.

(** The halving loop on one duplicate set. *)
Lemma halveLoop_full fuel :
  forall s,
    dup_ok s -> length (fst s) <= fuel ->
    exists s',
      halveLoop fuel s = Ok s' /\ dup_ok s'
      /\ Nat.min 3 (row_count (dup_matrix (snd s)))
         <= row_count (dup_matrix (snd s'))
      /\ (exists tr,
            dup_joins (snd s') = dup_joins (snd s) ++ tr
            /\ Forall (fun ab : nat * nat => fst ab < snd ab) tr
            /\ row_count (dup_matrix (snd s')) + length tr
               = row_count (dup_matrix (snd s))
            /\ length (clusters (dup_matrix (snd s')))
               = length (clusters (dup_matrix (snd s))) + length tr)
      /\ forall z, live (dup_matrix (snd s)) z -> z ∉ fst s ->
                   live (dup_matrix (snd s')) z.
Proof.
  induction fuel as [|fuel IH]; intros s Hok Hfuel.
  - exists s. cbn [halveLoop].
    replace (1 <? length (fst s)) with false
      by (symmetry; apply Nat.ltb_ge; lia).
    split; [done |]. split; [done |]. split; [lia |]. split; [|done].
    exists []. rewrite app_nil_r. simpl. split; [done |]. split; [done | lia].
  - cbn [halveLoop].
    destruct ((1 <? length (fst s)) && (3 <? row_count (dup_matrix (snd s))))
      eqn:Hcond.
    + apply andb_true_iff in Hcond as [Hk Hrc]. apply Nat.ltb_lt in Hk, Hrc.
      destruct (halvingRound_Ok s Hok)
        as (s1 & Hround & Hok1 & Hlen1 & Hrc1 & Hcs1 & _ & _ & tr1 & Htr1 & Hl1 & Hlt1).
      rewrite Hround. cbn [bind].
      destruct (IH s1 Hok1)
        as (s' & Hloop & Hok' & Hmin & (tr & Htr & Hlt & Hrows & Hcs) & Hothers).
      { rewrite Hlen1. pose proof (half_up (length (fst s))).
        pose proof (Nat.div_mod_eq (length (fst s)) 2).
        pose proof (Nat.mod_upper_bound (length (fst s)) 2). lia. }
      exists s'. split; [done |]. split; [done |]. split; [lia |]. split.
      * exists (tr1 ++ tr). rewrite Htr, Htr1, <- app_assoc, length_app.
        split; [done |]. split; [by apply Forall_app |]. lia.
      * intros z Hz Hnot.
        destruct (halvingRound_others s s1 z Hok Hround Hz Hnot) as [Hz1 Hnot1].
        by apply Hothers.
    + exists s. split; [done |]. split; [done |]. split; [lia |].
      split; [|done].
      exists []. rewrite app_nil_r. simpl. split; [done |]. split; [done | lia].
Qed.

Lemma groups_ok_cons vc rest d :
  wf (dup_matrix d) ->
  length (cluster_to_row d) = length (clusters (dup_matrix d)) ->
  inverse_map (cluster_to_row d) (dup_matrix d) ->
  groups_ok (vc :: rest) (dup_matrix d) ->
  dup_ok (vc, d)
  /\ NoDup (concat rest)
  /\ forall x, x ∈ concat rest -> live (dup_matrix d) x /\ x ∉ vc.
Proof.
  intros Hwf Hlen Hinv [Hnd Hlive]. simpl in Hnd, Hlive.
  apply NoDup_app in Hnd as (Hvc & Hdisj & Hrest).
  split; [|split; [done |]].
  - split; cbn [fst snd]; try done.
    intros x Hx. apply Hlive. apply elem_of_app. by left.
  - intros x Hx. split.
    + apply Hlive. apply elem_of_app. by right.
    + intros Hin. by apply (Hdisj x).
Qed.

Lemma dupSets_Ok vvc :
  forall acc d,
    wf (dup_matrix d) ->
    length (cluster_to_row d) = length (clusters (dup_matrix d)) ->
    inverse_map (cluster_to_row d) (dup_matrix d) ->
    groups_ok vvc (dup_matrix d) ->
    (0 <= acc < 2 ^ 64)%Z ->
    exists acc' d',
      dupSets vvc (acc, d) = Ok (acc', d')
      /\ wf (dup_matrix d')
      /\ Nat.min 3 (row_count (dup_matrix d)) <= row_count (dup_matrix d')
      /\ (exists tr,
            dup_joins d' = dup_joins d ++ tr
            /\ Forall (fun ab : nat * nat => fst ab < snd ab) tr
            /\ row_count (dup_matrix d') + length tr = row_count (dup_matrix d)
            /\ length (clusters (dup_matrix d'))
               = length (clusters (dup_matrix d)) + length tr)
      /\ (0 <= acc' < 2 ^ 64)%Z
      /\ (acc' mod 2 ^ 64
          = (acc + foldr (fun vc a => Z.of_nat (length vc) - 1 + a) 0 vvc)
            mod 2 ^ 64)%Z.
Proof.
  induction vvc as [|vc rest IH]; intros acc d Hwf Hlen Hinv Hgroups Hacc.
  - exists acc, d. cbn [dupSets foldr]. split; [done |]. split; [done |].
    split; [lia |]. split; [|split; [done | by rewrite Z.add_0_r]].
    exists []. rewrite app_nil_r. cbn [length].
    split; [done |]. split; [done | lia].
  - destruct (groups_ok_cons vc rest d Hwf Hlen Hinv Hgroups)
      as (Hok & Hnd & Hrest).
    destruct (halveLoop_full (length vc) (vc, d) Hok)
      as (s1 & Hloop & Hok1 & Hmin1 & (tr1 & Htr1 & Hlt1 & Hrows1 & Hcs1) & Hothers);
      [done |].
    cbn [fst snd] in *.
    set (acc1 := ((acc + (Z.of_nat (length vc) - 1)) mod 2 ^ 64)%Z).
    destruct (IH acc1 (snd s1))
      as (acc' & d' & Hsets & Hwf' & Hmin & (tr & Htr & Hlt & Hrows & Hcs)
          & Hacc' & Hmod).
    + apply (dup_wf _ Hok1).
    + apply (dup_len _ Hok1).
    + apply (dup_inverse _ Hok1).
    + split; [done |]. intros x Hx. destruct (Hrest x Hx) as [Hlive Hnot].
      by apply Hothers.
    + unfold acc1. apply Z.mod_pos_bound. lia.
    + exists acc', d'. split.
      { cbn [dupSets]. unfold dupSetStep. cbn [fst snd].
        rewrite Hloop. cbn [bind]. exact Hsets. }
      split; [done |]. split; [lia |]. split; [|split; [done |]].
      * exists (tr1 ++ tr). rewrite Htr, Htr1, <- app_assoc, length_app.
        split; [done |]. split; [by apply Forall_app |]. lia.
      * rewrite Hmod. unfold acc1. simpl.
        rewrite Zplus_mod_idemp_l. f_equal. lia.
Qed.

Lemma one_row_each_of_inverse (c2r : list Z) m : inverse_map c2r m -> one_row_each m.
Proof.
  intros Hinv r1 r2 c H1 H2 Hc1 Hc2.
  pose proof (Hinv r1 c H1 Hc1) as E1. pose proof (Hinv r2 c H2 Hc2) as E2.
  rewrite E1 in E2. injection E2 as E. lia.
Qed.

Lemma groups_ok_of_dup_ok vvc d :
  dup_ok (concat vvc, d) -> groups_ok vvc (dup_matrix d).
Proof. intros [_ _ _ Hnd Hlive]. by split. Qed.

Lemma clusterDuplicates_full vvc m :
  wf m -> one_row_each m -> groups_ok vvc m ->
  exists joins m' d',
    clusterDuplicates vvc m = Ok (joins, m')
    /\ joinUpDuplicateClusters vvc m = Ok (dupes_total vvc, d')
    /\ wf m'
    /\ Nat.min 3 (row_count m) <= row_count m'
    /\ row_count m' + length joins = row_count m
    /\ length (clusters m') = length (clusters m) + length joins
    /\ Forall (fun ab : nat * nat => fst ab < snd ab) joins.
Proof.
  intros Hwf Hinj Hgroups.
  assert (exists acc' d',
            joinUpDuplicateClusters vvc m = Ok (acc', d')
            /\ acc' = dupes_total vvc
            /\ wf (dup_matrix d')
            /\ Nat.min 3 (row_count m) <= row_count (dup_matrix d')
            /\ row_count (dup_matrix d') + length (dup_joins d') = row_count m
            /\ length (clusters (dup_matrix d'))
               = length (clusters m) + length (dup_joins d')
            /\ Forall (fun ab : nat * nat => fst ab < snd ab) (dup_joins d'))
    as (acc' & d' & Hjoin & -> & Hwf' & Hmin & Hrows & Hcs & Hlt).
  { destruct vvc as [|vc rest].
    - exists 0%Z, (mkDup [] m []).
      cbn [joinUpDuplicateClusters dup_matrix dup_joins length].
      split; [done |]. split; [done |].
      split; [done |]. split; [lia |]. split; [lia |]. split; [lia | done].
    - destruct (initClusterToRow_Ok m Hwf Hinj) as (c2r & Hinit & Hlen & Hinv).
      destruct (dupSets_Ok (vc :: rest) 0 (mkDup c2r m []) Hwf Hlen Hinv
                  Hgroups ltac:(lia))
        as (acc' & d' & Hsets & Hwf' & Hmin & (tr & Htr & Hlt & Hrows & Hcs)
            & Hacc' & Hmod).
      simpl in Htr. subst tr. cbn [dup_matrix dup_joins] in *.
      exists acc', d'. split.
      { unfold joinUpDuplicateClusters. rewrite Hinit. cbn [bind]. exact Hsets. }
      split; [|done].
      unfold dupes_total. rewrite <- (Z.mod_small acc' (2 ^ 64)) by lia.
      rewrite Hmod. by rewrite Z.add_0_l. }
  exists (dup_joins d'), (dup_matrix d'), d'.
  split; [|done]. unfold clusterDuplicates. by rewrite Hjoin.
Qed.

(** The coalescing pass: when no cluster occupies two rows and the groups
    are disjoint sets of clusters in live rows, [clusterDuplicates]
    returns; the matrix stays well-formed; every call of [cluster] it makes
    has its first argument below the second, removes one row and appends
    one record; [row_count] does not come below 3 (nor rise); and the count
    reported by [joinUpDuplicateClusters] is the sum of the group sizes
    less one each, as a [size_t], however many joins were made. *)
Theorem clusterDuplicates_pass vvc m :
  wf m -> one_row_each m -> groups_ok vvc m ->
  exists joins m' d',
    clusterDuplicates vvc m = Ok (joins, m')
    /\ joinUpDuplicateClusters vvc m = Ok (dupes_total vvc, d')
    /\ wf m'
    /\ Nat.min 3 (row_count m) <= row_count m'
    /\ row_count m' + length joins = row_count m
    /\ length (clusters m') = length (clusters m) + length joins
    /\ Forall (fun ab : nat * nat => fst ab < snd ab) joins.
Proof. apply clusterDuplicates_full. Qed.

Lemma clusterDuplicates_pass_witness :
  exists joins m' d',
    clusterDuplicates [[0; 1; 2]; [3; 4; 5]] ex_zero6 = Ok (joins, m')
    /\ joinUpDuplicateClusters [[0; 1; 2]; [3; 4; 5]] ex_zero6
       = Ok (dupes_total [[0; 1; 2]; [3; 4; 5]], d')
    /\ wf m'
    /\ Nat.min 3 (row_count ex_zero6) <= row_count m'
    /\ row_count m' + length joins = row_count ex_zero6
    /\ length (clusters m') = length (clusters ex_zero6) + length joins
    /\ Forall (fun ab : nat * nat => fst ab < snd ab) joins.
Proof.
  assert (dup_ok ex_dup6) as Hok
    by (apply dup_check_sound; vm_compute; reflexivity).
  apply (clusterDuplicates_pass [[0; 1; 2]; [3; 4; 5]] ex_zero6).
  - apply (dup_wf _ Hok).
  - apply (one_row_each_of_inverse _ _ (dup_inverse _ Hok)).
  - apply (groups_ok_of_dup_ok [[0; 1; 2]; [3; 4; 5]] (snd ex_dup6) Hok).
Defined.

(** ** Storage of rank [N] *)

Lemma within_wf N m : within N m -> wf m.
Proof.
  intros [Hc [Hd1 Hd2] Hm Hcl]. split.
  - lia.
  - eapply Forall_impl; [exact Hd2 |]. simpl. intros rowData. lia.
  - lia.
  - intros r c _ Hr. by apply (Forall_lookup_1 _ _ _ _ Hcl Hr).
Qed.

(** ** What [loadMatrix] establishes *)

Lemma sum_list_ones (f : nat -> nat) l :
  Forall (fun i => f i = 1) l -> sum_list (f <$> l) = length l.
Proof.
  induction 1 as [|i l Hi _ IH]; [done |]. rewrite fmap_cons.
  change (sum_list (f i :: (f <$> l))) with (f i + sum_list (f <$> l)).
  rewrite Hi, IH. done.
Qed.

(** The state that [loadMatrix] returns is inside storage of rank
    [names.size()], has every cluster in one row, has one leaf per name
    under its live rows, and keeps [isRooted]; on it the groups are
    acceptable to the coalescing pass as soon as they are disjoint sets of
    taxon numbers. *)
Theorem loadMatrix_ready names (matrix : list T) m0 vvc :
  length names * length names <= length matrix ->
  NoDup (concat vvc) -> Forall (fun x => x < length names) (concat vvc) ->
  exists m,
    loadMatrix names matrix m0 = Ok (true, m)
    /\ within (length names) m
    /\ one_row_each m
    /\ groups_ok vvc m
    /\ total_leaves m = length names
    /\ isRooted m = isRooted m0.
Proof.
  intros Hlen Hnd Hall.
  destruct (loadDistances_Ok matrix (length names)
              (replicate (length names) (replicate (length names) zero))
              Hlen (dims_replicate _)) as (M & Hload & Hd & _).
  eexists. split.
  { unfold loadMatrix, loadDistancesFromFlatArray. simpl.
    rewrite Hload. cbn [bind]. rewrite addCluster_foldl. reflexivity. }
  simpl. split; [|split; [|split; [|split; [|done]]]].
  - split; simpl.
    + done.
    + done.
    + by rewrite length_seq.
    + rewrite length_fmap. apply Forall_forall. intros c Hc.
      apply elem_of_seq in Hc. lia.
  - intros r1 r2 c _ _ H1 H2. simpl in H1, H2.
    apply lookup_seq in H1, H2. lia.
  - split; [done |]. intros x Hx. exists x. simpl.
    pose proof (proj1 (Forall_forall _ _) Hall x Hx) as Hlt. simpl in Hlt.
    split; [done |]. by apply lookup_seq_lt.
  - unfold total_leaves. simpl.
    rewrite take_ge by (rewrite length_seq; lia).
    rewrite sum_list_ones; [by rewrite length_seq |].
    apply Forall_forall. intros i Hi. apply elem_of_seq in Hi.
    unfold leaf_count. rewrite list_lookup_fmap.
    destruct (lookup_lt_is_Some_2 names i) as [name ->]; [lia |]. done.
Qed.

Lemma loadMatrix_ready_witness :
  exists m,
    loadMatrix ["A"; "B"; "C"; "D"; "E"; "F"]%string (replicate 36 zero)
               UPGMA_Matrix0 = Ok (true, m)
    /\ within 6 m
    /\ one_row_each m
    /\ groups_ok [[0; 1; 2]; [3; 4; 5]] m
    /\ total_leaves m = 6
    /\ isRooted m = isRooted UPGMA_Matrix0.
Proof.
  apply (loadMatrix_ready ["A"; "B"; "C"; "D"; "E"; "F"]%string
           (replicate 36 zero) UPGMA_Matrix0 [[0; 1; 2]; [3; 4; 5]]).
  - simpl. lia.
  - apply (proj1 (bool_decide_eq_true _)). vm_compute. reflexivity.
  - simpl. repeat (constructor; [lia |]). constructor.
Defined.

(** ** The wide-lane scanner on short rows *)

Lemma for_range_ext {S} (f g : nat -> S -> result S) n :
  forall i s,
    (forall j t, i <= j < i + n -> f j t = g j t) ->
    for_range n i f s = for_range n i g s.
Proof.
  induction n as [|n IH]; intros i s Hext; [done |]. cbn [for_range].
  rewrite (Hext i s) by lia. destruct (g i s) as [s1|e]; [|done].
  cbn [bind]. apply IH. intros j t Hj. apply Hext. lia.
Qed.

Lemma blockLoop_stop fuel rowData nums r s :
  r <= fst (fst s) + Vectorized.blockSize ->
  Vectorized.blockLoop fuel rowData nums r s = Ok s.
Proof.
  intros Hle.
  assert ((fst (fst s) + Vectorized.blockSize <? r) = false) as Hlt
    by (apply Nat.ltb_ge; lia).
  destruct fuel; cbn [Vectorized.blockLoop]; by rewrite Hlt.
Qed.

(** The tail loop is the scalar inner loop on the pair
    [(pos.column, pos.value)]. *)
Lemma tail_is_scan rowData n :
  forall i pos,
    for_range n i (Vectorized.tailStep rowData) pos
    = (best <- for_range n i (scanStep rowData) (column pos, value pos) ;;
       Ok (mkPosition (row pos) (fst best) (snd best) (imbalance pos))).
Proof.
  induction n as [|n IH]; intros i pos; cbn [for_range].
  - by destruct pos.
  - unfold Vectorized.tailStep at 1, scanStep at 1. cbn [fst snd].
    destruct (at_ A_rowData rowData i) as [dist|e]; [|done]. cbn [bind].
    rewrite IH. by destruct (flt dist (value pos)).
Qed.

Lemma scanRow_short m nums r rm :
  r <= Vectorized.blockSize -> Vectorized.scanRow m nums r rm = scanRow m r rm.
Proof.
  intros Hr. unfold Vectorized.scanRow, scanRow.
  destruct (at_ A_rows (rows m) r) as [rowData|e]; [|done]. cbn [bind].
  rewrite blockLoop_stop by (cbn [fst]; lia). cbn [bind fst snd].
  replace (for_loop 0 Vectorized.blockSize
             (Vectorized.extractStep (Vectorized.broadcast infiniteDistance)
                                     (Vectorized.broadcast minus_one))
             (mkPosition r 0 infiniteDistance 0))
    with (Ok (mkPosition r 0 infiniteDistance 0) : result Position)
    by reflexivity.
  cbn [bind]. unfold for_loop. rewrite tail_is_scan. cbn [row column value imbalance].
  destruct (for_range (r - 0) 0 (scanStep rowData) (0, infiniteDistance))
    as [best|e]; [|done].
  reflexivity.
Qed.

(** As long as no row has more than [blockSize] columns to scan, that is
    up to [blockSize + 1] rows, the block loop is never entered and the
    override computes what the scalar [getRowMinima] computes, failures
    included, whatever the matrix and the scratch lane hold. *)
Theorem getRowMinima_short skip v :
  row_count (Vectorized.base v) <= S Vectorized.blockSize ->
  Vectorized.getRowMinima skip v
  = (m' <- getRowMinima (Vectorized.base v) ;;
     Ok (Vectorized.mkVectorized m' (Vectorized.scratchColumnNumbers v))).
Proof.
  intros Hn. unfold Vectorized.getRowMinima, getRowMinima.
  destruct (at_ A_rowMinima (resize (row_count (Vectorized.base v)) Position0
                               (rowMinima (Vectorized.base v))) 0) as [p0|e]; [|done].
  cbn [bind].
  destruct (store A_rowMinima _ 0 (set_value p0 infiniteDistance)) as [rm|e];
    [|done].
  cbn [bind]. unfold for_loop.
  rewrite (for_range_ext
             (Vectorized.scanRow (Vectorized.base v)
                (drop skip (Vectorized.scratchColumnNumbers v)))
             (scanRow (Vectorized.base v))).
  - by destruct (for_range _ 1 (scanRow (Vectorized.base v)) rm).
  - intros j t Hj. apply scanRow_short. lia.
Qed.

Lemma getRowMinima_short_witness :
  Vectorized.getRowMinima 0 (Vectorized.mkVectorized ex_tie [])
  = (m' <- getRowMinima ex_tie ;; Ok (Vectorized.mkVectorized m' [])).
Proof.
  apply (getRowMinima_short 0 (Vectorized.mkVectorized ex_tie [])).
  vm_compute. lia.
Defined.

(** ** How many joins the coalescing pass makes *)

Lemma halveLoop_count fuel :
  forall s s',
    dup_ok s -> halveLoop fuel s = Ok s' ->
    length (dup_joins (snd s'))
    = length (dup_joins (snd s))
      + Nat.min (length (fst s) - 1) (row_count (dup_matrix (snd s)) - 3).
Proof.
  induction fuel as [|fuel IH]; intros s s' Hok; cbn [halveLoop];
    destruct ((1 <? length (fst s)) && (3 <? row_count (dup_matrix (snd s))))
      eqn:Hcond; try discriminate.
  - intros [= <-]. apply andb_false_iff in Hcond as [H | H];
      apply Nat.ltb_ge in H; lia.
  - apply andb_true_iff in Hcond as [Hk Hrc]. apply Nat.ltb_lt in Hk, Hrc.
    destruct (halvingRound_Ok s Hok)
      as (s1 & Hround & Hok1 & Hlen1 & Hrc1 & _ & _ & _ & tr1 & Htr1 & Hl1 & _).
    rewrite Hround. cbn [bind]. intros Hloop.
    rewrite (IH s1 s' Hok1 Hloop), Htr1, length_app, Hl1, Hlen1, Hrc1.
    pose proof (Nat.div_mod_eq (length (fst s)) 2).
    pose proof (Nat.mod_upper_bound (length (fst s)) 2).
    lia.
  - intros [= <-]. apply andb_false_iff in Hcond as [H | H];
      apply Nat.ltb_ge in H; lia.
Qed.

Lemma dupSets_count vvc :
  forall acc d s',
    wf (dup_matrix d) ->
    length (cluster_to_row d) = length (clusters (dup_matrix d)) ->
    inverse_map (cluster_to_row d) (dup_matrix d) ->
    groups_ok vvc (dup_matrix d) ->
    dupSets vvc (acc, d) = Ok s' ->
    length (dup_joins (snd s'))
    = length (dup_joins d)
      + Nat.min (sum_list ((fun vc : list nat => length vc - 1) <$> vvc))
                (row_count (dup_matrix d) - 3).
Proof.
  induction vvc as [|vc rest IH]; intros acc d s' Hwf Hlen Hinv Hgroups;
    cbn [dupSets].
  - intros [= <-]. simpl. lia.
  - intros Hsets.
    destruct (groups_ok_cons vc rest d Hwf Hlen Hinv Hgroups)
      as (Hok & Hnd & Hrest).
    destruct (halveLoop_full (length vc) (vc, d) Hok)
      as (s1 & Hloop & Hok1 & _ & (tr1 & Htr1 & _ & Hrows1 & _) & Hothers);
      [done |].
    pose proof (halveLoop_count _ _ _ Hok Hloop) as Hcount1.
    unfold dupSetStep in Hsets. cbn [fst snd] in *.
    rewrite Hloop in Hsets. cbn [bind] in Hsets.
    rewrite (IH _ (snd s1) s' (dup_wf _ Hok1) (dup_len _ Hok1)
                (dup_inverse _ Hok1)) by
      (first [exact Hsets
             | split; [done |]; intros x Hx;
               destruct (Hrest x Hx) as [Hlive Hnot]; by apply Hothers]).
    rewrite fmap_cons.
    change (sum_list ((length vc - 1)
                      :: ((fun vc0 : list nat => length vc0 - 1) <$> rest)))
      with (length vc - 1
            + sum_list ((fun vc0 : list nat => length vc0 - 1) <$> rest)).
    rewrite Htr1, length_app in Hcount1. rewrite Htr1, length_app. lia.
Qed.

Lemma clusterDuplicates_count_Ok vvc m joins m' :
  wf m -> one_row_each m -> groups_ok vvc m ->
  clusterDuplicates vvc m = Ok (joins, m') ->
  length joins
  = Nat.min (sum_list ((fun vc : list nat => length vc - 1) <$> vvc))
            (row_count m - 3).
Proof.
  intros Hwf Hinj Hgroups Hdup. unfold clusterDuplicates in Hdup.
  apply bind_Ok in Hdup as (r & Hjoin & Hdup). injection Hdup as <- _.
  unfold joinUpDuplicateClusters in Hjoin. destruct vvc as [|vc rest].
  - injection Hjoin as <-. simpl. lia.
  - destruct (initClusterToRow_Ok m Hwf Hinj) as (c2r & Hinit & Hlen & Hinv).
    rewrite Hinit in Hjoin. cbn [bind] in Hjoin.
    by rewrite (dupSets_count (vc :: rest) 0%Z (mkDup c2r m []) r Hwf Hlen Hinv
                  Hgroups Hjoin).
Qed.

(** The number of calls of [cluster] that the coalescing pass makes: one
    fewer than its size for each group, for as long as more than three
    rows are left; each call removes one row.  (The count that
    [joinUpDuplicateClusters] reports does not look at the rows.) *)
Theorem clusterDuplicates_count vvc m :
  wf m -> one_row_each m -> groups_ok vvc m ->
  exists joins m',
    clusterDuplicates vvc m = Ok (joins, m')
    /\ length joins
       = Nat.min (sum_list ((fun vc : list nat => length vc - 1) <$> vvc))
                 (row_count m - 3)
    /\ row_count m' = row_count m - length joins.
Proof.
  intros Hwf Hinj Hgroups.
  destruct (clusterDuplicates_full vvc m Hwf Hinj Hgroups)
    as (joins & m' & _ & Hdup & _ & _ & _ & Hrows & _).
  exists joins, m'. split; [done |]. split; [|lia].
  by apply (clusterDuplicates_count_Ok vvc m joins m').
Qed.

Lemma clusterDuplicates_count_witness :
  exists joins m',
    clusterDuplicates [[0; 1; 2]; [3; 4; 5]] ex_zero6 = Ok (joins, m')
    /\ length joins
       = Nat.min (sum_list ((fun vc : list nat => length vc - 1)
                            <$> [[0; 1; 2]; [3; 4; 5]]))
                 (row_count ex_zero6 - 3)
    /\ row_count m' = row_count ex_zero6 - length joins.
Proof.
  assert (dup_ok ex_dup6) as Hok
    by (apply dup_check_sound; vm_compute; reflexivity).
  apply (clusterDuplicates_count [[0; 1; 2]; [3; 4; 5]] ex_zero6).
  - apply (dup_wf _ Hok).
  - apply (one_row_each_of_inverse _ _ (dup_inverse _ Hok)).
  - apply (groups_ok_of_dup_ok [[0; 1; 2]; [3; 4; 5]] (snd ex_dup6) Hok).
Defined.

(** ** One pass through the main loop *)

(** One pass through the body of the main loop of [constructTree], on a
    well-formed state in which some entry of the live lower triangle lies
    below the sentinel: [getMinimumEntry] returns a least entry of the
    live lower triangle at a place with [column < row < row_count];
    [cluster] is called on exactly that pair, returns, removes one row,
    appends one record, keeps the state well-formed, [isRooted] and the
    number of leaves under the live rows, and keeps the live window
    symmetric if it was; the loop goes on from there. *)
Theorem main_loop_iteration fuel degree best m :
  wf m -> joinable m -> degree < row_count m ->
  exists best' rm m2,
    getMinimumEntry best m = Ok (best', set_rowMinima rm m)
    /\ column best' < row best' < row_count m
    /\ mget (rows m) (row best') (column best') = Ok (value best')
    /\ (forall r c x, c < r < row_count m -> mget (rows m) r c = Ok x ->
                      flt x (value best') = false)
    /\ cluster (column best') (row best') (set_rowMinima rm m) = Ok m2
    /\ wf m2
    /\ row_count m2 = row_count m - 1
    /\ length (clusters m2) = length (clusters m) + 1
    /\ isRooted m2 = isRooted m
    /\ total_leaves m2 = total_leaves m
    /\ (symmetric (row_count m) (rows m) -> symmetric (row_count m2) (rows m2))
    /\ joinLoop (S fuel) degree best m
       = (r' <- joinLoop fuel degree best' m2 ;;
          Ok ((column best', row best') :: fst (fst r'), snd (fst r'), snd r')).
Proof.
  intros Hwf Hjoin Hdeg.
  assert (2 <= row_count m) as Hn.
  { destruct Hjoin as (r & c & x & Hrc & _). lia. }
  destruct (getMinimumEntry_least m best Hwf) as (b & rm & Hmin & Hleast & Hsel & _);
    [lia |].
  destruct (Hsel Hjoin) as (Hplace & _ & Hentry & _).
  pose proof (wf_set_rowMinima rm m Hwf) as Hwf1.
  destruct (cluster_effect (set_rowMinima rm m) (column b) (row b) Hwf1)
    as (m2 & xl & p & Hcl & Hwf2 & Hrc2 & Hcs2 & _ & _ & Hroot2);
    [simpl; lia | simpl; lia |].
  destruct (cluster_leaves (set_rowMinima rm m) (column b) (row b) Hwf1)
    as (m2' & Hcl' & Hleaves); [simpl; lia |].
  rewrite Hcl in Hcl'. injection Hcl' as <-.
  exists b, rm, m2. split; [done |]. split; [done |]. split; [done |].
  split; [done |]. split; [done |]. split; [done |]. split; [done |].
  split; [rewrite Hcs2, length_app; simpl; lia |].
  split; [done |]. split; [done |]. split.
  - intros Hsym.
    destruct (cluster_symmetric (set_rowMinima rm m) (column b) (row b) Hwf1)
      as (m2' & Hcl' & _ & _ & Hsym2); [simpl; lia | simpl; lia | done |].
    rewrite Hcl in Hcl'. by injection Hcl' as <-.
  - cbn [joinLoop].
    replace (degree <? row_count m) with true
      by (symmetry; apply Nat.ltb_lt; lia).
    rewrite Hmin. cbn [bind fst snd]. rewrite Hcl. reflexivity.
Qed.

(** The first round of the rooted construction on [ex_tie]. *)
Lemma main_loop_iteration_witness :
  exists best' rm m2,
    getMinimumEntry Position0 ex_tie = Ok (best', set_rowMinima rm ex_tie)
    /\ column best' < row best' < row_count ex_tie
    /\ mget (rows ex_tie) (row best') (column best') = Ok (value best')
    /\ (forall r c x, c < r < row_count ex_tie -> mget (rows ex_tie) r c = Ok x ->
                      flt x (value best') = false)
    /\ cluster (column best') (row best') (set_rowMinima rm ex_tie) = Ok m2
    /\ wf m2
    /\ row_count m2 = row_count ex_tie - 1
    /\ length (clusters m2) = length (clusters ex_tie) + 1
    /\ isRooted m2 = isRooted ex_tie
    /\ total_leaves m2 = total_leaves ex_tie
    /\ (symmetric (row_count ex_tie) (rows ex_tie) ->
        symmetric (row_count m2) (rows m2))
    /\ joinLoop 4 2 Position0 ex_tie
       = (r' <- joinLoop 3 2 best' m2 ;;
          Ok ((column best', row best') :: fst (fst r'), snd (fst r'), snd r')).
Proof.
  apply (main_loop_iteration 3 2 Position0 ex_tie).
  - apply wf_check_sound. vm_compute. reflexivity.
  - exists 1, 0, one. split; [vm_compute; lia |].
    split; vm_compute; reflexivity.
  - vm_compute. lia.
Defined.

(** ** How [constructTree] ends on three rows or fewer *)

Lemma joinLoop_step fuel degree best m :
  degree < row_count m ->
  joinLoop (S fuel) degree best m
  = (r <- getMinimumEntry best m ;;
     m' <- cluster (column (fst r)) (row (fst r)) (snd r) ;;
     r' <- joinLoop fuel degree (fst r) m' ;;
     Ok ((column (fst r), row (fst r)) :: fst (fst r'), snd (fst r'), snd r')).
Proof.
  intros Hlt. cbn [joinLoop].
  replace (degree <? row_count m) with true
    by (symmetry; apply Nat.ltb_lt; lia).
  reflexivity.
Qed.

Lemma finishClustering_outcome m :
  wf m ->
  finishClustering m
  = Err (if (row_count m =? 2) || (row_count m =? 3)
         then OutOfBounds A_weights else AssertionFailed).
Proof.
  intros Hwf. unfold finishClustering.
  destruct ((row_count m =? 2) || (row_count m =? 3)) eqn:Hn; cbn [negb]; [|done].
  assert (exists k, row_count m = S k) as [k Hk].
  { destruct (row_count m); [discriminate | eauto]. }
  destruct (wf_cluster m 0 Hwf) as (c & cl & Hc & Hcl); [lia |].
  rewrite Hk. unfold for_loop. cbn [Nat.sub for_range]. unfold weighStep.
  rewrite (at_lookup _ _ _ _ Hc). cbn [bind].
  rewrite (at_lookup _ _ _ _ Hcl). cbn [bind fst]. reflexivity.
Qed.

(** On a well-formed state with three live rows or fewer, [constructTree]
    ends in one of two ways, whatever the distances and the duplicate
    groups are: with fewer than two rows the check at the head of
    [finishClustering] fails; with two or three the coalescing pass joins
    nothing, the main loop makes at most one join (rooted, three rows),
    and the first assignment into the empty [weights] is out of bounds. *)
Theorem constructTree_outcome vvc m :
  wf m -> row_count m <= 3 ->
  constructTree vvc m
  = Err (if row_count m <? 2 then AssertionFailed else OutOfBounds A_weights).
Proof.
  intros Hwf Hn. unfold constructTree, joinPhase.
  rewrite clusterDuplicates_few by done. cbn [bind fst snd].
  destruct (decide (row_count m <= (if isRooted m then 2 else 3))) as [Hle | Hgt].
  - rewrite joinLoop_stop by done. cbn [bind snd].
    rewrite finishClustering_outcome by done.
    destruct (row_count m) as [|[|[|[|k]]]]; try reflexivity.
    exfalso. lia.
  - assert (isRooted m = true /\ row_count m = 3) as [Hroot Hrc].
    { destruct (isRooted m); split; try done; lia. }
    rewrite Hroot, Hrc. rewrite (joinLoop_step 2 2 Position0 m) by lia.
    destruct (getMinimumEntry_Ok m Position0 Hwf) as (b & rm & Hmin & Hb);
      [lia |].
    rewrite Hmin. cbn [bind fst snd].
    destruct (cluster_effect (set_rowMinima rm m) (column b) (row b)
                (wf_set_rowMinima rm m Hwf))
      as (m2 & xl & p & Hcl & Hwf2 & Hrc2 & _);
      [destruct Hb as [-> | (? & ? & _)]; simpl; lia
      |destruct Hb as [-> | (? & ? & _)]; simpl; lia |].
    simpl in Hrc2. rewrite Hcl. cbn [bind].
    rewrite joinLoop_stop by lia. cbn [bind fst snd].
    rewrite finishClustering_outcome by done.
    rewrite Hrc2, Hrc. reflexivity.
Qed.

(** Three rooted taxa with the first two reported as duplicates. *)
Lemma constructTree_outcome_witness :
  constructTree [[0; 1]] ex_three
  = Err (if row_count ex_three <? 2 then AssertionFailed
         else OutOfBounds A_weights).
Proof.
  apply (constructTree_outcome [[0; 1]] ex_three).
  - apply wf_check_sound. vm_compute. reflexivity.
  - vm_compute. lia.
Defined.
